(** * Tabyst: the ranking and indexing core, embedded and verified

    Shallow embedding of the relationship graph ([relationships.js]), the
    workflow miner ([workflows.js]), the final ordering of the two scorers
    ([hybrid-scoring.js], [lite-mode.js]) and the text index ([tfidf.js]),
    with the IndexedDB layer of [db.js] they run on.

    Conventions of the embedding.
    - An object store with [keyPath: 'id'] is a [gmap string _]: [store.get]
      is lookup, [store.put] is insert, [store.add] is insert on a free key
      and a rejected request otherwise, [store.delete] is delete.
    - An [async] function that catches its errors is a total function on the
      stores; a rejected request inside it is an [option] that the enclosing
      [try]/[catch] turns back into the store reached so far.
    - [Date.now()] and the freshly generated record ids are arguments.
    - JavaScript numbers that hold counts or milliseconds are [nat] or [Z];
      strengths, scores and confidences are exact rationals [Q]; the BM25 and
      cosine scores, which need [Math.log] and [Math.sqrt], are reals [R].
      Rounding of IEEE doubles is not modelled.
    - A text is a [string] of code units below 256 (Latin-1). *)

From Stdlib Require Import Ascii String ZArith QArith Qminmax Reals Lqa Lra Lia Sorted.
From stdpp Require Import base gmap strings list fin_maps.

(** ** JavaScript helpers shared by the modules *)

Module Js.

(** [String.prototype.toLowerCase] on Latin-1 code units. *)
Definition lowerChar (c : ascii) : ascii :=
  let n := N_of_ascii c in
  if ((65 <=? n) && (n <=? 90))%N
     || ((192 <=? n) && (n <=? 222) && negb (n =? 215))%N
  then ascii_of_N (n + 32) else c.

Fixpoint toLowerCase (s : string) : string :=
  match s with
  | EmptyString => EmptyString
  | String c r => String (lowerChar c) (toLowerCase r)
  end.

(** [new Set(xs)], kept as the list of its elements in insertion order. *)
Definition setAdd (acc : list string) (x : string) : list string :=
  if decide (x ∈ acc) then acc else acc ++ [x].

Definition newSet (xs : list string) : list string := foldl setAdd [] xs.

(** [set.has(x)]. *)
Definition has (s : list string) (x : string) : bool := bool_decide (x ∈ s).

(** [a < b] and [a > b] on rationals. *)
Definition Qltb (a b : Q) : bool := negb (Qle_bool b a).

(** [Math.min] and [Math.max] are [Qmin] and [Qmax]. *)

(** [array.sort(cmp)]. The sort of the language is stable, so for a
    comparator that orders its arguments consistently the result is the one
    stable arrangement; it is computed here by insertion, an element staying
    in front of the later elements it compares equal to. *)
Fixpoint insertBy {A} (cmp : A -> A -> Q) (x : A) (l : list A) : list A :=
  match l with
  | [] => [x]
  | y :: l' => if Qle_bool (cmp x y) 0 then x :: y :: l' else y :: insertBy cmp x l'
  end.

Definition sort {A} (cmp : A -> A -> Q) (l : list A) : list A :=
  foldr (insertBy cmp) [] l.

(** [a] is not after [b] for the comparator: [cmp(a, b) <= 0]. *)
Definition notAfter {A} (cmp : A -> A -> Q) (a b : A) : Prop :=
  (cmp a b <= 0)%Q.

(** A [Map] with string keys whose iteration order matters: the list of its
    entries in insertion order. [set] keeps the place of a key that is
    already present. *)
Definition Map (V : Type) : Type := list (string * V).

Fixpoint mapGet {V} (key : string) (m : Map V) : option V :=
  match m with
  | [] => None
  | (k, v) :: rest => if String.eqb k key then Some v else mapGet key rest
  end.

Definition mapHas {V} (key : string) (m : Map V) : bool :=
  match mapGet key m with Some _ => true | None => false end.

Fixpoint mapSet {V} (key : string) (v : V) (m : Map V) : Map V :=
  match m with
  | [] => [(key, v)]
  | (k, v') :: rest =>
      if String.eqb k key then (k, v) :: rest else (k, v') :: mapSet key v rest
  end.

End Js.

(** ** The stores of [db.js] used by the relationship graph *)

Module Db.

(** The [content] sub-record of a tab document; a missing list reads as
    empty ([content.entities || []]). *)
Record TabContent := {
  summary : string;
  keywords : list string;
  entities : list string;
  topics : list string
}.

Record TabFlags := {
  isActive : bool;
  isIndexed : bool
}.

(** A record of [tabs_index]: [id] is the key path, [tabId] the browser's
    numeric handle. *)
Record Tab := {
  tab_id : string;
  tab_tabId : Z;
  tab_title : string;
  tab_url : string;
  tab_content : option TabContent;
  tab_flags : TabFlags
}.

Record RelMetadata := {
  commonDomain : bool;
  sharedEntities : list string;
  sharedTopics : list string;
  coOccurrenceScore : Q;
  semanticScore : option Q;
  aiReason : option string
}.

Record RelFlags := {
  isAIEnriched : bool;
  needsUpdate : bool
}.

(** A record of [tab_relationships]. The store has [keyPath: 'id']: a
    record is held under its own [id], so the [id] field is the key of the
    map and the other fields are the value. *)
Record Relationship := {
  tab1Id : string;
  tab2Id : string;
  strength : Q;
  type : string;
  createdAt : Z;
  lastAccessedAt : Z;
  accessCount : nat;
  metadata : RelMetadata;
  flags : RelFlags
}.

(** [tabs_index] in key order, and [tab_relationships] by key. *)
Record State := {
  tabs : list Tab;
  relationships : gmap string Relationship
}.

(** [db.getTab(id)]: [store.get(id)]. *)
Definition getTab (id : string) (st : State) : option Tab :=
  find (fun t => bool_decide (tab_id t = id)) (tabs st).

(** [db.getTabByTabId(tabId)]: [index.get(tabId)], the first record of
    the [tabId] index with that key. *)
Definition getTabByTabId (tabId : Z) (st : State) : option Tab :=
  find (fun t => bool_decide (tab_tabId t = tabId)) (tabs st).

(** [db.getRelationship(id)]: [store.get(id)]. The function has one
    parameter; further arguments of a call are ignored. *)
Definition getRelationship (id : string) (st : State) : option Relationship :=
  relationships st !! id.

(** [db.getAllRelationships()]: [store.getAll()]. *)
Definition getAllRelationships (st : State) : list (string * Relationship) :=
  map_to_list (relationships st).

Definition withRelationships (st : State) (m : gmap string Relationship) : State :=
  {| tabs := tabs st; relationships := m |}.

(** [db.addRelationship(relData)]: [store.add]; the request is rejected
    ([None]) when the key is taken. *)
Definition addRelationship (id : string) (rel : Relationship) (st : State)
    : option State :=
  match relationships st !! id with
  | Some _ => None
  | None => Some (withRelationships st (<[id := rel]> (relationships st)))
  end.

(** [db.deleteRelationship(id)]: [store.delete(id)]. *)
Definition deleteRelationship (id : string) (st : State) : State :=
  withRelationships st (delete id (relationships st)).

(** [db.updateRelationship(id, updates)]: reads the stored record, merges
    the updates ([{ ...rel, ...updates }], here the function [updates]; no
    caller updates [id]) and puts it back; the request is rejected ([None])
    when the record is not found. *)
Definition updateRelationship (id : string)
    (updates : Relationship -> Relationship) (st : State) : option State :=
  match relationships st !! id with
  | None => None
  | Some rel =>
      let updatedRel := updates rel in
      Some (withRelationships st (<[id := updatedRel]> (relationships st)))
  end.

End Db.

(** ** [relationships.js] *)

Module Relationships.
Import Db.
Local Open Scope Q_scope.

(** What the browser and the language model supply: [new URL(url).hostname]
    ([None] when the constructor throws) and the parsed reply of the prompt
    session ([None] when the model is absent, unavailable or the call
    throws). *)
Record RawReply := {
  raw_score : option Q;        (* [parseFloat(...)], [None] for [NaN] *)
  raw_type : string;
  raw_reason : string
}.

Record Env := {
  hostname : string -> option string;
  languageModel : Tab -> Tab -> option RawReply
}.

Record SemanticAnalysis := {
  sa_semanticScore : Q;
  sa_relationshipType : string;
  sa_reason : string
}.

Definition setStrength (s : Q) (rel : Relationship) : Relationship :=
  {| tab1Id := tab1Id rel; tab2Id := tab2Id rel;
     strength := s; type := type rel; createdAt := createdAt rel;
     lastAccessedAt := lastAccessedAt rel; accessCount := accessCount rel;
     metadata := metadata rel; flags := flags rel |}.

(** [strengthenRelationship(relationshipId)]. *)
Definition strengthenUpdate (now : Z) (newStrength : Q) (newAccessCount : nat)
    (rel : Relationship) : Relationship :=
  {| tab1Id := tab1Id rel; tab2Id := tab2Id rel;
     strength := newStrength; type := type rel; createdAt := createdAt rel;
     lastAccessedAt := now; accessCount := newAccessCount;
     metadata := metadata rel; flags := flags rel |}.

Definition strengthenRelationship (now : Z) (relationshipId : string)
    (st : State) : State :=
  match getRelationship relationshipId st with
  | None => st
  | Some rel =>
      let newStrength := Qmin (strength rel + 0.1) 1 in
      let newAccessCount := (accessCount rel + 1)%nat in
      match updateRelationship relationshipId
              (strengthenUpdate now newStrength newAccessCount) st with
      | Some st' => st'
      | None => st
      end
  end.

(** The record [createBasicRelationships] adds. *)
Definition basicRelationship (now : Z) (reason : string)
    (tab1 tab2 : Tab) (sameHost : bool) : Relationship :=
  {| tab1Id := tab_id tab1; tab2Id := tab_id tab2;
     strength := 0.3; type := reason;
     createdAt := now; lastAccessedAt := now; accessCount := 1%nat;
     metadata := {| commonDomain := sameHost; sharedEntities := [];
                    sharedTopics := []; coOccurrenceScore := 0;
                    semanticScore := None; aiReason := None |};
     flags := {| isAIEnriched := false; needsUpdate := false |} |}.

(** [createBasicRelationships(tab1Id, tab2Id, reason)]. [freshId] is the
    generated [rel_<time>_<random>] id. The existence check is the call
    [db.getRelationship(tab1.id, tab2.id)], that is [store.get(tab1.id)],
    and [existing.id] is then [tab1.id]. *)
Definition createBasicRelationships (env : Env) (freshId : string) (now : Z)
    (tab1Id tab2Id : Z) (reason : string) (st : State) : State :=
  match getTabByTabId tab1Id st, getTabByTabId tab2Id st with
  | Some tab1, Some tab2 =>
      match getRelationship (tab_id tab1) st with
      | Some existing => strengthenRelationship now (tab_id tab1) st
      | None =>
          match hostname env (tab_url tab1), hostname env (tab_url tab2) with
          | Some h1, Some h2 =>
              match addRelationship freshId
                      (basicRelationship now reason tab1 tab2
                         (bool_decide (h1 = h2))) st with
              | Some st' => st'
              | None => st
              end
          | _, _ => st
          end
      end
  | _, _ => st
  end.

(** [analyzeSemanticRelationship(tab1, tab2)]: reading [tab.content.summary]
    throws on a tab without content, and the [catch] returns [null]. *)
Definition analyzeSemanticRelationship (env : Env) (tab1 tab2 : Tab)
    : option SemanticAnalysis :=
  match tab_content tab1, tab_content tab2 with
  | Some _, Some _ =>
      match languageModel env tab1 tab2 with
      | None => None
      | Some reply =>
          Some {| sa_semanticScore :=
                    match raw_score reply with
                    | None => 0
                    | Some score => Qmin (Qmax score 0) 1
                    end;
                  sa_relationshipType := raw_type reply;
                  sa_reason := raw_reason reply |}
      end
  | _, _ => None
  end.

(** [(tab?.content?.entities || []).map(e => e.toLowerCase())] as a set. *)
Definition loweredSet (proj : TabContent -> list string) (tab : option Tab)
    : list string :=
  Js.newSet (map Js.toLowerCase
    (match tab with
     | Some t => match tab_content t with Some c => proj c | None => [] end
     | None => []
     end)).

Definition shared (s1 s2 : list string) : list string :=
  filter (fun e => Js.has s2 e = true) s1.

(** [all.size > 0 ? shared.length / all.size : 0]. *)
Definition overlapScore (s1 s2 : list string) : Q :=
  let all := Js.newSet (s1 ++ s2) in
  if (0 <? length all)%nat
  then inject_Z (Z.of_nat (length (shared s1 s2))) / inject_Z (Z.of_nat (length all))
  else 0.

Definition tabIndexed (tab : option Tab) : bool :=
  match tab with Some t => isIndexed (tab_flags t) | None => false end.

(** [semanticAnalysis?.semanticScore || 0]. *)
Definition scoreOrZero (sa : option SemanticAnalysis) : Q :=
  match sa with Some a => sa_semanticScore a | None => 0 end.

(** The argument of [db.updateRelationship] in the loop: [type], [metadata],
    [strength] and [flags], the metadata and flags spread from the record
    [rel] of the listing; the other fields are those of the stored record. *)
Definition enrichUpdate (rel : Relationship) (finalType : string)
    (shE shT : list string) (jaccardScore : Q) (sem : Q) (aiR : string)
    (finalStrength : Q) (stored : Relationship) : Relationship :=
  {| tab1Id := tab1Id stored; tab2Id := tab2Id stored;
     strength := finalStrength; type := finalType;
     createdAt := createdAt stored; lastAccessedAt := lastAccessedAt stored;
     accessCount := accessCount stored;
     metadata := {| commonDomain := commonDomain (metadata rel);
                    sharedEntities := shE; sharedTopics := shT;
                    coOccurrenceScore := jaccardScore;
                    semanticScore := Some sem; aiReason := Some aiR |};
     flags := {| isAIEnriched := true; needsUpdate := needsUpdate (flags rel) |} |}.

(** The strength the loop body of [enrichRelationshipsWithAI] computes. *)
Definition finalStrength (rel : Relationship) (jaccardScore : Q)
    (semanticAnalysis : option SemanticAnalysis) : Q :=
  let finalStrength := strength rel + jaccardScore * 0.3 in
  match semanticAnalysis with
  | Some a => Qmin (finalStrength + sa_semanticScore a * 0.4) 1
  | None => finalStrength
  end.

(** One iteration of the loop of [enrichRelationshipsWithAI]. *)
Definition enrichOne (env : Env) (entry : string * Relationship) (st : State)
    : State :=
  let (id, rel) := entry in
  let tab1 := getTab (tab1Id rel) st in
  let tab2 := getTab (tab2Id rel) st in
  let tab1Indexed := tabIndexed tab1 in
  let tab2Indexed := tabIndexed tab2 in
  if negb tab1Indexed && negb tab2Indexed then st else
  let entities1 := loweredSet entities tab1 in
  let entities2 := loweredSet entities tab2 in
  let sharedEntities := shared entities1 entities2 in
  let topics1 := loweredSet topics tab1 in
  let topics2 := loweredSet topics tab2 in
  let sharedTopics := shared topics1 topics2 in
  let entityScore := overlapScore entities1 entities2 in
  let topicScore := overlapScore topics1 topics2 in
  let jaccardScore := (entityScore + topicScore) / 2 in
  let semanticAnalysis :=
    if tab1Indexed && tab2Indexed then
      match tab1, tab2 with
      | Some t1, Some t2 => analyzeSemanticRelationship env t1 t2
      | _, _ => None
      end
    else None in
  let final := finalStrength rel jaccardScore semanticAnalysis in
  let finalType :=
    match semanticAnalysis with
    | Some a => sa_relationshipType a | None => type rel end in
  let aiR :=
    match semanticAnalysis with
    | Some a => sa_reason a | None => EmptyString end in
  let isUnrelated :=
    Js.Qltb (scoreOrZero semanticAnalysis) 0.2
    && (length sharedEntities =? 0)%nat && (length sharedTopics =? 0)%nat in
  if isUnrelated then deleteRelationship id st else
  match updateRelationship id
          (enrichUpdate rel finalType sharedEntities sharedTopics jaccardScore
             (scoreOrZero semanticAnalysis) aiR final) st with
  | Some st' => st'
  | None => st
  end.

(** [enrichRelationshipsWithAI()]: the loop over the relationships that
    are not yet enriched; a failing iteration is skipped. *)
Definition enrichRelationshipsWithAI (env : Env) (st : State) : State :=
  let toEnrich :=
    filter (fun r => isAIEnriched (flags r.2) = false) (getAllRelationships st) in
  foldl (fun acc entry => enrichOne env entry acc) st toEnrich.

(** [applyRelationshipDecay()]. *)
Definition oneWeek : Z := (7 * 24 * 60 * 60 * 1000)%Z.

Definition decayedStrength (now : Z) (rel : Relationship) : Q :=
  let timeSinceAccess := (now - lastAccessedAt rel)%Z in
  let weeksInactive := inject_Z timeSinceAccess / inject_Z oneWeek in
  let decayAmount := Qmin (weeksInactive * 0.05) 0.3 in
  Qmax (strength rel - decayAmount) 0.

Fixpoint decayLoop (now : Z) (rels : list (string * Relationship)) (st : State)
    : State :=
  match rels with
  | [] => st
  | (id, rel) :: rest =>
      let timeSinceAccess := (now - lastAccessedAt rel)%Z in
      if (oneWeek <? timeSinceAccess)%Z then
        let newStrength := decayedStrength now rel in
        if Js.Qltb newStrength 0.1 then
          decayLoop now rest (deleteRelationship id st)
        else
          match updateRelationship id (setStrength newStrength) st with
          | Some st' => decayLoop now rest st'
          | None => st     (* rejected: the outer [catch] ends the sweep *)
          end
      else decayLoop now rest st
  end.

Definition applyRelationshipDecay (now : Z) (st : State) : State :=
  decayLoop now (getAllRelationships st) st.

End Relationships.

(** ** [workflows.js] *)

Module Workflows.
Local Open Scope Q_scope.

Record NavRef := {
  ref_tabId : string;
  ref_url : string
}.

(** A record of [navigation_history]. *)
Record Navigation := {
  nav_id : string;
  timestamp : Z;
  fromTab : NavRef;
  toTab : NavRef
}.

(** A stored workflow pattern; its [id] is the key of the store. *)
Record Workflow := {
  pattern : list string;
  frequency : nat;
  lastOccurrence : Z;
  avgInterval : Q;
  confidence : Q;
  wf_type : string
}.

(** [navigation_history] is held as the list of its records in the order of
    the [timestamp] index; [workflows] has [keyPath: 'id']. *)
Record NavState := {
  navigation_history : list Navigation;
  workflows : gmap string Workflow
}.

(** [db.getRecentNavigations(since)]: the records of the [timestamp] index
    from [since] on. *)
Definition getRecentNavigations (since : Z) (st : NavState) : list Navigation :=
  filter (fun nav => (since <= timestamp nav)%Z) (navigation_history st).

(** [db.upsertWorkflow(workflowData)]: [store.put], keyed by [id]. *)
Definition upsertWorkflow (workflowData : string * Workflow) (st : NavState) : NavState :=
  {| navigation_history := navigation_history st;
     workflows := <[workflowData.1 := workflowData.2]> (workflows st) |}.

(** [db.getAllWorkflows()]. *)
Definition getAllWorkflows (st : NavState) : list (string * Workflow) :=
  map_to_list (workflows st).

Record SeqTab := {
  st_tabId : string;
  st_url : string;
  st_timestamp : Z
}.

Record Sequence := {
  seq_tabs : list SeqTab;
  seq_length : nat;
  startTime : Z;
  endTime : Z
}.

Definition thirtyDays : Z := (30 * 24 * 60 * 60 * 1000)%Z.
Definition tenMinutes : Z := (10 * 60 * 1000)%Z.

(** The inner loop of [extractSequences]: every step within ten minutes
    of the one before. *)
Fixpoint isContiguous (sequence : list Navigation) : bool :=
  match sequence with
  | [] => true
  | prev :: rest =>
      match rest with
      | [] => true
      | next :: _ =>
          if (tenMinutes <? timestamp next - timestamp prev)%Z then false
          else isContiguous rest
      end
  end.

(** The pushed object; reading [sequence[0].timestamp] of an empty slice
    throws ([None]). *)
Definition mkSequence (len : nat) (sequence : list Navigation) : option Sequence :=
  match head sequence, last sequence with
  | Some first, Some final =>
      Some {| seq_tabs :=
                map (fun nav => {| st_tabId := ref_tabId (toTab nav);
                                   st_url := ref_url (toTab nav);
                                   st_timestamp := timestamp nav |}) sequence;
              seq_length := len;
              startTime := timestamp first;
              endTime := timestamp final |}
  | _, _ => None
  end.

(** [extractSequences(minLength, maxLength)]; a thrown error is caught and
    the result is then empty. *)
Definition extractSequences (now : Z) (minLength maxLength : nat) (st : NavState)
    : list Sequence :=
  let navHistory := getRecentNavigations (now - thirtyDays) st in
  if (length navHistory <? minLength)%nat then [] else
  let sorted :=
    Js.sort (fun a b => inject_Z (timestamp a - timestamp b)) navHistory in
  let pushed : list (option Sequence) :=
    flat_map (fun len =>
      flat_map (fun i =>
        let sequence := take len (drop i sorted) in
        if isContiguous sequence then [mkSequence len sequence] else [])
        (seq 0 (length sorted + 1 - len)))
      (seq minLength (maxLength + 1 - minLength)) in
  match mapM (fun pushedItem => pushedItem) pushed with
  | Some sequences => sequences
  | None => []
  end.

Record Occurrence := {
  occ_startTime : Z;
  occ_endTime : Z
}.

(** An entry of [sequenceMap]. *)
Record Group := {
  g_pattern : list string;
  g_occurrences : list Occurrence;
  g_frequency : nat
}.

(** [seq.tabs.map(t => t.url)] and its [join('->')]. *)
Definition urlsOf (sequence : Sequence) : list string :=
  map st_url (seq_tabs sequence).

Definition chainKey (urls : list string) : string := String.concat "->" urls.

(** The body of the grouping loop of [detectWorkflows]. *)
Definition addSequence (sequenceMap : Js.Map Group) (sequence : Sequence)
    : Js.Map Group :=
  let key := chainKey (urlsOf sequence) in
  let sequenceMap :=
    if negb (Js.mapHas key sequenceMap)
    then Js.mapSet key {| g_pattern := urlsOf sequence; g_occurrences := [];
                          g_frequency := 0 |} sequenceMap
    else sequenceMap in
  match Js.mapGet key sequenceMap with
  | Some entry =>
      Js.mapSet key
        {| g_pattern := g_pattern entry;
           g_occurrences := g_occurrences entry
                            ++ [{| occ_startTime := startTime sequence;
                                   occ_endTime := endTime sequence |}];
           g_frequency := S (g_frequency entry) |} sequenceMap
  | None => sequenceMap
  end.

Definition groupSequences (sequences : list Sequence) : Js.Map Group :=
  foldl addSequence [] sequences.

(** The sum of the gaps between consecutive occurrences. *)
Fixpoint totalInterval (sortedOccurrences : list Occurrence) : Z :=
  match sortedOccurrences with
  | [] => 0
  | prev :: rest =>
      match rest with
      | [] => 0
      | next :: _ => (occ_startTime next - occ_endTime prev + totalInterval rest)%Z
      end
  end.

(** The object pushed for a group that passed the threshold; reading the
    last occurrence of an empty list throws ([None]). *)
Definition mkWorkflow (data : Group) : option Workflow :=
  let sortedOccurrences :=
    Js.sort (fun a b => inject_Z (occ_startTime a - occ_startTime b))
      (g_occurrences data) in
  let avgInterval :=
    if (1 <? length sortedOccurrences)%nat
    then inject_Z (totalInterval sortedOccurrences)
         / inject_Z (Z.of_nat (length sortedOccurrences - 1))
    else 0 in
  match last sortedOccurrences with
  | Some final =>
      Some {| pattern := g_pattern data;
              frequency := g_frequency data;
              lastOccurrence := occ_startTime final;
              avgInterval := avgInterval;
              confidence := Qmin (inject_Z (Z.of_nat (g_frequency data)) / 10) 1;
              wf_type := "navigation_sequence" |}
  | None => None
  end.

(** The filtering loop: the groups of frequency at least 3, in the order of
    the map; [ids n] is the [n]-th id generated in this pass
    ([workflow_<time>_<random>]). *)
Fixpoint materialize (ids : nat -> string) (n : nat) (entries : Js.Map Group)
    : option (list (string * Workflow)) :=
  match entries with
  | [] => Some []
  | (key, data) :: rest =>
      if (3 <=? g_frequency data)%nat then
        match mkWorkflow data with
        | Some w =>
            match materialize ids (S n) rest with
            | Some ws => Some ((ids n, w) :: ws)
            | None => None
            end
        | None => None
        end
      else materialize ids n rest
  end.

(** [detectWorkflows()]: the returned list and the store after the pass. *)
Definition detectWorkflows (now : Z) (ids : nat -> string) (st : NavState)
    : list (string * Workflow) * NavState :=
  let sequences := extractSequences now 2 5 st in
  if (length sequences =? 0)%nat then ([], st) else
  let sequenceMap := groupSequences sequences in
  match materialize ids 0 sequenceMap with
  | None => ([], st)
  | Some found =>
      let found :=
        Js.sort (fun a b => inject_Z (Z.of_nat (frequency b.2)
                                      - Z.of_nat (frequency a.2))) found in
      (found, foldl (fun acc workflow => upsertWorkflow workflow acc) st found)
  end.

End Workflows.

(** ** The final ordering of [hybrid-scoring.js] and [lite-mode.js] *)

Module Scoring.
Local Open Scope Q_scope.

(** A browser tab as the scorers read it. *)
Record BrowserTab := {
  id : Z;
  title : string;
  url : string;
  lastAccessed : option Z;
  accessCount : option Z
}.

(** A scored candidate: [{ ...candidateTab, score, ... }]. *)
Record Scored := {
  candidate : BrowserTab;
  score : Q
}.

(** The signals that are read from the text index and the stores, as the
    numbers the scoring functions return for a candidate. *)
Record HybridSignals := {
  h_tfidf : BrowserTab -> Q;
  h_cosine : BrowserTab -> Q;
  h_entities : BrowserTab -> Q;
  h_topics : BrowserTab -> Q;
  h_relationship : BrowserTab -> Q;
  h_behavioral : BrowserTab -> Q
}.

Record LiteSignals := {
  l_bm25 : BrowserTab -> Q;
  l_cosine : BrowserTab -> Q;
  l_coldStartDone : bool;
  l_aiBonus : BrowserTab -> Q;
  l_behavioral : BrowserTab -> Q
}.

Record Prediction := {
  predictedTab : BrowserTab;
  predictionConfidence : Q
}.

(** [calculateHybridScore]: the weighted sum. *)
Definition calculateHybridScore (sig : HybridSignals) (candidateTab : BrowserTab) : Q :=
  0 + h_tfidf sig candidateTab * 0.18
    + h_cosine sig candidateTab * 0.12
    + h_entities sig candidateTab * 0.28
    + h_topics sig candidateTab * 0.22
    + h_relationship sig candidateTab * 0.10
    + h_behavioral sig candidateTab * 0.10.

(** The comparator of both scorers. *)
Definition compareScored (a b : Scored) : Q :=
  let scoreDiff := score b - score a in
  if negb (Qeq_bool scoreDiff 0) then scoreDiff
  else inject_Z (id (candidate a) - id (candidate b)).

(** [scored.sort(...).slice(0, 10)]. *)
Definition topSuggestions (scored : list Scored) : list Scored :=
  take 10 (Js.sort compareScored scored).

(** The array [scored] of [getHybridSuggestions]: every other tab with
    its weighted sum and, for the predicted tab, the workflow bonus. *)
Definition hybridScored (sig : HybridSignals) (currentTab : BrowserTab)
    (allTabs : list BrowserTab) (workflowPrediction : option Prediction)
    : list Scored :=
  let otherTabs :=
    filter (fun t => id t <> id currentTab) allTabs in
  map (fun candidateTab =>
    let total := calculateHybridScore sig candidateTab in
    let finalScore :=
      match workflowPrediction with
      | Some prediction =>
          if bool_decide (id candidateTab = id (predictedTab prediction))
          then total + 0.3 * predictionConfidence prediction
          else total
      | None => total
      end in
    {| candidate := candidateTab; score := finalScore |}) otherTabs.

(** [getHybridSuggestions(currentTab, allTabs, workflowPrediction)]. *)
Definition getHybridSuggestions (sig : HybridSignals) (currentTab : BrowserTab)
    (allTabs : list BrowserTab) (workflowPrediction : option Prediction)
    : list Scored :=
  topSuggestions (hybridScored sig currentTab allTabs workflowPrediction).

Definition oneMinute : Z := (60 * 1000)%Z.

(** [tab.lastAccessed || fallback]: a missing or zero time is falsy. *)
Definition orElse (t : option Z) (fallback : Z) : Z :=
  match t with
  | Some v => if (v =? 0)%Z then fallback else v
  | None => fallback
  end.

(** [Math.floor(t / oneMinute) * oneMinute]. *)
Definition floorMinute (t : Z) : Z := (t / oneMinute * oneMinute)%Z.

(** [calculateTemporalProximity(currentTab, candidateTab)]. *)
Definition calculateTemporalProximity (now : Z) (currentTab candidateTab : BrowserTab) : Q :=
  let currentTime := floorMinute (orElse (lastAccessed currentTab) now) in
  let candidateTime := floorMinute (orElse (lastAccessed candidateTab) 0) in
  let timeDiff := Z.abs (currentTime - candidateTime) in
  let thirtyMinutes := (30 * 60 * 1000)%Z in
  let linearScore := Qmax 0 (1 - inject_Z timeDiff / inject_Z thirtyMinutes) in
  linearScore * linearScore.

(** [calculateAccessFrequency(candidateTab)]. *)
Definition calculateAccessFrequency (candidateTab : BrowserTab) : Q :=
  let accessCount := orElse (accessCount candidateTab) 0 in
  Qmin (inject_Z accessCount / 10) 1.

(** [calculateRecencyScore(candidateTab)]. *)
Definition calculateRecencyScore (now : Z) (candidateTab : BrowserTab) : Q :=
  let now := floorMinute now in
  let candidateTime := floorMinute (orElse (lastAccessed candidateTab) 0) in
  let hoursSinceAccess := inject_Z (now - candidateTime) / inject_Z (1000 * 60 * 60) in
  Qmax 0 (1 - hoursSinceAccess / 24).

(** The score of the loop body of [getLiteSuggestions]. *)
Definition liteScore (sig : LiteSignals) (now : Z)
    (currentTab candidateTab : BrowserTab) : Q :=
  let score := 0 + Qmin (l_bm25 sig candidateTab / 10) 1 * 0.20 in
  let score := score + l_cosine sig candidateTab * 0.15 in
  let score :=
    if l_coldStartDone sig then score + l_aiBonus sig candidateTab * 0.20
    else score in
  let score := score + l_behavioral sig candidateTab * 0.15 in
  let score := score + calculateAccessFrequency candidateTab * 0.10 in
  let score := score + calculateRecencyScore now candidateTab * 0.08 in
  score + calculateTemporalProximity now currentTab candidateTab * 0.07.

(** The array [scored] of [getLiteSuggestions]. *)
Definition liteScored (sig : LiteSignals) (now : Z)
    (currentTab : BrowserTab) (allTabs : list BrowserTab) : list Scored :=
  let otherTabs :=
    filter (fun t => id t <> id currentTab) allTabs in
  map (fun candidateTab =>
    {| candidate := candidateTab;
       score := liteScore sig now currentTab candidateTab |}) otherTabs.

(** [getLiteSuggestions(currentTab, allTabs)]. *)
Definition getLiteSuggestions (sig : LiteSignals) (now : Z)
    (currentTab : BrowserTab) (allTabs : list BrowserTab) : list Scored :=
  topSuggestions (liteScored sig now currentTab allTabs).

(** The lite branch of the suggestion handler of [background.js]: the
    workflow bonus is added to the predicted tab and the list is sorted
    again with the same comparator. *)
Definition addWorkflowBonus (prediction : Prediction) (s : Scored) : Scored :=
  if bool_decide (id (candidate s) = id (predictedTab prediction))
  then {| candidate := candidate s;
          score := score s + 0.3 * predictionConfidence prediction |}
  else s.

Definition liteWithWorkflowBonus (workflowPrediction : option Prediction)
    (suggestions : list Scored) : list Scored :=
  match workflowPrediction with
  | Some prediction =>
      Js.sort compareScored (map (addWorkflowBonus prediction) suggestions)
  | None => suggestions
  end.

End Scoring.

(** ** [tfidf.js] *)

Module Tfidf.

(** *** Tokenization *)

(** [text.normalize('NFD')] followed by the removal of the combining
    marks U+0300 to U+036F, on a Latin-1
    code unit: a letter with a canonical decomposition is left with its
    base letter, every other code unit is unchanged. *)
Definition stripDiacritic (c : ascii) : ascii :=
  let n := N_of_ascii c in
  let within (lo hi : N) := ((lo <=? n) && (n <=? hi))%N in
  if within 192%N 197%N then "A"%char else
  if within 199%N 199%N then "C"%char else
  if within 200%N 203%N then "E"%char else
  if within 204%N 207%N then "I"%char else
  if within 209%N 209%N then "N"%char else
  if within 210%N 214%N then "O"%char else
  if within 217%N 220%N then "U"%char else
  if within 221%N 221%N then "Y"%char else
  if within 224%N 229%N then "a"%char else
  if within 231%N 231%N then "c"%char else
  if within 232%N 235%N then "e"%char else
  if within 236%N 239%N then "i"%char else
  if within 241%N 241%N then "n"%char else
  if within 242%N 246%N then "o"%char else
  if within 249%N 252%N then "u"%char else
  if within 253%N 253%N || within 255%N 255%N then "y"%char else c.

(** [\w], [\s] and [\d] of a regular expression without flags. *)
Definition isDigit (c : ascii) : bool :=
  let n := N_of_ascii c in ((48 <=? n) && (n <=? 57))%N.

Definition isWordChar (c : ascii) : bool :=
  let n := N_of_ascii c in
  (((48 <=? n) && (n <=? 57)) || ((65 <=? n) && (n <=? 90))
   || ((97 <=? n) && (n <=? 122)) || (n =? 95))%N.

Definition isSpace (c : ascii) : bool :=
  let n := N_of_ascii c in
  (((9 <=? n) && (n <=? 13)) || (n =? 32) || (n =? 160))%N.

Definition isHyphenOrApostrophe (c : ascii) : bool :=
  let n := N_of_ascii c in ((n =? 45) || (n =? 39))%N.

(** [.replace(/[^\w\s'-]/g, ' ')] on one code unit. *)
Definition blankOther (c : ascii) : ascii :=
  if isWordChar c || isSpace c || isHyphenOrApostrophe c then c else " "%char.

(** [.split(/\s+/)]: the pieces between the maximal runs of white space,
    empty pieces at the two ends included. [cur] is the piece being read,
    reversed; [inRun] tells that the previous code unit was white space. *)
Fixpoint splitSpaces (cs : list ascii) (cur : list ascii) (inRun : bool)
    : list (list ascii) :=
  match cs with
  | [] => [rev cur]
  | c :: rest =>
      if isSpace c then
        if inRun then splitSpaces rest [] true
        else rev cur :: splitSpaces rest [] true
      else splitSpaces rest (c :: cur) false
  end.

Fixpoint dropLeading (cs : list ascii) : list ascii :=
  match cs with
  | [] => []
  | c :: rest => if isHyphenOrApostrophe c then dropLeading rest else cs
  end.

(** [word.replace(/^[-']+|[-']+$/g, '')]. *)
Definition trimWord (cs : list ascii) : list ascii :=
  rev (dropLeading (rev (dropLeading cs))).

(** [tokenize(text)]. *)
Definition tokenize (text : string) : list string :=
  let normalized := map stripDiacritic (list_ascii_of_string text) in
  let lowered := map Js.lowerChar normalized in
  let replaced := map blankOther lowered in
  let words := map trimWord (splitSpaces replaced [] false) in
  map string_of_list_ascii
    (filter (fun word => (2 <? length word)%nat && negb (forallb isDigit word) = true)
       words).

(** *** The index *)

(** The metadata object of a document: its [domain], [title] and [url]
    fields, or none. *)
Definition Metadata : Type := list (string * string).

Record Document := {
  doc_id : Z;
  doc_text : string;
  doc_metadata : Metadata
}.

Record TermFreqRecord := {
  tf_id : Z;
  termFreq : gmap string nat;
  terms : list string;
  uniqueTerms : nat;
  totalTerms : nat;
  tf_metadata : Metadata
}.

(** The fields of a [TFIDF] object. The maps are read by key only, apart
    from their listing in [serialize] and in [cosineSimilarity]. *)
Record TFIDF := {
  documents : list Document;
  documentFreq : gmap string nat;
  termFreqs : list TermFreqRecord;
  globalTermFreq : gmap string nat;
  totalTermCount : nat
}.

(** [new TFIDF()]. *)
Definition empty : TFIDF :=
  {| documents := []; documentFreq := ∅; termFreqs := [];
     globalTermFreq := ∅; totalTermCount := 0 |}.

(** [map.get(term) || 0]. *)
Definition getOr0 (m : gmap string nat) (term : string) : nat :=
  default 0%nat (m !! term).

(** [map.get(term) || 1]: a missing and a zero count both read as 1. *)
Definition getOr1 (m : gmap string nat) (term : string) : nat :=
  match m !! term with
  | Some (S n) => S n
  | _ => 1%nat
  end.

(** [isStopWord(term)]. *)
Definition isStopWord (x : TFIDF) (term : string) : bool :=
  let numDocs := length (documents x) in
  if (numDocs <? 3)%nat then false else
  let df := getOr0 (documentFreq x) term in
  let docFrequency := (inject_Z (Z.of_nat df) / inject_Z (Z.of_nat numDocs))%Q in
  Js.Qltb 0.4 docFrequency.

(** [filterTerms(terms)]. *)
Definition keepTerm (x : TFIDF) (term : string) : bool :=
  let numDocs := length (documents x) in
  if (String.length term <? 3)%nat || (30 <? String.length term)%nat then false else
  if isStopWord x term then false else
  if (10 <? numDocs)%nat && (getOr0 (documentFreq x) term =? 1)%nat then false
  else true.

Definition filterTerms (x : TFIDF) (terms : list string) : list string :=
  filter (fun term => keepTerm x term = true) terms.

(** [extractNGrams(tokens, n)]. *)
Definition extractNGrams (tokens : list string) (n : nat) : list string :=
  map (fun i => String.concat "_" (take n (drop i tokens)))
    (seq 0 (length tokens + 1 - n)).

(** [map.set(term, (map.get(term) || 0) + 1)]. *)
Definition countTerm (m : gmap string nat) (term : string) : gmap string nat :=
  <[term := (getOr0 m term + 1)%nat]> m.

(** The loop body that updates the document frequency of a unique term. *)
Definition bumpDocumentFreq (m : gmap string nat) (term : string)
    : gmap string nat :=
  let m := if bool_decide (is_Some (m !! term)) then m else <[term := 0%nat]> m in
  <[term := (getOr0 m term + 1)%nat]> m.

(** [addDocument(text, id, metadata)]. *)
Definition addDocument (text : string) (id : Z) (metadata : Metadata)
    (x : TFIDF) : TFIDF :=
  let tokens := tokenize text in
  let globalTermFreq' := foldl countTerm (globalTermFreq x) tokens in
  let totalTermCount' := (totalTermCount x + length tokens)%nat in
  let filteredTokens := filterTerms x tokens in
  let bigrams := extractNGrams filteredTokens 2 in
  let trigrams := extractNGrams filteredTokens 3 in
  let allTerms := filteredTokens ++ bigrams ++ trigrams in
  let termFreq := foldl countTerm ∅ allTerms in
  let uniqueTerms := Js.newSet allTerms in
  {| documents := documents x
                  ++ [{| doc_id := id; doc_text := text; doc_metadata := metadata |}];
     documentFreq := foldl bumpDocumentFreq (documentFreq x) uniqueTerms;
     termFreqs := termFreqs x
                  ++ [{| tf_id := id; termFreq := termFreq; terms := allTerms;
                         uniqueTerms := length uniqueTerms;
                         totalTerms := length allTerms;
                         tf_metadata := metadata |}];
     globalTermFreq := globalTermFreq';
     totalTermCount := totalTermCount' |}.

(** The loop body of [removeDocument] on one unique term. A term without a
    count makes the source store [NaN]; the model stops there ([None]). *)
Definition dropDocumentFreq (m : option (gmap string nat)) (term : string)
    : option (gmap string nat) :=
  match m with
  | None => None
  | Some m =>
      match m !! term with
      | None => None
      | Some freq =>
          if (freq <=? 1)%nat then Some (delete term m)
          else Some (<[term := (freq - 1)%nat]> m)
      end
  end.

(** [removeDocument(id)]. The result is [None] where the source leaves the
    modelled domain: it throws on [termFreqs[index]] being undefined, or
    stores [NaN] as a count. *)
Definition removeDocument (id : Z) (x : TFIDF) : option TFIDF :=
  match list_find (fun d => doc_id d = id) (documents x) with
  | None => Some x
  | Some (index, _) =>
      match termFreqs x !! index with
      | None => None
      | Some doc =>
          let uniqueTerms := Js.newSet (terms doc) in
          match foldl dropDocumentFreq (Some (documentFreq x)) uniqueTerms with
          | None => None
          | Some documentFreq' =>
              Some {| documents := delete index (documents x);
                      documentFreq := documentFreq';
                      termFreqs := delete index (termFreqs x);
                      globalTermFreq := globalTermFreq x;
                      totalTermCount := totalTermCount x |}
          end
      end
  end.

(** [this.termFreqs.find(d => d.id === documentId)]. *)
Definition findRecord (x : TFIDF) (documentId : Z) : option TermFreqRecord :=
  find (fun d => bool_decide (tf_id d = documentId)) (termFreqs x).

Local Open Scope R_scope.

(** [this.termFreqs.reduce((sum, d) => sum + d.totalTerms, 0) / numDocs]. *)
Definition avgDocLength (x : TFIDF) : R :=
  INR (foldl (fun sum d => (sum + totalTerms d)%nat) 0%nat (termFreqs x))
  / INR (length (documents x)).

(** What one query term adds to the score in the loop of [bm25]. *)
Definition bm25Step (x : TFIDF) (doc : TermFreqRecord) (k1 b : R)
    (score : R) (term : string) : R :=
  let numDocs := length (documents x) in
  let termFreqInDoc := getOr0 (termFreq doc) term in
  if (termFreqInDoc =? 0)%nat then score else
  let df := getOr1 (documentFreq x) term in
  let idf := ln ((INR numDocs - INR df + 0.5) / (INR df + 0.5) + 1) in
  let numerator := INR termFreqInDoc * (k1 + 1) in
  let denominator :=
    INR termFreqInDoc
    + k1 * (1 - b + b * (INR (totalTerms doc) / avgDocLength x)) in
  score + idf * (numerator / denominator).

(** [bm25(queryText, documentId, k1, b)]. *)
Definition bm25 (x : TFIDF) (queryText : string) (documentId : Z) (k1 b : R) : R :=
  let queryTerms := tokenize queryText in
  let filteredQuery := filterTerms x queryTerms in
  match findRecord x documentId with
  | None => 0
  | Some doc =>
      let numDocs := length (documents x) in
      if (numDocs =? 0)%nat then 0 else
      foldl (bm25Step x doc k1 b) 0 filteredQuery
  end.

(** The default arguments [k1 = 1.5] and [b = 0.75]. *)
Definition k1_default : R := 1.5.
Definition b_default : R := 0.75.

(** [tfidf(queryText, documentId)]. *)
Definition tfidf (x : TFIDF) (queryText : string) (documentId : Z) : R :=
  bm25 x queryText documentId k1_default b_default.

(** The loop body of [cosineSimilarity] on the triple
    ([dotProduct], [mag1], [mag2]). *)
Definition cosineStep (x : TFIDF) (doc1 doc2 : TermFreqRecord)
    (acc : R * R * R) (term : string) : R * R * R :=
  let '(dotProduct, mag1, mag2) := acc in
  let numDocs := length (documents x) in
  let freq1 := getOr0 (termFreq doc1) term in
  let freq2 := getOr0 (termFreq doc2) term in
  let tf1 := INR freq1 / INR (totalTerms doc1) in
  let tf2 := INR freq2 / INR (totalTerms doc2) in
  let df := getOr1 (documentFreq x) term in
  let idf := ln (INR numDocs / INR df) in
  let tfidf1 := tf1 * idf in
  let tfidf2 := tf2 * idf in
  (dotProduct + tfidf1 * tfidf2, mag1 + tfidf1 * tfidf1, mag2 + tfidf2 * tfidf2).

(** [cosineSimilarity(doc1Id, doc2Id)]. *)
Definition cosineSimilarity (x : TFIDF) (doc1Id doc2Id : Z) : R :=
  match findRecord x doc1Id, findRecord x doc2Id with
  | Some doc1, Some doc2 =>
      let allTerms :=
        Js.newSet ((map_to_list (termFreq doc1)).*1
                   ++ (map_to_list (termFreq doc2)).*1) in
      let '(dotProduct, mag1, mag2) :=
        foldl (cosineStep x doc1 doc2) (0, 0, 0) allTerms in
      if Req_dec_T mag1 0 then 0 else
      if Req_dec_T mag2 0 then 0 else
      dotProduct / (sqrt mag1 * sqrt mag2)
  | _, _ => 0
  end.

Local Close Scope R_scope.

(** *** Serialization *)

(** The object handed to [JSON.stringify] and received from [JSON.parse]:
    a tree of strings, integers and arrays, on which the two are inverse.
    A field that [deserialize] reads through [|| default] may be missing. *)
Record SerializedTermFreq := {
  s_id : Z;
  s_termFreq : list (string * nat);
  s_terms : list string;
  s_uniqueTerms : nat;
  s_totalTerms : nat;
  s_metadata : option Metadata
}.

Record Serialized := {
  s_documents : list Document;
  s_documentFreq : list (string * nat);
  s_globalTermFreq : option (list (string * nat));
  s_totalTermCount : option nat;
  s_termFreqs : list SerializedTermFreq
}.

(** [Array.from(map)]: the entries of the map. *)
Definition arrayFrom (m : gmap string nat) : list (string * nat) :=
  map_to_list m.

(** [new Map(entries)]: the entries are set one after the other. *)
Definition newMap (entries : list (string * nat)) : gmap string nat :=
  foldl (fun m entry => <[entry.1 := entry.2]> m) ∅ entries.

(** [serialize()]. *)
Definition serialize (x : TFIDF) : Serialized :=
  {| s_documents := documents x;
     s_documentFreq := arrayFrom (documentFreq x);
     s_globalTermFreq := Some (arrayFrom (globalTermFreq x));
     s_totalTermCount := Some (totalTermCount x);
     s_termFreqs :=
       map (fun tf => {| s_id := tf_id tf;
                         s_termFreq := arrayFrom (termFreq tf);
                         s_terms := terms tf;
                         s_uniqueTerms := uniqueTerms tf;
                         s_totalTerms := totalTerms tf;
                         s_metadata := Some (tf_metadata tf) |})
         (termFreqs x) |}.

(** [TFIDF.deserialize(data)]. *)
Definition deserialize (parsed : Serialized) : TFIDF :=
  {| documents := s_documents parsed;
     documentFreq := newMap (s_documentFreq parsed);
     globalTermFreq := newMap (default [] (s_globalTermFreq parsed));
     totalTermCount := default 0%nat (s_totalTermCount parsed);
     termFreqs :=
       map (fun tf => {| tf_id := s_id tf;
                         termFreq := newMap (s_termFreq tf);
                         terms := s_terms tf;
                         uniqueTerms := s_uniqueTerms tf;
                         totalTerms := s_totalTerms tf;
                         tf_metadata := default [] (s_metadata tf) |})
         (s_termFreqs parsed) |}.

End Tfidf.

(** ** Building and updating the stored text index: [buildTFIDFIndex] of
    [lite-mode.js], [updateTFIDFIndex] of [online-indexing.js] and
    [updateTFIDFWithAIData] of [cold-start.js] *)

Module Indexing.
Import Tfidf.

(** What the index builder asks of the browser: [new URL(url).hostname],
    which throws on a text that is no URL, and the text that
    [extractTabContent] extracts from a tab (empty when it fails). *)
Record PageEnv := {
  urlHostname : string -> option string;
  tabText : Z -> string
}.

Definition restrictedProtocols : list string :=
  ["chrome://"; "chrome-extension://"; "about:"; "edge://"; "file://";
   "view-source:"; "data:"; "blob:"].

(** [isAccessibleUrl(url)]. *)
Definition isAccessibleUrl (url : string) : bool :=
  if bool_decide (url = EmptyString) then false else
  negb (existsb (fun protocol => String.prefix protocol url) restrictedProtocols).

(** [`${title} ${title} ${title}`]. *)
Definition titleRepeated (title : string) : string :=
  String.append title (String.append " " (String.append title
    (String.append " " title))).

(** The body of the loop of [buildTFIDFIndex]: a tab whose URL does not
    parse throws, is caught and skipped. *)
Definition indexTab (env : PageEnv) (tfidf : TFIDF) (tab : Scoring.BrowserTab)
    : TFIDF :=
  match urlHostname env (Scoring.url tab) with
  | None => tfidf
  | Some domain =>
      let metadata :=
        [("domain", domain); ("title", Scoring.title tab);
         ("url", Scoring.url tab)] in
      if isAccessibleUrl (Scoring.url tab) then
        let text := tabText env (Scoring.id tab) in
        let combinedText :=
          String.append (titleRepeated (Scoring.title tab))
            (String.append " " text) in
        addDocument combinedText (Scoring.id tab) metadata tfidf
      else
        addDocument (titleRepeated (Scoring.title tab)) (Scoring.id tab)
          metadata tfidf
  end.

(** [buildTFIDFIndex(tabs)]: the index it returns and the text it saves. *)
Definition buildTFIDFIndex (env : PageEnv) (tabs : list Scoring.BrowserTab)
    : TFIDF * Serialized :=
  let tfidf := foldl (indexTab env) empty tabs in
  (tfidf, serialize tfidf).

(** [`${titleRepeated} ${summary} ${keywords.join(' ')}`]. *)
Definition enrichedText (title summary : string) (keywords : list string)
    : string :=
  String.append (titleRepeated title)
    (String.append " " (String.append summary
      (String.append " " (String.concat " " keywords)))).

(** [updateTFIDFIndex(tabId, summary, keywords, title)] and
    [updateTFIDFWithAIData], as a function of the stored index text. The
    result is the stored text afterwards. Without a stored index nothing
    happens. The outer [None] is where [removeDocument] leaves the
    modelled domain. *)
Definition updateTFIDFIndex (tabId : Z) (summary : string)
    (keywords : list string) (title : string) (stored : option Serialized)
    : option (option Serialized) :=
  match stored with
  | None => Some None
  | Some indexData =>
      let tfidf := deserialize indexData in
      match removeDocument tabId tfidf with
      | None => None
      | Some tfidf =>
          let tfidf :=
            addDocument (enrichedText title summary keywords) tabId [] tfidf in
          Some (Some (serialize tfidf))
      end
  end.

End Indexing.

(** ** [predictNextTab] and [getWorkflowStats] of [workflows.js] *)

Module WorkflowPrediction.
Import Workflows.
Local Open Scope Q_scope.

(** An entry of [matchingWorkflows]. *)
Record Matching := {
  m_workflow : string * Workflow;
  m_nextUrl : string;
  m_confidence : Q;
  m_position : nat
}.

(** The body of the loop over the workflows: the first position of the
    current URL in the pattern, when a URL follows it. *)
Definition matchWorkflow (currentUrl : string) (workflow : string * Workflow)
    : option Matching :=
  match list_find (fun url => url = currentUrl) (pattern workflow.2) with
  | Some (currentIndex, _) =>
      if (currentIndex <? length (pattern workflow.2) - 1)%nat then
        match pattern workflow.2 !! (currentIndex + 1)%nat with
        | Some nextUrl =>
            Some {| m_workflow := workflow; m_nextUrl := nextUrl;
                    m_confidence := confidence workflow.2;
                    m_position := currentIndex |}
        | None => None
        end
      else None
  | None => None
  end.

(** The object [predictNextTab] returns; its [reason] text is built from
    the frequency of the workflow and is left out. *)
Record NextTab := {
  n_tab : Db.Tab;
  n_confidence : Q;
  n_workflow : string * Workflow
}.

(** [predictNextTab(currentTabId)], on the tab documents and on the list
    that [db.getAllWorkflows()] returns. *)
Definition predictNextTab (currentTabId : Z) (st : Db.State)
    (workflows : list (string * Workflow)) : option NextTab :=
  match Db.getTabByTabId currentTabId st with
  | None => None
  | Some currentTab =>
      if (length workflows =? 0)%nat then None else
      let matchingWorkflows :=
        omap (matchWorkflow (Db.tab_url currentTab)) workflows in
      if (length matchingWorkflows =? 0)%nat then None else
      let sorted :=
        Js.sort (fun a b => m_confidence b - m_confidence a) matchingWorkflows in
      match head sorted with
      | None => None
      | Some prediction =>
          let allTabs := Db.tabs st in
          match find (fun t => bool_decide (Db.tab_url t = m_nextUrl prediction)
                               && Db.isActive (Db.tab_flags t)) allTabs with
          | Some nextTab =>
              Some {| n_tab := nextTab;
                      n_confidence := m_confidence prediction;
                      n_workflow := m_workflow prediction |}
          | None => None
          end
      end
  end.

Record Stats := {
  totalWorkflows : nat;
  highConfidence : nat;
  mediumConfidence : nat;
  lowConfidence : nat;
  avgFrequency : Q;
  mostFrequent : option (string * Workflow)
}.

(** [getWorkflowStats()], on the list that [db.getAllWorkflows()]
    returns. *)
Definition getWorkflowStats (workflows : list (string * Workflow)) : Stats :=
  {| totalWorkflows := length workflows;
     highConfidence :=
       length (filter (fun w => Qle_bool 0.7 (confidence w.2) = true) workflows);
     mediumConfidence :=
       length (filter (fun w => Qle_bool 0.4 (confidence w.2)
                                && Js.Qltb (confidence w.2) 0.7 = true) workflows);
     lowConfidence :=
       length (filter (fun w => Js.Qltb (confidence w.2) 0.4 = true) workflows);
     avgFrequency :=
       if (0 <? length workflows)%nat
       then inject_Z (Z.of_nat (foldl (fun sum w => (sum + frequency w.2)%nat)
                                  0%nat workflows))
            / inject_Z (Z.of_nat (length workflows))
       else 0;
     mostFrequent :=
       if (0 <? length workflows)%nat
       then head (Js.sort (fun a b => inject_Z (Z.of_nat (frequency b.2)
                                                - Z.of_nat (frequency a.2)))
                    workflows)
       else None |}.

End WorkflowPrediction.

(** ** [fuzzy-search.js] *)

Module FuzzySearch.
Local Open Scope Q_scope.

(** The cells [matrix[i][j]], [j >= 1], of one row of the matrix of
    [levenshteinDistance]: [bc] is [b.charAt(i - 1)], [diag] is
    [matrix[i - 1][j - 1]], [above] holds [matrix[i - 1][j]] onwards and
    [left] is [matrix[i][j - 1]]. *)
Fixpoint fillRow (bc : ascii) (a : list ascii) (diag : nat) (above : list nat)
    (left : nat) : list nat :=
  match a, above with
  | ac :: a', up :: above' =>
      let cell :=
        if Ascii.eqb bc ac then diag
        else Nat.min (Nat.min (diag + 1) (left + 1)) (up + 1) in
      cell :: fillRow bc a' up above' cell
  | _, _ => []
  end.

(** Row [i >= 1] from row [i - 1]; its first cell is [i]. *)
Definition nextRow (i : nat) (bc : ascii) (a : list ascii) (prev : list nat)
    : list nat :=
  match prev with
  | diag :: above => i :: fillRow bc a diag above i
  | [] => [i]
  end.

(** The rows of the matrix from row 0, which is [0, 1, ..., a.length]. *)
Definition lastRow (a b : list ascii) : nat * list nat :=
  foldl (fun acc bc => (S acc.1, nextRow (S acc.1) bc a acc.2))
    (0%nat, seq 0 (length a + 1)) b.

(** [levenshteinDistance(a, b)]: [matrix[b.length][a.length]]. *)
Definition levenshteinDistance (a b : string) : nat :=
  default 0%nat
    (last (lastRow (list_ascii_of_string a) (list_ascii_of_string b)).2).

(** [stringSimilarity(str1, str2)]. *)
Definition stringSimilarity (str1 str2 : string) : Q :=
  let longer :=
    if (String.length str2 <? String.length str1)%nat then str1 else str2 in
  let shorter :=
    if (String.length str2 <? String.length str1)%nat then str2 else str1 in
  if (String.length longer =? 0)%nat then 1 else
  let distance := levenshteinDistance shorter longer in
  inject_Z (Z.of_nat (String.length longer) - Z.of_nat distance)
  / inject_Z (Z.of_nat (String.length longer)).

(** An entry of the search index. *)
Record IndexedTab := {
  it_id : Z;
  it_title : string;
  it_url : string;
  it_domain : string;
  it_favicon : option string;
  it_searchTerms : string
}.

(** [!query || query.trim().length === 0]. *)
Definition isBlank (query : string) : bool :=
  forallb Tfidf.isSpace (list_ascii_of_string query).

(** [search(query, limit)] on the index; [scoreTab] is the scoring method
    of the class. An entry of the result carries its score, or none when
    the query is blank. *)
Definition search (scoreTab : IndexedTab -> string -> Q)
    (index : list IndexedTab) (query : string) (limit : nat)
    : list (IndexedTab * option Q) :=
  if isBlank query then map (fun tab => (tab, None)) (take limit index) else
  let scored :=
    take limit
      (Js.sort (fun a b => b.2 - a.2)
         (filter (fun tab => Js.Qltb 0 tab.2 = true)
            (map (fun tab => (tab, scoreTab tab query)) index))) in
  map (fun tab => (tab.1, Some tab.2)) scored.

End FuzzySearch.

(** ** The keyword fallback of [online-indexing.js] and [cold-start.js] *)

Module ManualMetadata.

Record Extracted := {
  x_keywords : list string;
  x_entities : list string;
  x_topics : list string;
  x_type : string
}.

(** [text.toLowerCase().split(/\s+/)]. *)
Definition wordsOf (text : string) : list string :=
  map string_of_list_ascii
    (Tfidf.splitSpaces (list_ascii_of_string (Js.toLowerCase text)) [] false).

(** [word.length > 3 && !/^\d+$/.test(word)]. *)
Definition isCounted (word : string) : bool :=
  (3 <? String.length word)%nat
  && negb (forallb Tfidf.isDigit (list_ascii_of_string word)).

(** The body of the counting loop. *)
Definition countWord (wordFreq : Js.Map nat) (word : string) : Js.Map nat :=
  if isCounted word
  then Js.mapSet word (default 0%nat (Js.mapGet word wordFreq) + 1)%nat wordFreq
  else wordFreq.

(** [extractManualMetadata(text)]. *)
Definition extractManualMetadata (text : string) : Extracted :=
  let words := wordsOf text in
  let wordFreq := foldl countWord [] words in
  let keywords :=
    map fst
      (take 10
         (Js.sort (fun a b => inject_Z (Z.of_nat b.2 - Z.of_nat a.2)) wordFreq)) in
  {| x_keywords := keywords; x_entities := []; x_topics := [];
     x_type := "other" |}.

End ManualMetadata.

(** ** The overlap signals of [hybrid-scoring.js] *)

Module HybridOverlap.
Import Db Relationships.
Local Open Scope Q_scope.

(** The common body of [calculateEntityOverlap] and
    [calculateTopicOverlap]: the lists read from the tab content, the
    number of common elements that earns the full bonus rate, and the
    largest bonus. *)
Definition overlapOf (proj : TabContent -> list string)
    (perCommon maxBonus : Q) (currentTabId candidateTabId : Z) (st : State)
    : Q :=
  let currentTab := getTabByTabId currentTabId st in
  let candidateTab := getTabByTabId candidateTabId st in
  let currentIndexed := tabIndexed currentTab in
  let candidateIndexed := tabIndexed candidateTab in
  if negb currentIndexed && negb candidateIndexed then 0 else
  let current := loweredSet proj currentTab in
  let candidate := loweredSet proj candidateTab in
  if (length current =? 0)%nat || (length candidate =? 0)%nat then 0 else
  let common := shared current candidate in
  let union := Js.newSet (current ++ candidate) in
  let jaccardScore :=
    inject_Z (Z.of_nat (length common)) / inject_Z (Z.of_nat (length union)) in
  let overlapBonus :=
    Qmin (inject_Z (Z.of_nat (length common)) / perCommon) maxBonus in
  Qmin (jaccardScore + overlapBonus) 1.

(** [calculateEntityOverlap(currentTabId, candidateTabId)]. *)
Definition calculateEntityOverlap (currentTabId candidateTabId : Z) (st : State)
    : Q :=
  overlapOf entities 5 0.5 currentTabId candidateTabId st.

(** [calculateTopicOverlap(currentTabId, candidateTabId)]. *)
Definition calculateTopicOverlap (currentTabId candidateTabId : Z) (st : State)
    : Q :=
  overlapOf topics 3 0.4 currentTabId candidateTabId st.

End HybridOverlap.

(** ** Concrete inputs used by the evaluated statements *)

Module Examples.
Import Db Relationships.
Local Open Scope Q_scope.

Definition mkTab (id : string) (tabId : Z) (url : string)
    (ents : list string) : Tab :=
  {| tab_id := id; tab_tabId := tabId; tab_title := "Notes"; tab_url := url;
     tab_content := Some {| summary := "notes"; keywords := [];
                            entities := ents; topics := [] |};
     tab_flags := {| isActive := true; isIndexed := true |} |}.

(** No language model on this device; every URL parses. *)
Definition envNoModel : Env :=
  {| hostname := fun url => Some url; languageModel := fun _ _ => None |}.

Definition tabA : Tab := mkTab "tab_1_100" 1 "https://a.example/x" ["Rust"].
Definition tabB : Tab := mkTab "tab_2_100" 2 "https://b.example/y" ["rust"].

(** Two open tabs, no relationship yet. *)
Definition twoTabs : State := {| tabs := [tabA; tabB]; relationships := ∅ |}.

(** Three navigations between the two tabs: A to B twice, then B to A. *)
Definition afterFirst : State :=
  createBasicRelationships envNoModel "rel_1000_a" 1000 1 2 "navigation" twoTabs.
Definition afterSecond : State :=
  createBasicRelationships envNoModel "rel_2000_b" 2000 1 2 "navigation" afterFirst.
Definition afterThird : State :=
  createBasicRelationships envNoModel "rel_3000_c" 3000 2 1 "navigation" afterSecond.

(** The relationship of the first navigation, strengthened six times
    through [strengthenRelationship]: strength 0.9, not yet enriched. *)
Definition strongState : State :=
  foldl (fun st now => strengthenRelationship now "rel_1000_a" st) afterFirst
    [2000; 3000; 4000; 5000; 6000; 7000]%Z.

(** Decay inputs: one relationship idle for three weeks at strength 0.3, one
    idle for three weeks at strength 0.2, one accessed a day ago. *)
Definition relAt (s : Q) (accessed : Z) : Relationship :=
  {| tab1Id := "tab_1_100"; tab2Id := "tab_2_100"; strength := s;
     type := "navigation"; createdAt := 0; lastAccessedAt := accessed;
     accessCount := 1%nat;
     metadata := {| commonDomain := false; sharedEntities := [];
                    sharedTopics := []; coOccurrenceScore := 0;
                    semanticScore := None; aiReason := None |};
     flags := {| isAIEnriched := false; needsUpdate := false |} |}.

Definition decayNow : Z := (3 * oneWeek + 1000)%Z.
Definition decayState : State :=
  {| tabs := [];
     relationships := {[ "rel_keep" := relAt 0.3 1000;
                         "rel_drop" := relAt 0.2 1000;
                         "rel_new" := relAt 0.3 (decayNow - 86400000) ]} |}.

End Examples.

Module WorkflowExamples.
Import Workflows.

Definition nav (t : Z) (url : string) : Navigation :=
  {| nav_id := "nav"; timestamp := t;
     fromTab := {| ref_tabId := "tab_0"; ref_url := "https://start.example/" |};
     toTab := {| ref_tabId := "tab_1"; ref_url := url |} |}.

(** The chain A, B walked three times and the chain C, D twice, an hour
    between the walks and a minute between the two steps of a walk. *)
Definition walks : NavState :=
  {| navigation_history :=
       [nav 0 "A"; nav 60000 "B"; nav 3600000 "A"; nav 3660000 "B";
        nav 7200000 "A"; nav 7260000 "B"; nav 10800000 "C"; nav 10860000 "D";
        nav 14400000 "C"; nav 14460000 "D"];
     workflows := ∅ |}.

Definition minedAt : Z := 20000000.

(** The ids generated by a first and by a second mining pass. *)
Definition idsOfPass (pass : string) (n : nat) : string :=
  String.append "workflow_"
    (String.append pass (String (ascii_of_nat (97 + n)) EmptyString)).

Definition afterOnePass : NavState := (detectWorkflows minedAt (idsOfPass "1_") walks).2.
Definition afterTwoPasses : NavState :=
  (detectWorkflows minedAt (idsOfPass "2_") afterOnePass).2.

End WorkflowExamples.

Module TfidfExamples.
Import Tfidf.

(** An index holding one document, and the document added to it under the
    same id. *)
Definition fruitIndex : TFIDF := addDocument "apple banana cherry" 1 [] empty.
Definition greekAdded : TFIDF := addDocument "delta epsilon zeta" 1 [] fruitIndex.

(** The three documents of a small corpus. *)
Definition corpus : TFIDF :=
  addDocument "cherry date egg" 3 []
    (addDocument "banana cherry date" 2 [] fruitIndex).

End TfidfExamples.

(** ** Further concrete inputs *)

Module EnrichExamples.
Import Db Relationships Examples.

(** A tab that is not indexed and has no content yet. *)
Definition tabPlain : Tab :=
  {| tab_id := "tab_3_100"; tab_tabId := 3; tab_title := "Plain";
     tab_url := "https://c.example/z"; tab_content := None;
     tab_flags := {| isActive := true; isIndexed := false |} |}.

(** One navigation from the indexed tab A to the plain tab. *)
Definition mixedState : State :=
  createBasicRelationships envNoModel "rel_5000_x" 5000 1 3 "navigation"
    {| tabs := [tabA; tabPlain]; relationships := ∅ |}.

End EnrichExamples.

Module PredictionExamples.
Import Workflows.
Local Open Scope Q_scope.

(** One stored workflow: from the page of tab A to the page of tab B. *)
Definition storedWorkflows : list (string * Workflow) :=
  [("workflow_1_a",
    {| pattern := ["https://a.example/x"; "https://b.example/y"];
       frequency := 3; lastOccurrence := 7200000; avgInterval := 3540000;
       confidence := 0.3; wf_type := "navigation_sequence" |})].

End PredictionExamples.

Module ScoringExamples.
Import Scoring.
Local Open Scope Q_scope.

(** Three open tabs, and signals that are one half for every candidate. *)
Definition openTab (n : Z) (accessed : Z) : BrowserTab :=
  {| id := n; title := "Page"; url := "https://a.example/";
     lastAccessed := Some accessed; accessCount := Some 4%Z |}.

Definition openTabs : list BrowserTab :=
  [openTab 1 600000; openTab 2 540000; openTab 3 60000].

Definition halfHybrid : HybridSignals :=
  {| h_tfidf := fun _ => 0.5; h_cosine := fun _ => 0.5;
     h_entities := fun _ => 0.5; h_topics := fun _ => 0.5;
     h_relationship := fun _ => 0.5; h_behavioral := fun _ => 0.5 |}.

Definition halfLite : LiteSignals :=
  {| l_bm25 := fun _ => 5; l_cosine := fun _ => 0.5; l_coldStartDone := true;
     l_aiBonus := fun _ => 0.5; l_behavioral := fun _ => 0.5 |}.

End ScoringExamples.

(** ** The vocabulary of the statements *)

Module RelationshipsSpec.
Import Db Relationships.
Local Open Scope Q_scope.

(** What the sweep does to one stored relationship. *)
Definition decayOutcome (now : Z) (rel : Relationship) : option Relationship :=
  if (oneWeek <? now - lastAccessedAt rel)%Z then
    if Js.Qltb (decayedStrength now rel) 0.1 then None
    else Some (setStrength (decayedStrength now rel) rel)
  else Some rel.

(** Every stored relationship has strength at least 0.1. *)
Definition strengthFloor (st : State) : Prop :=
  forall k r, relationships st !! k = Some r -> 0.1 <= strength r.

(** The states of the two stores that the operations of the module reach
    from a store without relationships, the tab documents changing freely
    in between. *)
Inductive reachableStore (env : Env) : State -> Prop :=
  | reach_start ts :
      reachableStore env {| tabs := ts; relationships := ∅ |}
  | reach_tabs st ts :
      reachableStore env st ->
      reachableStore env {| tabs := ts; relationships := relationships st |}
  | reach_create freshId now a b reason st :
      reachableStore env st ->
      reachableStore env
        (createBasicRelationships env freshId now a b reason st)
  | reach_strengthen now id st :
      reachableStore env st ->
      reachableStore env (strengthenRelationship now id st)
  | reach_enrich st :
      reachableStore env st ->
      reachableStore env (enrichRelationshipsWithAI env st)
  | reach_decay now st :
      reachableStore env st ->
      reachableStore env (applyRelationshipDecay now st).

End RelationshipsSpec.

Module WorkflowsSpec.
Import Js Workflows.

(** The number of candidate sequences with a given URL chain. *)
Definition occurrenceCount (key : string) (sequences : list Sequence) : nat :=
  length (filter (fun s => chainKey (urlsOf s) = key) sequences).

(** What one more sequence makes of the entry of its key. *)
Definition bump (s : Sequence) (entry : option Group) : Group :=
  let occ := {| occ_startTime := startTime s; occ_endTime := endTime s |} in
  match entry with
  | Some e => {| g_pattern := g_pattern e;
                 g_occurrences := g_occurrences e ++ [occ];
                 g_frequency := S (g_frequency e) |}
  | None => {| g_pattern := urlsOf s; g_occurrences := [] ++ [occ];
               g_frequency := 1 |}
  end.

(** The entry of a key after the grouping loop: absent when no sequence has
    the key, and otherwise counting its sequences, under a pattern that
    joins to the key. *)
Definition groupOf (key : string) (sequences : list Sequence)
    (entry : option Group) : Prop :=
  match entry with
  | None => occurrenceCount key sequences = 0%nat
  | Some g =>
      g_frequency g = occurrenceCount key sequences
      /\ (0 < g_frequency g)%nat
      /\ length (g_occurrences g) = g_frequency g
      /\ chainKey (g_pattern g) = key
  end.

End WorkflowsSpec.

Module ScoringSpec.
Import Scoring.
Local Open Scope Q_scope.

(** [a] is ranked no later than [b]: a higher score, or an equal score and
    a tab id that is not larger. *)
Definition ranksBefore (a b : Scored) : Prop :=
  score b < score a
  \/ (score a == score b /\ (id (candidate a) <= id (candidate b))%Z).

(** What [sort] then [slice(0, 10)] make of the scored candidates: a list
    sorted by [ranksBefore], of at most ten, that together with the
    candidates left out is the whole input, each of them ranked no earlier
    than every one kept. *)
Definition topTenOf (scored out : list Scored) : Prop :=
  StronglySorted ranksBefore out
  /\ length out = Nat.min 10 (length scored)
  /\ exists rest, out ++ rest ≡ₚ scored
       /\ Forall (fun a => Forall (ranksBefore a) rest) out.

End ScoringSpec.

Module TfidfSpec.
Import Tfidf.

(** The number of stored records whose term list has [t]. *)
Definition docCount (t : string) (recs : list TermFreqRecord) : nat :=
  length (filter (fun d => t ∈ terms d) recs).

(** A count as the document-frequency map holds it: no entry for zero. *)
Definition countOpt (n : nat) : option nat :=
  match n with
  | O => None
  | S _ => Some n
  end.

(** An index is well formed when its two arrays run in parallel, every
    record counts its own term list, and the document frequency of a term
    is the number of records that have it. *)
Record wf_index (x : TFIDF) : Prop := {
  wf_ids : doc_id <$> documents x = tf_id <$> termFreqs x;
  wf_records :
    Forall (fun d => termFreq d = foldl countTerm ∅ (terms d)
                     /\ totalTerms d = length (terms d)) (termFreqs x);
  wf_documentFreq :
    forall t, documentFreq x !! t = countOpt (docCount t (termFreqs x))
}.

(** The indexes built from the empty one by the operations of the class. *)
Inductive reachable : TFIDF -> Prop :=
  | reach_empty : reachable empty
  | reach_add text id metadata x :
      reachable x -> reachable (addDocument text id metadata x)
  | reach_remove id x x' :
      reachable x -> removeDocument id x = Some x' -> reachable x'
  | reach_load x :
      reachable x -> reachable (deserialize (serialize x)).

(** The count of one term after the loop of [removeDocument] passed it. *)
Definition droppedCount (freq : option nat) : option nat :=
  match freq with
  | Some f => if (f <=? 1)%nat then None else Some (f - 1)%nat
  | None => None
  end.

(** The number of occurrences of a term among tokens. *)
Definition occurrences (t : string) (tokens : list string) : nat :=
  length (filter (fun token => token = t) tokens).

Local Open Scope R_scope.

(** The formula of the score, written from its description: the inverse
    document frequency of a term and what the term adds to the score. *)
Definition idfSpec (N df : nat) : R :=
  ln ((INR N - INR df + 0.5) / (INR df + 0.5) + 1).

Definition bm25TermSpec (N df tf docLen : nat) (avgDocLen k1 b : R) : R :=
  idfSpec N df * (INR tf * (k1 + 1))
  / (INR tf + k1 * (1 - b + b * (INR docLen / avgDocLen))).

(** The average length of the stored records. *)
Definition averageLength (x : TFIDF) : R :=
  INR (sum_list (totalTerms <$> termFreqs x)) / INR (length (documents x)).

(** The sum of a list of reals. *)
Definition Rsum (l : list R) : R := foldr Rplus 0 l.

(** What a query term contributes for a record: nothing when the record
    does not have the term. *)
Definition contribution (x : TFIDF) (doc : TermFreqRecord) (k1 b : R)
    (term : string) : R :=
  match termFreq doc !! term with
  | Some (S n) =>
      bm25TermSpec (length (documents x)) (getOr0 (documentFreq x) term)
        (S n) (totalTerms doc) (averageLength x) k1 b
  | _ => 0
  end.

End TfidfSpec.

(** ** The vocabulary of the further statements *)

Module TokenSpec.
Import Tfidf.

(** The code units a token is made of: lower-case letters, digits, the
    underscore, the apostrophe and the hyphen. *)
Definition isTokenChar (c : ascii) : bool :=
  let n := N_of_ascii c in
  (((97 <=? n) && (n <=? 122)) || ((48 <=? n) && (n <=? 57))
   || (n =? 95) || (n =? 39) || (n =? 45))%N.

(** A token as [tokenize] returns it. *)
Definition wellFormedToken (token : string) : Prop :=
  let cs := list_ascii_of_string token in
  (2 < length cs)%nat
  /\ forallb isDigit cs = false
  /\ forallb isTokenChar cs = true
  /\ (forall c, head cs = Some c -> isHyphenOrApostrophe c = false)
  /\ (forall c, last cs = Some c -> isHyphenOrApostrophe c = false).

End TokenSpec.

Module IndexingSpec.
Import Tfidf.

(** The ids of the stored documents, in order. *)
Definition documentIds (x : TFIDF) : list Z := doc_id <$> documents x.

End IndexingSpec.

Module EnrichSpec.
Import Db Relationships.
Local Open Scope Q_scope.

(** What the loop body of [enrichRelationshipsWithAI] leaves of a stored
    relationship, given the tab documents: the body is run on a store that
    holds this relationship only, and the record is read back. *)
Definition enrichOutcome (env : Env) (ts : list Tab) (rel : Relationship)
    : option Relationship :=
  relationships
    (enrichOne env (EmptyString, rel)
       {| tabs := ts; relationships := {[ EmptyString := rel ]} |})
  !! EmptyString.

(** What a sweep leaves of it: enriched relationships are not visited. *)
Definition sweepOutcome (env : Env) (ts : list Tab) (rel : Relationship)
    : option Relationship :=
  if isAIEnriched (flags rel) then Some rel else enrichOutcome env ts rel.

(** The semantic analysis the loop body obtains for two tab documents. *)
Definition semanticOf (env : Env) (tab1 tab2 : option Tab)
    : option SemanticAnalysis :=
  if tabIndexed tab1 && tabIndexed tab2 then
    match tab1, tab2 with
    | Some t1, Some t2 => analyzeSemanticRelationship env t1 t2
    | _, _ => None
    end
  else None.

End EnrichSpec.

Module BoundsSpec.
Import Db Relationships.
Local Open Scope Q_scope.

(** The bounds that every stored relationship keeps: a strength from 0.1
    to 1.3, at most 1 until the relationship is enriched, and at least one
    access. *)
Definition withinBounds (r : Relationship) : Prop :=
  0.1 <= strength r /\ strength r <= 1.3
  /\ (isAIEnriched (flags r) = false -> strength r <= 1)
  /\ (1 <= accessCount r)%nat.

End BoundsSpec.

Module SequenceSpec.
Import Workflows.

(** Consecutive times that do not decrease and are at most [limit] apart. *)
Definition stepsWithin (limit : Z) (times : list Z) : Prop :=
  forall i a b, times !! i = Some a -> times !! S i = Some b ->
    (a <= b <= a + limit)%Z.

(** The first position of a URL in a pattern. *)
Definition firstPosition (url : string) (urls : list string) (i : nat) : Prop :=
  urls !! i = Some url /\ forall j, (j < i)%nat -> urls !! j <> Some url.

End SequenceSpec.

Module SignalSpec.
Import Scoring.
Local Open Scope Q_scope.

(** The six signals of the hybrid score lie between 0 and 1 for a
    candidate. *)
Definition hybridSignalsInRange (sig : HybridSignals) (c : BrowserTab) : Prop :=
  0 <= h_tfidf sig c <= 1 /\ 0 <= h_cosine sig c <= 1
  /\ 0 <= h_entities sig c <= 1 /\ 0 <= h_topics sig c <= 1
  /\ 0 <= h_relationship sig c <= 1 /\ 0 <= h_behavioral sig c <= 1.

(** The signals of the lite score that come from the index and the stores:
    a BM25 score that is not negative, the others between 0 and 1. *)
Definition liteSignalsInRange (sig : LiteSignals) (c : BrowserTab) : Prop :=
  0 <= l_bm25 sig c /\ 0 <= l_cosine sig c <= 1
  /\ 0 <= l_aiBonus sig c <= 1 /\ 0 <= l_behavioral sig c <= 1.

(** The times of a candidate: accessed no later than now, a count that is
    not negative. *)
Definition plausibleTimes (now : Z) (c : BrowserTab) : Prop :=
  (0 <= now)%Z
  /\ (forall t, lastAccessed c = Some t -> (t <= now)%Z)
  /\ (forall n, accessCount c = Some n -> (0 <= n)%Z).

End SignalSpec.

Module SearchSpec.
Import FuzzySearch.
Local Open Scope Q_scope.

(** The score a result carries; 0 for a result without one. *)
Definition scoreOf (result : IndexedTab * option Q) : Q := default 0 result.2.

End SearchSpec.

Module DecaySpec.
Import Db Relationships.

(** Decay sweeps run one after the other at the given times. *)
Definition sweeps (times : list Z) (st : State) : State :=
  foldl (fun acc now => applyRelationshipDecay now acc) st times.

End DecaySpec.

(** * Properties

    ** The helpers *)

Module JsFacts.
Import Js.

Lemma Qltb_lt a b : Qltb a b = true <-> (a < b)%Q.
Proof.
  unfold Qltb. rewrite negb_true_iff. split.
  - intros H. apply Qnot_le_lt. intros Hle.
    apply Qle_bool_iff in Hle. congruence.
  - intros H. destruct (Qle_bool b a) eqn:E; [|done].
    apply Qle_bool_iff in E. exfalso. exact (Qlt_not_le _ _ H E).
Qed.

Lemma Qltb_ge a b : Qltb a b = false <-> (b <= a)%Q.
Proof.
  unfold Qltb. rewrite negb_false_iff. apply Qle_bool_iff.
Qed.

Lemma setAdd_elem acc x y : y ∈ setAdd acc x <-> y ∈ acc \/ y = x.
Proof.
  unfold setAdd. case_decide.
  - split; [auto|]. intros [?| ->]; done.
  - rewrite elem_of_app, list_elem_of_singleton. done.
Qed.

Lemma setAdd_NoDup acc x : NoDup acc -> NoDup (setAdd acc x).
Proof.
  intros Hnd. unfold setAdd. case_decide; [done|].
  apply NoDup_app. split_and!; [done| |apply NoDup_singleton].
  intros y Hy Hy'. apply list_elem_of_singleton in Hy'. by subst.
Qed.

Lemma foldl_setAdd_elem xs acc y :
  y ∈ foldl setAdd acc xs <-> y ∈ acc \/ y ∈ xs.
Proof.
  revert acc. induction xs as [|x xs IH]; intros acc; simpl.
  - rewrite elem_of_nil. tauto.
  - rewrite IH, setAdd_elem, elem_of_cons. tauto.
Qed.

Lemma foldl_setAdd_NoDup xs acc : NoDup acc -> NoDup (foldl setAdd acc xs).
Proof.
  revert acc. induction xs as [|x xs IH]; intros acc Hnd; simpl; [done|].
  apply IH. by apply setAdd_NoDup.
Qed.

Lemma newSet_elem xs y : y ∈ newSet xs <-> y ∈ xs.
Proof.
  unfold newSet. rewrite foldl_setAdd_elem, elem_of_nil. tauto.
Qed.

Lemma newSet_NoDup xs : NoDup (newSet xs).
Proof. apply foldl_setAdd_NoDup, NoDup_nil_2. Qed.

(** *** The association-list [Map] *)

Lemma mapGet_mapSet_eq {V} key (v : V) m : mapGet key (mapSet key v m) = Some v.
Proof.
  induction m as [|[k v'] rest IH]; simpl.
  - by rewrite String.eqb_refl.
  - destruct (String.eqb k key) eqn:E; simpl; rewrite E; done.
Qed.

Lemma mapGet_mapSet_ne {V} key key' (v : V) m :
  key <> key' -> mapGet key' (mapSet key v m) = mapGet key' m.
Proof.
  intros Hne. induction m as [|[k v'] rest IH]; simpl.
  - destruct (String.eqb key key') eqn:E; [|done].
    apply String.eqb_eq in E. done.
  - destruct (String.eqb k key) eqn:E; simpl.
    + apply String.eqb_eq in E. subst k.
      destruct (String.eqb key key') eqn:E'; [|done].
      apply String.eqb_eq in E'. done.
    + by rewrite IH.
Qed.

Lemma mapGet_elem {V} key (v : V) m : mapGet key m = Some v -> (key, v) ∈ m.
Proof.
  induction m as [|[k v'] rest IH]; simpl; [done|].
  destruct (String.eqb k key) eqn:E.
  - apply String.eqb_eq in E. intros [= ->]. subst. left.
  - intros H. right. by apply IH.
Qed.

Lemma elem_mapGet {V} key (v : V) m :
  (key, v) ∈ m -> exists v', mapGet key m = Some v'.
Proof.
  induction m as [|[k v'] rest IH]; simpl.
  - by intros ?%elem_of_nil.
  - intros [[= <- <-]|Hin]%elem_of_cons.
    + rewrite String.eqb_refl. eauto.
    + destruct (String.eqb k key); eauto.
Qed.

Lemma mapSet_keys_elem {V} key (v : V) m k :
  k ∈ (mapSet key v m).*1 <-> k = key \/ k ∈ m.*1.
Proof.
  induction m as [|[k' v'] rest IH]; simpl.
  - rewrite list_elem_of_singleton, elem_of_nil. tauto.
  - destruct (String.eqb k' key) eqn:E; simpl.
    + apply String.eqb_eq in E. subst k'. rewrite !elem_of_cons. tauto.
    + rewrite !elem_of_cons, IH. tauto.
Qed.

Lemma mapSet_keys {V} key (v : V) m : NoDup m.*1 -> NoDup (mapSet key v m).*1.
Proof.
  induction m as [|[k' v'] rest IH]; simpl; intros Hnd.
  - apply NoDup_singleton.
  - apply NoDup_cons in Hnd as [Hk Hnd].
    destruct (String.eqb k' key) eqn:E; simpl.
    + by apply NoDup_cons.
    + apply NoDup_cons. split; [|by apply IH].
      rewrite mapSet_keys_elem. intros [->|?]; [|done].
      by rewrite String.eqb_refl in E.
Qed.

Lemma elem_mapGet_NoDup {V} key (v : V) m :
  NoDup m.*1 -> (key, v) ∈ m -> mapGet key m = Some v.
Proof.
  induction m as [|[k v'] rest IH]; simpl; intros Hnd.
  - by intros ?%elem_of_nil.
  - apply NoDup_cons in Hnd as [Hk Hnd].
    intros [[= <- <-]|Hin]%elem_of_cons.
    + by rewrite String.eqb_refl.
    + destruct (String.eqb k key) eqn:E; [|by apply IH].
      apply String.eqb_eq in E. subst k. exfalso. apply Hk.
      apply list_elem_of_fmap. by exists (key, v).
Qed.

(** *** [sort] *)

Lemma insertBy_Permutation {A} (cmp : A -> A -> Q) x l :
  insertBy cmp x l ≡ₚ x :: l.
Proof.
  induction l as [|y l IH]; simpl; [done|].
  destruct (Qle_bool (cmp x y) 0); [done|].
  rewrite IH. apply Permutation_swap.
Qed.

Lemma sort_Permutation {A} (cmp : A -> A -> Q) l : sort cmp l ≡ₚ l.
Proof.
  induction l as [|x l IH]; simpl; [done|].
  unfold sort in *. simpl. rewrite insertBy_Permutation. by rewrite IH.
Qed.

Lemma sort_length {A} (cmp : A -> A -> Q) l : length (sort cmp l) = length l.
Proof. apply Permutation_length, sort_Permutation. Qed.

Lemma sort_elem {A} (cmp : A -> A -> Q) l x : x ∈ sort cmp l <-> x ∈ l.
Proof. by rewrite sort_Permutation. Qed.

Lemma StronglySorted_weaken {A} (R R' : A -> A -> Prop) l :
  (forall a b, R a b -> R' a b) -> StronglySorted R l -> StronglySorted R' l.
Proof.
  intros Himp. induction 1 as [|a l Hs IH Hall]; constructor; [done|].
  eapply Forall_impl; [exact Hall|]. intros b. apply Himp.
Qed.

(** For a comparator whose "not after" relation is total and transitive,
    the result is sorted: each element is not after any later one. *)
Section sorted.
Context {A : Type} (cmp : A -> A -> Q).
Hypothesis notAfter_total :
  forall a b, notAfter cmp a b \/ notAfter cmp b a.
Hypothesis notAfter_trans :
  forall a b c, notAfter cmp a b -> notAfter cmp b c -> notAfter cmp a c.

Lemma insertBy_sorted x l :
  StronglySorted (notAfter cmp) l ->
  StronglySorted (notAfter cmp) (insertBy cmp x l).
Proof using notAfter_total notAfter_trans.
  induction l as [|y l IH]; simpl; intros Hs.
  - repeat constructor.
  - apply StronglySorted_inv in Hs as [Hs Hall].
    destruct (Qle_bool (cmp x y) 0) eqn:E.
    + apply Qle_bool_iff in E. constructor.
      * by constructor.
      * constructor; [done|].
        eapply Forall_impl; [exact Hall|]. intros z Hz. simpl in Hz.
        by apply (notAfter_trans x y z).
    + assert (Hyx : notAfter cmp y x).
      { destruct (notAfter_total x y) as [H|H]; [|done].
        apply Qle_bool_iff in H. congruence. }
      constructor; [by apply IH|].
      rewrite insertBy_Permutation. by constructor.
Qed.

Lemma sort_sorted l : StronglySorted (notAfter cmp) (sort cmp l).
Proof using notAfter_total notAfter_trans.
  induction l as [|x l IH]; [constructor|].
  unfold sort in *. simpl. by apply insertBy_sorted.
Qed.

End sorted.

End JsFacts.

(** ** The relationship graph *)

Module RelationshipsFacts.
Import Db Relationships RelationshipsSpec Examples.
Local Open Scope Q_scope.

(** *** Enrichment *)

(** When the semantic analysis ran, the strength is the capped sum. *)
Lemma finalStrength_semantic rel j a :
  finalStrength rel j (Some a)
    = Qmin (strength rel + j * 0.3 + sa_semanticScore a * 0.4) 1
  /\ finalStrength rel j (Some a) <= 1.
Proof. split; [reflexivity|]. unfold finalStrength. apply Q.le_min_r. Qed.

(** When it did not, the Jaccard boost is added without a cap. *)
Lemma finalStrength_no_semantic rel j :
  finalStrength rel j None = strength rel + j * 0.3.
Proof. reflexivity. Qed.

(** C1, at the input where the claim fails: two indexed tabs sharing their
    one entity, their relationship strengthened to 0.9, and no language
    model, so that no semantic score is obtained.
    [enrichRelationshipsWithAI] writes back 0.9 + 0.5 * 0.3 = 1.05, which is
    above 1 and is not [min(0.9 + 0.5*0.3 + 0*0.4, 1)]. *)
Theorem enrich_writes_strength_above_one :
  exists r0 r,
    relationships strongState !! "rel_1000_a" = Some r0
    /\ strength r0 == 0.9
    /\ isAIEnriched (flags r0) = false
    /\ relationships (enrichRelationshipsWithAI envNoModel strongState)
         !! "rel_1000_a" = Some r
    /\ coOccurrenceScore (metadata r) == 0.5
    /\ semanticScore (metadata r) = Some 0
    /\ strength r == 1.05
    /\ 1 < strength r
    /\ ~ strength r == Qmin (0.9 + 0.5 * 0.3 + 0 * 0.4) 1.
Proof.
  do 2 eexists. split; [vm_compute; reflexivity|].
  split; [reflexivity|]. split; [reflexivity|].
  split; [vm_compute; reflexivity|]. simpl.
  repeat split; try reflexivity.
  intros H. vm_compute in H. discriminate.
Qed.

(** *** Creation *)

(** Whenever no relationship is stored under the id of the first tab (ids
    of tabs start with [tab_], ids of relationships with [rel_]), the call
    adds a record, whatever relationships the pair already has. *)
Lemma createBasicRelationships_adds env freshId now a b reason st t1 t2 h1 h2 :
  getTabByTabId a st = Some t1 ->
  getTabByTabId b st = Some t2 ->
  relationships st !! tab_id t1 = None ->
  hostname env (tab_url t1) = Some h1 ->
  hostname env (tab_url t2) = Some h2 ->
  relationships st !! freshId = None ->
  relationships (createBasicRelationships env freshId now a b reason st)
    = <[freshId := basicRelationship now reason t1 t2 (bool_decide (h1 = h2))]>
        (relationships st).
Proof.
  intros Ha Hb Hex Hh1 Hh2 Hfresh. unfold createBasicRelationships.
  rewrite Ha, Hb. unfold getRelationship. rewrite Hex, Hh1, Hh2.
  unfold addRelationship. rewrite Hfresh. reflexivity.
Qed.

(** C2, at the input where the claim fails: after a first navigation from
    tab A to tab B, a second one and then one from B to A each insert one
    more record for the pair; the first record keeps strength 0.3, access
    count 1 and its last-accessed time. *)
Theorem createBasicRelationships_inserts_duplicates :
  exists r1 r2 r3,
    relationships afterThird
      = {[ "rel_1000_a" := r1; "rel_2000_b" := r2; "rel_3000_c" := r3 ]}
    /\ relationships afterFirst = {[ "rel_1000_a" := r1 ]}
    /\ (tab1Id r1, tab2Id r1) = ("tab_1_100", "tab_2_100")
    /\ (tab1Id r2, tab2Id r2) = ("tab_1_100", "tab_2_100")
    /\ (tab1Id r3, tab2Id r3) = ("tab_2_100", "tab_1_100")
    /\ strength r1 = 0.3 /\ accessCount r1 = 1%nat /\ lastAccessedAt r1 = 1000%Z
    /\ strength r2 = 0.3 /\ strength r3 = 0.3.
Proof.
  do 3 eexists. split; [|split].
  - apply map_eq. intros k. vm_compute. reflexivity.
  - vm_compute. reflexivity.
  - repeat split.
Qed.

(** *** Decay *)

Lemma decayLoop_lookup now rels st :
  NoDup rels.*1 ->
  (forall id rel, (id, rel) ∈ rels -> relationships st !! id = Some rel) ->
  tabs (decayLoop now rels st) = tabs st
  /\ forall k,
       relationships (decayLoop now rels st) !! k
       = match (list_to_map rels : gmap string Relationship) !! k with
         | Some rel => decayOutcome now rel
         | None => relationships st !! k
         end.
Proof.
  revert st. induction rels as [|[id rel] rest IH]; intros st Hnd Hin.
  - split; [done|]. intros k. simpl. by rewrite lookup_empty.
  - apply NoDup_cons in Hnd as [Hid Hnd].
    assert (Hrest : (list_to_map rest : gmap string Relationship) !! id = None)
      by (by apply not_elem_of_list_to_map_1).
    assert (Hhere : relationships st !! id = Some rel)
      by (apply Hin; left).
    assert (Hkeep : forall m : gmap string Relationship,
              (forall k, k <> id -> m !! k = relationships st !! k) ->
              forall id' rel', (id', rel') ∈ rest -> m !! id' = Some rel').
    { intros m Hm id' rel' Hel. rewrite Hm.
      - apply Hin. by right.
      - intros ->. apply Hid. apply list_elem_of_fmap. by exists (id, rel'). }
    cbn [decayLoop list_to_map foldr].
    destruct (oneWeek <? now - lastAccessedAt rel)%Z eqn:Hage.
    + destruct (Js.Qltb (decayedStrength now rel) 0.1) eqn:Hlow.
      * destruct (IH (deleteRelationship id st) Hnd) as [Ht Hl].
        { apply Hkeep. intros k Hk. simpl. by rewrite lookup_delete_ne. }
        split; [done|]. intros k. rewrite Hl.
        destruct (decide (k = id)) as [->|Hne].
        -- rewrite Hrest, lookup_insert_eq. unfold decayOutcome. cbn [snd].
           rewrite Hage, Hlow. simpl. by rewrite lookup_delete_eq.
        -- rewrite lookup_insert_ne by done. simpl.
           by rewrite lookup_delete_ne.
      * unfold updateRelationship. rewrite Hhere.
        match goal with |- context [decayLoop now rest ?s] =>
          destruct (IH s Hnd) as [Ht Hl] end.
        { apply Hkeep. intros k Hk. simpl. by rewrite lookup_insert_ne. }
        split; [done|]. intros k. rewrite Hl.
        destruct (decide (k = id)) as [->|Hne].
        -- rewrite Hrest, lookup_insert_eq. unfold decayOutcome. cbn [snd].
           rewrite Hage, Hlow. simpl. by rewrite lookup_insert_eq.
        -- rewrite lookup_insert_ne by done. simpl.
           by rewrite lookup_insert_ne.
    + destruct (IH st Hnd) as [Ht Hl].
      { apply Hkeep. done. }
      split; [done|]. intros k. rewrite Hl.
      destruct (decide (k = id)) as [->|Hne].
      * rewrite Hrest, lookup_insert_eq. unfold decayOutcome. cbn [snd].
        by rewrite Hage.
      * by rewrite lookup_insert_ne.
Qed.

(** The sweep is the pointwise [decayOutcome] on the store. *)
Lemma applyRelationshipDecay_omap now st :
  applyRelationshipDecay now st
  = withRelationships st (omap (decayOutcome now) (relationships st)).
Proof.
  unfold applyRelationshipDecay, getAllRelationships.
  destruct (decayLoop_lookup now (map_to_list (relationships st)) st)
    as [Ht Hl].
  - apply NoDup_fst_map_to_list.
  - intros id rel. apply elem_of_map_to_list.
  - destruct (decayLoop now (map_to_list (relationships st)) st)
      as [ts rs] eqn:E.
    simpl in Ht, Hl. unfold withRelationships. f_equal; [done|].
    apply map_eq. intros k. rewrite Hl, list_to_map_to_list, lookup_omap.
    by destruct (relationships st !! k).
Qed.

Lemma decayedStrength_nonneg now rel : 0 <= decayedStrength now rel.
Proof. unfold decayedStrength. apply Q.le_max_r. Qed.



(** The bound is an invariant of the sweep: a store whose relationships all
    have strength at least 0.1 is mapped to such a store. *)
Lemma applyRelationshipDecay_invariant now st :
  (forall k r, relationships st !! k = Some r -> 0.1 <= strength r) ->
  forall k r', relationships (applyRelationshipDecay now st) !! k = Some r' ->
    0.1 <= strength r'.
Proof.
  intros Hinv k r' Hk. rewrite applyRelationshipDecay_omap in Hk.
  simpl in Hk. rewrite lookup_omap in Hk.
  destruct (relationships st !! k) as [r|] eqn:Hr; [|done]. simpl in Hk.
  unfold decayOutcome in Hk.
  destruct (oneWeek <? now - lastAccessedAt r)%Z.
  - destruct (Js.Qltb (decayedStrength now r) 0.1) eqn:Hlow; [done|].
    injection Hk as <-. simpl. by apply JsFacts.Qltb_ge.
  - injection Hk as <-. by apply (Hinv k).
Qed.

(** *** The floor on every reachable store *)

Lemma strengthFloor_insert st k r :
  strengthFloor st -> 0.1 <= strength r ->
  strengthFloor (withRelationships st (<[k := r]> (relationships st))).
Proof.
  intros Hst Hr k' r'. simpl. destruct (decide (k = k')) as [->|Hne].
  - rewrite lookup_insert_eq. by intros [= <-].
  - rewrite lookup_insert_ne by done. apply Hst.
Qed.

Lemma strengthFloor_delete st k :
  strengthFloor st -> strengthFloor (deleteRelationship k st).
Proof.
  intros Hst k' r'. simpl. intros [_ Hk]%lookup_delete_Some. by apply (Hst k').
Qed.

Lemma strengthFloor_strengthen now id st :
  strengthFloor st -> strengthFloor (strengthenRelationship now id st).
Proof.
  intros Hst. unfold strengthenRelationship, getRelationship, updateRelationship.
  destruct (relationships st !! id) as [rel|] eqn:E; [|done].
  apply strengthFloor_insert; [done|]. simpl.
  apply Q.min_glb; [|done]. specialize (Hst id rel E). Lqa.lra.
Qed.

Lemma strengthFloor_create env freshId now a b reason st :
  strengthFloor st ->
  strengthFloor (createBasicRelationships env freshId now a b reason st).
Proof.
  intros Hst. unfold createBasicRelationships.
  destruct (getTabByTabId a st) as [t1|]; [|done].
  destruct (getTabByTabId b st) as [t2|]; [|done].
  destruct (getRelationship (tab_id t1) st);
    [by apply strengthFloor_strengthen|].
  destruct (hostname env (tab_url t1)); [|done].
  destruct (hostname env (tab_url t2)); [|done].
  unfold addRelationship. destruct (relationships st !! freshId); [done|].
  apply strengthFloor_insert; [done|]. simpl. done.
Qed.

Lemma overlapScore_nonneg s1 s2 : 0 <= overlapScore s1 s2.
Proof.
  unfold overlapScore. destruct (0 <? length _)%nat eqn:E; [|done].
  apply Nat.ltb_lt in E. apply Qle_shift_div_l.
  - unfold Qlt. simpl. lia.
  - rewrite Qmult_0_l. unfold Qle. simpl. lia.
Qed.

Lemma scoreOrZero_nonneg env t1 t2 :
  0 <= scoreOrZero (analyzeSemanticRelationship env t1 t2).
Proof.
  unfold analyzeSemanticRelationship.
  destruct (tab_content t1), (tab_content t2); try done.
  destruct (languageModel env t1 t2) as [reply|]; [|done]. simpl.
  destruct (raw_score reply); [|done].
  apply Q.min_glb; [apply Q.le_max_r|done].
Qed.

Lemma finalStrength_floor rel j sa :
  0.1 <= strength rel -> 0 <= j -> 0 <= scoreOrZero sa ->
  0.1 <= finalStrength rel j sa.
Proof.
  intros Hs Hj Hsa. unfold finalStrength. destruct sa as [a|]; simpl in *.
  - apply Q.min_glb; [|done]. Lqa.nra.
  - Lqa.nra.
Qed.

Lemma strengthFloor_enrichOne env id rel st :
  0.1 <= strength rel -> strengthFloor st ->
  strengthFloor (enrichOne env (id, rel) st).
Proof.
  intros Hrel Hst. unfold enrichOne.
  destruct (negb _ && negb _); [done|].
  match goal with |- context [if ?c then deleteRelationship _ _ else _] =>
    destruct c end; [by apply strengthFloor_delete|].
  unfold updateRelationship.
  destruct (relationships st !! id) as [stored|]; [|done].
  apply strengthFloor_insert; [done|]. cbn [strength enrichUpdate].
  apply finalStrength_floor; [done| |].
  - apply Qle_shift_div_l; [done|]. rewrite Qmult_0_l.
    pose proof (overlapScore_nonneg
      (loweredSet entities (getTab (tab1Id rel) st))
      (loweredSet entities (getTab (tab2Id rel) st))).
    pose proof (overlapScore_nonneg
      (loweredSet topics (getTab (tab1Id rel) st))
      (loweredSet topics (getTab (tab2Id rel) st))).
    Lqa.lra.
  - destruct (tabIndexed _ && tabIndexed _); [|done].
    destruct (getTab (tab1Id rel) st) as [t1|]; [|done].
    destruct (getTab (tab2Id rel) st) as [t2|]; [|done].
    apply scoreOrZero_nonneg.
Qed.

Lemma strengthFloor_enrich env st :
  strengthFloor st -> strengthFloor (enrichRelationshipsWithAI env st).
Proof.
  intros Hst. unfold enrichRelationshipsWithAI.
  assert (Hall : Forall (fun entry : string * Relationship =>
                           0.1 <= strength entry.2)
                   (filter (fun r => isAIEnriched (flags r.2) = false)
                      (getAllRelationships st))).
  { apply Forall_forall. intros [k r] [_ Hin]%list_elem_of_filter.
    apply elem_of_map_to_list in Hin. by apply (Hst k). }
  revert Hall. generalize (filter (fun r => isAIEnriched (flags r.2) = false)
                             (getAllRelationships st)).
  intros entries Hall. revert st Hst.
  induction Hall as [|[k r] entries Hr Hall IH]; intros st Hst; [done|].
  simpl. apply IH. by apply strengthFloor_enrichOne.
Qed.

(** Every store the module reaches keeps its relationships at strength 0.1
    or more: after a decay sweep, and at any other time. *)
Lemma reachableStore_strengthFloor env st :
  reachableStore env st -> strengthFloor st.
Proof.
  induction 1 as [ts|st ts _ IH|freshId now a b reason st _ IH
                  |now id st _ IH|st _ IH|now st _ IH].
  - intros k r. simpl. by rewrite lookup_empty.
  - exact IH.
  - by apply strengthFloor_create.
  - by apply strengthFloor_strengthen.
  - by apply strengthFloor_enrich.
  - intros k r'. by apply applyRelationshipDecay_invariant.
Qed.

End RelationshipsFacts.

(** ** Further properties of the relationship graph *)

Module EnrichFacts.
Import Js JsFacts Db Relationships RelationshipsSpec EnrichSpec BoundsSpec
  Examples EnrichExamples RelationshipsFacts.
Local Open Scope Q_scope.

Lemma enrichOne_lookup env id rel st :
  relationships st !! id = Some rel ->
  tabs (enrichOne env (id, rel) st) = tabs st
  /\ forall k,
       relationships (enrichOne env (id, rel) st) !! k
       = if decide (k = id) then enrichOutcome env (tabs st) rel
         else relationships st !! k.
Proof.
  intros Hhere. unfold enrichOutcome, enrichOne, getTab. cbn [tabs].
  cbv zeta.
  match goal with |- context [if ?b then _ else _] => destruct b eqn:Eskip end.
  { split; [done|]. intros k. case_decide as Hk; [|done]. subst k.
    cbn [relationships]. by rewrite Hhere, lookup_singleton_eq. }
  match goal with |- context [if ?b then _ else _] => destruct b eqn:Eun end.
  { split; [done|]. intros k. cbn [deleteRelationship withRelationships relationships].
    case_decide as Hk.
    - subst k. by rewrite !lookup_delete_eq.
    - by rewrite lookup_delete_ne. }
  unfold updateRelationship. cbn [relationships].
  rewrite Hhere, lookup_singleton_eq. cbn [withRelationships relationships tabs].
  split; [done|]. intros k. case_decide as Hk.
  - subst k. by rewrite !lookup_insert_eq.
  - by rewrite lookup_insert_ne.
Qed.

Lemma foldl_enrichOne_lookup env rels st :
  NoDup rels.*1 ->
  (forall id rel, (id, rel) ∈ rels -> relationships st !! id = Some rel) ->
  let st' := foldl (fun acc entry => enrichOne env entry acc) st rels in
  tabs st' = tabs st
  /\ forall k,
       relationships st' !! k
       = match (list_to_map rels : gmap string Relationship) !! k with
         | Some rel => enrichOutcome env (tabs st) rel
         | None => relationships st !! k
         end.
Proof.
  revert st. induction rels as [|[id rel] rest IH]; intros st Hnd Hin.
  - split; [done|]. intros k. simpl. by rewrite lookup_empty.
  - apply NoDup_cons in Hnd as [Hid Hnd].
    assert (Hrest : (list_to_map rest : gmap string Relationship) !! id = None)
      by (by apply not_elem_of_list_to_map_1).
    assert (Hhere : relationships st !! id = Some rel) by (apply Hin; left).
    destruct (enrichOne_lookup env id rel st Hhere) as [Ht1 Hl1].
    cbn [foldl list_to_map foldr].
    destruct (IH (enrichOne env (id, rel) st) Hnd) as [Ht Hl].
    { intros id' rel' Hel. rewrite Hl1, decide_False.
      - apply Hin. by right.
      - intros ->. apply Hid. apply list_elem_of_fmap. by exists (id, rel'). }
    split; [by rewrite Ht|]. intros k. rewrite Hl, Ht1, Hl1.
    destruct (decide (k = id)) as [->|Hne].
    + by rewrite Hrest, lookup_insert_eq.
    + by rewrite lookup_insert_ne.
Qed.

(** The sweep is pointwise on the store and leaves the tabs alone. *)
Lemma enrich_pointwise env st :
  tabs (enrichRelationshipsWithAI env st) = tabs st
  /\ forall k,
       relationships (enrichRelationshipsWithAI env st) !! k
       = relationships st !! k ≫= sweepOutcome env (tabs st).
Proof.
  unfold enrichRelationshipsWithAI, getAllRelationships.
  set (toEnrich := filter _ _).
  assert (Hnd : NoDup toEnrich.*1).
  { apply (NoDup_fmap_2_strong fst).
    - intros [k1 r1] [k2 r2] [_ H1]%list_elem_of_filter
        [_ H2]%list_elem_of_filter E. simpl in E. subst k2.
      apply elem_of_map_to_list in H1, H2. congruence.
    - apply NoDup_filter, NoDup_map_to_list. }
  destruct (foldl_enrichOne_lookup env toEnrich st Hnd) as [Ht Hl].
  { intros id rel [_ H]%list_elem_of_filter. by apply elem_of_map_to_list. }
  split; [done|]. intros k. rewrite Hl. unfold sweepOutcome.
  destruct (list_to_map toEnrich !! k) as [rel|] eqn:E.
  - apply elem_of_list_to_map in E; [|done].
    apply list_elem_of_filter in E as [Hf E]. apply elem_of_map_to_list in E.
    rewrite E. simpl in *. by rewrite Hf.
  - destruct (relationships st !! k) as [rel|] eqn:Ek; [|done]. simpl.
    destruct (isAIEnriched (flags rel)) eqn:Hf; [done|].
    apply not_elem_of_list_to_map_2 in E. exfalso. apply E.
    apply list_elem_of_fmap. exists (k, rel). split; [done|].
    apply list_elem_of_filter. split; [done|]. by apply elem_of_map_to_list.
Qed.

Lemma shared_length_le s1 s2 :
  NoDup s1 -> (length (shared s1 s2) <= length (newSet (s1 ++ s2)))%nat.
Proof.
  intros Hnd. unfold shared.
  transitivity (length s1); [apply length_filter|].
  apply submseteq_length, NoDup_submseteq; [done|].
  intros e He. apply newSet_elem, elem_of_app. by left.
Qed.

Lemma overlapScore_le_1 s1 s2 : NoDup s1 -> overlapScore s1 s2 <= 1.
Proof.
  intros Hnd. unfold overlapScore.
  destruct (0 <? length _)%nat eqn:E; [|done].
  apply Nat.ltb_lt in E. apply Qle_shift_div_r.
  - unfold Qlt. simpl. lia.
  - rewrite Qmult_1_l. rewrite <- Zle_Qle.
    pose proof (shared_length_le s1 s2 Hnd). lia.
Qed.

Lemma loweredSet_NoDup proj tab : NoDup (loweredSet proj tab).
Proof. apply newSet_NoDup. Qed.

Lemma semanticOf_range env tab1 tab2 :
  0 <= scoreOrZero (semanticOf env tab1 tab2) <= 1.
Proof.
  unfold semanticOf. destruct (tabIndexed tab1 && tabIndexed tab2); [|done].
  destruct tab1 as [t1|], tab2 as [t2|]; try done.
  unfold analyzeSemanticRelationship.
  destruct (tab_content t1), (tab_content t2); try done.
  destruct (languageModel env t1 t2) as [reply|]; [|done]. simpl.
  destruct (raw_score reply); [|done]. split.
  - apply Q.min_glb; [apply Q.le_max_r|done].
  - apply Q.le_min_r.
Qed.

(** The three ways the loop body leaves a relationship. *)
Lemma enrichOutcome_cases env ts rel :
  let tab1 := find (fun t => bool_decide (tab_id t = tab1Id rel)) ts in
  let tab2 := find (fun t => bool_decide (tab_id t = tab2Id rel)) ts in
  let shE := shared (loweredSet entities tab1) (loweredSet entities tab2) in
  let shT := shared (loweredSet topics tab1) (loweredSet topics tab2) in
  let j := (overlapScore (loweredSet entities tab1) (loweredSet entities tab2)
            + overlapScore (loweredSet topics tab1) (loweredSet topics tab2)) / 2 in
  let sa := semanticOf env tab1 tab2 in
  enrichOutcome env ts rel
  = if negb (tabIndexed tab1) && negb (tabIndexed tab2) then Some rel
    else if Qltb (scoreOrZero sa) 0.2
            && (length shE =? 0)%nat && (length shT =? 0)%nat then None
    else Some (enrichUpdate rel
                 (match sa with Some a => sa_relationshipType a
                  | None => type rel end)
                 shE shT j (scoreOrZero sa)
                 (match sa with Some a => sa_reason a | None => EmptyString end)
                 (finalStrength rel j sa) rel).
Proof.
  unfold enrichOutcome, enrichOne, getTab, semanticOf. cbn [tabs]. cbv zeta.
  destruct (negb _ && negb _).
  { cbn [relationships]. by rewrite lookup_singleton_eq. }
  match goal with |- context [if ?b then deleteRelationship _ _ else _] =>
    destruct b end.
  { cbn [deleteRelationship withRelationships relationships].
    by rewrite lookup_delete_eq. }
  unfold updateRelationship. cbn [relationships].
  rewrite lookup_singleton_eq. cbn [withRelationships relationships].
  by rewrite lookup_insert_eq.
Qed.

Lemma jaccard_range (s1 s2 t1 t2 : list string) :
  NoDup s1 -> NoDup t1 ->
  0 <= (overlapScore s1 s2 + overlapScore t1 t2) / 2 <= 1.
Proof.
  intros H1 H2.
  pose proof (overlapScore_nonneg s1 s2). pose proof (overlapScore_nonneg t1 t2).
  pose proof (overlapScore_le_1 s1 s2 H1). pose proof (overlapScore_le_1 t1 t2 H2).
  split.
  - apply Qle_shift_div_l; [done|]. Lqa.lra.
  - apply Qle_shift_div_r; [done|]. Lqa.lra.
Qed.

(** X10. A sweep of [enrichRelationshipsWithAI] deletes every relationship
    that is not yet enriched, has at least one indexed tab, shares no
    entity and no topic between its tabs and has a semantic score below
    0.2; the score counts as 0 when the two tabs are not both indexed, so
    a relationship between an indexed tab and a tab without content is
    deleted. *)
Theorem enrich_deletes_unrelated (env : Env) (st : State) (id : string)
    (rel : Relationship) :
  let tab1 := getTab (tab1Id rel) st in
  let tab2 := getTab (tab2Id rel) st in
  relationships st !! id = Some rel ->
  isAIEnriched (flags rel) = false ->
  tabIndexed tab1 || tabIndexed tab2 = true ->
  scoreOrZero (semanticOf env tab1 tab2) < 0.2 ->
  shared (loweredSet entities tab1) (loweredSet entities tab2) = [] ->
  shared (loweredSet topics tab1) (loweredSet topics tab2) = [] ->
  relationships (enrichRelationshipsWithAI env st) !! id = None
  /\ (tabIndexed tab1 && tabIndexed tab2 = false ->
      scoreOrZero (semanticOf env tab1 tab2) == 0).
Proof.
  intros tab1 tab2 Hrel Hflag Hidx Hsem HshE HshT. split.
  - destruct (enrich_pointwise env st) as [_ Hl]. rewrite Hl, Hrel. simpl.
    unfold sweepOutcome. rewrite Hflag, enrichOutcome_cases. cbv zeta.
    fold (getTab (tab1Id rel) st) (getTab (tab2Id rel) st). fold tab1 tab2.
    rewrite HshE, HshT. apply Qltb_lt in Hsem. rewrite Hsem.
    destruct (tabIndexed tab1), (tabIndexed tab2); done.
  - intros Hboth. unfold semanticOf. by rewrite Hboth.
Qed.

(** The navigation relationship between the indexed tab and the plain tab
    is deleted by the sweep. *)
Lemma enrich_deletes_unrelated_witness :
  relationships (enrichRelationshipsWithAI envNoModel mixedState) !! "rel_5000_x"
  = None
  /\ (tabIndexed (getTab "tab_1_100" mixedState)
      && tabIndexed (getTab "tab_3_100" mixedState) = false ->
      scoreOrZero (semanticOf envNoModel (getTab "tab_1_100" mixedState)
                     (getTab "tab_3_100" mixedState)) == 0).
Proof.
  apply (enrich_deletes_unrelated envNoModel mixedState "rel_5000_x"
           (basicRelationship 5000 "navigation" tabA tabPlain false));
    vm_compute; reflexivity.
Defined.

Lemma sweepOutcome_fixed env ts rel r' :
  sweepOutcome env ts rel = Some r' -> sweepOutcome env ts r' = Some r'.
Proof.
  unfold sweepOutcome. destruct (isAIEnriched (flags rel)) eqn:Hflag.
  { intros [= <-]. by rewrite Hflag. }
  intros Hout. pose proof Hout as Hout'. rewrite enrichOutcome_cases in Hout.
  cbv zeta in Hout.
  destruct (negb _ && negb _).
  { injection Hout as <-. by rewrite Hflag. }
  match type of Hout with (if ?b then _ else _) = _ => destruct b end; [done|].
  injection Hout as <-. done.
Qed.

(** X11. A second sweep of [enrichRelationshipsWithAI] over unchanged tab
    documents changes nothing. *)
Theorem enrich_idempotent (env : Env) (st : State) :
  enrichRelationshipsWithAI env (enrichRelationshipsWithAI env st)
  = enrichRelationshipsWithAI env st.
Proof.
  destruct (enrich_pointwise env st) as [Ht Hl].
  destruct (enrich_pointwise env (enrichRelationshipsWithAI env st)) as [Ht2 Hl2].
  destruct (enrichRelationshipsWithAI env (enrichRelationshipsWithAI env st))
    as [ts2 m2].
  destruct (enrichRelationshipsWithAI env st) as [ts1 m1].
  simpl in *. subst ts2. f_equal. apply map_eq. intros k.
  rewrite Hl2. destruct (m1 !! k) as [r'|] eqn:E; [|done]. simpl.
  rewrite Hl in E. destruct (relationships st !! k) as [rel|]; [|done].
  simpl in E. subst ts1. by eapply sweepOutcome_fixed.
Qed.

(** X12. A sweep of [enrichRelationshipsWithAI] creates no relationship
    and leaves the tab documents alone. A relationship that is still
    stored after it is either the one stored before, unchanged, or was not
    enriched before and is enriched now, with its two tab ids, its dates
    and its access count unchanged, a Jaccard score from 0 to 1 and a
    semantic score from 0 to 1 recorded, and a strength that is at least
    the former one capped at 1 and at most the former one plus 0.7. *)
Theorem enrich_survivors (env : Env) (st : State) (id : string)
    (r' : Relationship) :
  relationships (enrichRelationshipsWithAI env st) !! id = Some r' ->
  tabs (enrichRelationshipsWithAI env st) = tabs st
  /\ exists rel,
       relationships st !! id = Some rel
       /\ (r' = rel
           \/ (isAIEnriched (flags rel) = false
               /\ isAIEnriched (flags r') = true
               /\ tab1Id r' = tab1Id rel /\ tab2Id r' = tab2Id rel
               /\ createdAt r' = createdAt rel
               /\ lastAccessedAt r' = lastAccessedAt rel
               /\ accessCount r' = accessCount rel
               /\ 0 <= coOccurrenceScore (metadata r') <= 1
               /\ (exists sem, semanticScore (metadata r') = Some sem
                               /\ 0 <= sem <= 1)
               /\ Qmin (strength rel) 1 <= strength r'
               /\ strength r' <= strength rel + 0.7)).
Proof.
  destruct (enrich_pointwise env st) as [Ht Hl]. rewrite Hl.
  intros Hk. split; [done|].
  destruct (relationships st !! id) as [rel|]; [|done].
  exists rel. split; [done|]. simpl in Hk. unfold sweepOutcome in Hk.
  destruct (isAIEnriched (flags rel)) eqn:Hflag.
  { left. congruence. }
  rewrite enrichOutcome_cases in Hk. cbv zeta in Hk.
  destruct (negb _ && negb _).
  { left. congruence. }
  match type of Hk with (if ?b then _ else _) = _ => destruct b end; [done|].
  injection Hk as <-. right. cbn [enrichUpdate flags isAIEnriched tab1Id tab2Id
    createdAt lastAccessedAt accessCount metadata coOccurrenceScore
    semanticScore strength].
  set (tab1 := find _ (tabs st)). set (tab2 := find _ (tabs st)).
  pose proof (jaccard_range (loweredSet entities tab1) (loweredSet entities tab2)
                (loweredSet topics tab1) (loweredSet topics tab2)
                (loweredSet_NoDup _ _) (loweredSet_NoDup _ _)) as Hj.
  pose proof (semanticOf_range env tab1 tab2) as Hsem.
  split_and!; try done.
  - apply Hj.
  - apply Hj.
  - eexists. split; [reflexivity|]. done.
  - unfold finalStrength. destruct (semanticOf env tab1 tab2) as [a|].
    + simpl in Hsem. apply Q.min_glb; [|apply Q.le_min_r].
      apply Qle_trans with (strength rel); [apply Q.le_min_l|]. Lqa.lra.
    + apply Qle_trans with (strength rel); [apply Q.le_min_l|]. Lqa.lra.
  - unfold finalStrength. destruct (semanticOf env tab1 tab2) as [a|].
    + eapply Qle_trans; [apply Q.le_min_l|]. simpl in Hsem. Lqa.lra.
    + Lqa.lra.
Qed.

(** The relationship of two indexed tabs that share an entity survives the
    sweep. *)
Lemma enrich_survivors_witness :
  tabs (enrichRelationshipsWithAI envNoModel afterFirst) = tabs afterFirst
  /\ is_Some (relationships (enrichRelationshipsWithAI envNoModel afterFirst)
              !! "rel_1000_a").
Proof.
  destruct (relationships (enrichRelationshipsWithAI envNoModel afterFirst)
            !! "rel_1000_a") as [r'|] eqn:E.
  - split; [|by eexists].
    apply (enrich_survivors envNoModel afterFirst "rel_1000_a" r' E).
  - vm_compute in E. discriminate E.
Defined.

(** *** The bounds of every reachable store *)

Lemma withinBounds_insert (st : State) k r :
  (forall k' r', relationships st !! k' = Some r' -> withinBounds r') ->
  withinBounds r ->
  forall k' r',
    relationships (withRelationships st (<[k := r]> (relationships st))) !! k'
    = Some r' -> withinBounds r'.
Proof.
  intros Hst Hr k' r'. simpl. destruct (decide (k = k')) as [->|Hne].
  - rewrite lookup_insert_eq. by intros [= <-].
  - rewrite lookup_insert_ne by done. apply Hst.
Qed.

Lemma withinBounds_strengthen now id st :
  (forall k r, relationships st !! k = Some r -> withinBounds r) ->
  forall k r, relationships (strengthenRelationship now id st) !! k = Some r ->
    withinBounds r.
Proof.
  intros Hst. unfold strengthenRelationship, getRelationship, updateRelationship.
  destruct (relationships st !! id) as [rel|] eqn:E; [|done].
  apply withinBounds_insert; [done|].
  destruct (Hst id rel E) as (Hlo & Hhi & Hun & Hac).
  unfold withinBounds. cbn [strengthenUpdate strength flags accessCount].
  pose proof (Q.le_min_r (strength rel + 0.1) 1).
  split_and!.
  - apply Q.min_glb; [|done]. Lqa.lra.
  - Lqa.lra.
  - done.
  - lia.
Qed.

Lemma withinBounds_create env freshId now a b reason st :
  (forall k r, relationships st !! k = Some r -> withinBounds r) ->
  forall k r,
    relationships (createBasicRelationships env freshId now a b reason st) !! k
    = Some r -> withinBounds r.
Proof.
  intros Hst. unfold createBasicRelationships.
  destruct (getTabByTabId a st) as [t1|]; [|done].
  destruct (getTabByTabId b st) as [t2|]; [|done].
  destruct (getRelationship (tab_id t1) st);
    [by apply withinBounds_strengthen|].
  destruct (hostname env (tab_url t1)); [|done].
  destruct (hostname env (tab_url t2)); [|done].
  unfold addRelationship. destruct (relationships st !! freshId); [done|].
  apply withinBounds_insert; [done|].
  unfold withinBounds. simpl. split_and!; done.
Qed.

Lemma withinBounds_enrich env st :
  (forall k r, relationships st !! k = Some r -> withinBounds r) ->
  forall k r, relationships (enrichRelationshipsWithAI env st) !! k = Some r ->
    withinBounds r.
Proof.
  intros Hst k r'. destruct (enrich_pointwise env st) as [_ Hl]. rewrite Hl.
  destruct (relationships st !! k) as [rel|] eqn:E; [|done]. simpl.
  destruct (Hst k rel E) as (Hlo & Hhi & Hun & Hac).
  unfold sweepOutcome. destruct (isAIEnriched (flags rel)) eqn:Hflag.
  { intros [= <-]. by apply (Hst k). }
  rewrite enrichOutcome_cases. cbv zeta.
  destruct (negb _ && negb _).
  { intros [= <-]. by apply (Hst k). }
  match goal with |- (if ?b then _ else _) = _ -> _ => destruct b end; [done|].
  intros [= <-]. unfold withinBounds.
  cbn [enrichUpdate flags isAIEnriched accessCount strength].
  set (tab1 := find _ (tabs st)). set (tab2 := find _ (tabs st)).
  pose proof (jaccard_range (loweredSet entities tab1) (loweredSet entities tab2)
                (loweredSet topics tab1) (loweredSet topics tab2)
                (loweredSet_NoDup _ _) (loweredSet_NoDup _ _)) as Hj.
  pose proof (semanticOf_range env tab1 tab2) as Hsem.
  specialize (Hun eq_refl).
  split_and!; [| |done|done].
  - apply finalStrength_floor; [done|apply Hj|apply Hsem].
  - unfold finalStrength. destruct (semanticOf env tab1 tab2) as [a|].
    + apply Qle_trans with 1; [apply Q.le_min_r|done].
    + Lqa.lra.
Qed.

Lemma withinBounds_decay now st :
  (forall k r, relationships st !! k = Some r -> withinBounds r) ->
  forall k r, relationships (applyRelationshipDecay now st) !! k = Some r ->
    withinBounds r.
Proof.
  intros Hst k r'. rewrite applyRelationshipDecay_omap. simpl.
  rewrite lookup_omap.
  destruct (relationships st !! k) as [rel|] eqn:E; [|done]. simpl.
  destruct (Hst k rel E) as (Hlo & Hhi & Hun & Hac).
  unfold decayOutcome.
  destruct (oneWeek <? now - lastAccessedAt rel)%Z eqn:Hage.
  2: { intros [= <-]. by apply (Hst k). }
  destruct (Qltb (decayedStrength now rel) 0.1) eqn:Hlow; [done|].
  intros [= <-]. apply Qltb_ge in Hlow. apply Z.ltb_lt in Hage.
  assert (Hle : decayedStrength now rel <= strength rel).
  { unfold decayedStrength. apply Q.max_lub; [|Lqa.lra].
    assert (Hw : 0 <= inject_Z (now - lastAccessedAt rel) / inject_Z oneWeek).
    { apply Qle_shift_div_l; [done|]. rewrite Qmult_0_l.
      replace 0 with (inject_Z 0) by done. rewrite <- Zle_Qle.
      unfold oneWeek in Hage. lia. }
    assert (Hd : 0 <= Qmin (inject_Z (now - lastAccessedAt rel)
                             / inject_Z oneWeek * 0.05) 0.3).
    { apply Q.min_glb; [|done]. Lqa.nra. }
    Lqa.lra. }
  unfold withinBounds. cbn [setStrength strength flags accessCount].
  split_and!; [done|Lqa.lra| |done].
  intros Hf. specialize (Hun Hf). Lqa.lra.
Qed.

(** X13. In every store that the operations of the module reach from a
    store without relationships, every relationship has a strength from
    0.1 to 1.3, a strength of at most 1 as long as it is not enriched, and
    an access count of at least 1. *)
Theorem reachableStore_withinBounds (env : Env) (st : State) :
  reachableStore env st ->
  forall k r, relationships st !! k = Some r -> withinBounds r.
Proof.
  induction 1 as [ts|st ts _ IH|freshId now a b reason st _ IH
                  |now id st _ IH|st _ IH|now st _ IH].
  - intros k r. simpl. by rewrite lookup_empty.
  - exact IH.
  - by apply withinBounds_create.
  - by apply withinBounds_strengthen.
  - by apply withinBounds_enrich.
  - by apply withinBounds_decay.
Qed.

(** The store after six strengthenings of one relationship. *)
Lemma reachableStore_withinBounds_witness :
  exists r, relationships strongState !! "rel_1000_a" = Some r /\ withinBounds r.
Proof.
  assert (Hreach : reachableStore envNoModel strongState).
  { unfold strongState. cbn [foldl]. repeat apply reach_strengthen.
    unfold afterFirst. apply reach_create. apply reach_start. }
  destruct (relationships strongState !! "rel_1000_a") as [r|] eqn:E.
  - exists r. split; [done|].
    apply (reachableStore_withinBounds envNoModel strongState Hreach
             "rel_1000_a" r E).
  - vm_compute in E. discriminate E.
Defined.

End EnrichFacts.

(** ** Repeated decay *)

Module DecayFacts.
Import Js JsFacts Db Relationships RelationshipsSpec DecaySpec Examples
  RelationshipsFacts.
Local Open Scope Q_scope.

Lemma decayOutcome_idle now rel r' :
  (oneWeek < now - lastAccessedAt rel)%Z ->
  decayOutcome now rel = Some r' ->
  0.1 <= strength r' /\ strength r' <= strength rel - 0.05
  /\ lastAccessedAt r' = lastAccessedAt rel.
Proof.
  intros Hage. unfold decayOutcome.
  rewrite (proj2 (Z.ltb_lt _ _) Hage).
  destruct (Qltb (decayedStrength now rel) 0.1) eqn:Hlow; [done|].
  intros [= <-]. apply Qltb_ge in Hlow. cbn [setStrength strength lastAccessedAt].
  split_and!; [done| |done].
  unfold decayedStrength in *. cbv zeta in *.
  set (weeks := inject_Z (now - lastAccessedAt rel) / inject_Z oneWeek) in *.
  assert (Hw : 1 <= weeks).
  { subst weeks. apply Qle_shift_div_l; [done|]. rewrite Qmult_1_l.
    rewrite <- Zle_Qle. lia. }
  assert (Hd : 0.05 <= Qmin (weeks * 0.05) 0.3).
  { apply Q.min_glb; [Lqa.lra|done]. }
  set (d := Qmin (weeks * 0.05) 0.3) in *.
  destruct (Q.max_spec (strength rel - d) 0) as [[Hlt Hmax]|[Hge Hmax]].
  - rewrite Hmax in Hlow. exfalso. Lqa.lra.
  - rewrite Hmax. Lqa.lra.
Qed.

Lemma sweeps_gone times st id :
  relationships st !! id = None -> relationships (sweeps times st) !! id = None.
Proof.
  revert st. induction times as [|now times IH]; intros st Hnone; [done|].
  unfold sweeps in *. cbn [foldl]. apply IH.
  rewrite applyRelationshipDecay_omap. simpl. by rewrite lookup_omap, Hnone.
Qed.

(** X25. Decay compounds over the sweeps: a sweep does not touch the time
    of last access, so a relationship that has been idle for more than a
    week loses at least 0.05 of strength in every sweep until it is
    deleted. After any number of sweeps it is deleted or has lost at least
    0.05 per sweep, and a relationship of strength at most 1.3 is deleted
    after 25 sweeps at the latest. *)
Theorem decay_compounds (times : list Z) (st : State) (id : string)
    (rel : Relationship) :
  relationships st !! id = Some rel ->
  Forall (fun now => (oneWeek < now - lastAccessedAt rel)%Z) times ->
  match relationships (sweeps times st) !! id with
  | Some r' =>
      strength r' <= strength rel - 0.05 * inject_Z (Z.of_nat (length times))
      /\ lastAccessedAt r' = lastAccessedAt rel
      /\ (times <> [] -> 0.1 <= strength r')
  | None => True
  end
  /\ (strength rel <= 1.3 -> (25 <= length times)%nat ->
      relationships (sweeps times st) !! id = None).
Proof.
  intros Hrel Hidle.
  assert (Hmain : match relationships (sweeps times st) !! id with
    | Some r' =>
        strength r' <= strength rel - 0.05 * inject_Z (Z.of_nat (length times))
        /\ lastAccessedAt r' = lastAccessedAt rel
        /\ (0.1 <= strength rel \/ times <> [] -> 0.1 <= strength r')
    | None => True
    end).
  { revert st rel Hrel Hidle.
    induction times as [|now times IH]; intros st rel Hrel Hidle.
    - unfold sweeps. cbn [foldl]. rewrite Hrel. split_and!; [|done|].
      + change (inject_Z (Z.of_nat (length (@nil Z)))) with 0. Lqa.lra.
      + by intros [?|?].
    - apply Forall_cons in Hidle as [Hnow Hidle].
      unfold sweeps in *. cbn [foldl].
      assert (Hstep : relationships (applyRelationshipDecay now st) !! id
                      = decayOutcome now rel).
      { rewrite applyRelationshipDecay_omap. simpl.
        by rewrite lookup_omap, Hrel. }
      destruct (decayOutcome now rel) as [r1|] eqn:Eout.
      + destruct (decayOutcome_idle now rel r1 Hnow Eout) as (Hfloor & Hle & Hlast).
        specialize (IH (applyRelationshipDecay now st) r1 Hstep).
        rewrite Hlast in IH. specialize (IH Hidle).
        destruct (relationships (foldl _ (applyRelationshipDecay now st) times) !! id)
          as [r'|]; [|done].
        destruct IH as (Hs & Hl & Hf). split_and!.
        * cbn [length]. rewrite Nat2Z.inj_succ, <- Z.add_1_r, inject_Z_plus.
          change (inject_Z 1) with 1. Lqa.lra.
        * by rewrite Hl.
        * intros _. apply Hf. by left.
      + pose proof (sweeps_gone times (applyRelationshipDecay now st) id Hstep)
          as Hgone.
        unfold sweeps in Hgone. by rewrite Hgone. }
  split.
  - destruct (relationships (sweeps times st) !! id) as [r'|]; [|done].
    destruct Hmain as (Hs & Hl & Hf). split_and!; [done|done|].
    intros Hne. apply Hf. by right.
  - intros Hmax Hlen.
    destruct (relationships (sweeps times st) !! id) as [r'|]; [|done].
    destruct Hmain as (Hs & _ & Hf). exfalso.
    assert (Hne : times <> []) by (destruct times; [simpl in Hlen; lia|done]).
    specialize (Hf (or_intror Hne)).
    assert (Hn : 25 <= inject_Z (Z.of_nat (length times))).
    { replace 25 with (inject_Z 25) by done. rewrite <- Zle_Qle. lia. }
    Lqa.lra.
Qed.

(** Two sweeps over a relationship idle for three weeks at strength 0.3:
    it is deleted. *)
Lemma decay_compounds_witness :
  match relationships (sweeps [decayNow; decayNow] decayState) !! "rel_keep" with
  | Some r' =>
      strength r' <= 0.3 - 0.05 * inject_Z (Z.of_nat 2)
      /\ lastAccessedAt r' = 1000%Z
      /\ ([decayNow; decayNow] <> [] -> 0.1 <= strength r')
  | None => True
  end.
Proof.
  apply (decay_compounds [decayNow; decayNow] decayState "rel_keep"
           (relAt 0.3 1000)).
  - vm_compute. reflexivity.
  - repeat constructor.
Defined.

End DecayFacts.

(** ** The workflow miner *)

Module WorkflowsFacts.
Import Js JsFacts Workflows WorkflowsSpec WorkflowExamples.
Local Open Scope Q_scope.

(** *** Grouping *)

Lemma addSequence_get m s key :
  mapGet key (addSequence m s)
  = if decide (chainKey (urlsOf s) = key)
    then Some (bump s (mapGet key m)) else mapGet key m.
Proof.
  unfold addSequence, mapHas.
  destruct (mapGet (chainKey (urlsOf s)) m) as [e|] eqn:E; simpl.
  - rewrite E. case_decide as Hk.
    + subst key. by rewrite mapGet_mapSet_eq, E.
    + by rewrite mapGet_mapSet_ne.
  - rewrite mapGet_mapSet_eq. case_decide as Hk.
    + subst key. by rewrite mapGet_mapSet_eq, E.
    + by rewrite !mapGet_mapSet_ne.
Qed.

Lemma occurrenceCount_snoc key sequences s :
  occurrenceCount key (sequences ++ [s])
  = (occurrenceCount key sequences
     + if decide (chainKey (urlsOf s) = key) then 1 else 0)%nat.
Proof.
  unfold occurrenceCount. rewrite filter_app, length_app. f_equal.
  rewrite filter_cons, filter_nil. by case_decide.
Qed.

Lemma groupSequences_get key sequences :
  groupOf key sequences (mapGet key (groupSequences sequences)).
Proof.
  unfold groupSequences.
  induction sequences as [|s sequences IH] using rev_ind; [done|].
  rewrite foldl_app. simpl. rewrite addSequence_get.
  pose proof (occurrenceCount_snoc key sequences s) as Hc. revert Hc.
  unfold groupOf in *.
  destruct (decide (chainKey (urlsOf s) = key)) as [Hk|Hk]; intros Hc.
  - destruct (mapGet key (foldl addSequence [] sequences)) as [e|]; simpl.
    + destruct IH as (Hf & Hpos & Hlen & Hkey).
      rewrite length_app. simpl. split_and!; [lia|lia|lia|done].
    + split_and!; [lia|lia|done|done].
  - rewrite Nat.add_0_r in Hc.
    destruct (mapGet key (foldl addSequence [] sequences)) as [e|];
      by rewrite Hc.
Qed.

Lemma addSequence_keys m s : NoDup m.*1 -> NoDup (addSequence m s).*1.
Proof.
  intros Hnd. unfold addSequence.
  destruct (negb (mapHas (chainKey (urlsOf s)) m)).
  - destruct (mapGet _ _); repeat apply mapSet_keys; done.
  - destruct (mapGet _ _); repeat apply mapSet_keys; done.
Qed.

Lemma groupSequences_keys sequences : NoDup (groupSequences sequences).*1.
Proof.
  unfold groupSequences.
  induction sequences as [|s sequences IH] using rev_ind; [constructor|].
  rewrite foldl_app. simpl. by apply addSequence_keys.
Qed.

Lemma groupSequences_elem sequences key data :
  (key, data) ∈ groupSequences sequences ->
  groupOf key sequences (Some data).
Proof.
  intros Hin. pose proof (groupSequences_get key sequences) as Hg.
  by rewrite (elem_mapGet_NoDup _ _ _ (groupSequences_keys sequences) Hin) in Hg.
Qed.

(** *** Materialization *)

Lemma mkWorkflow_Some data :
  (0 < length (g_occurrences data))%nat ->
  exists w, mkWorkflow data = Some w
    /\ pattern w = g_pattern data
    /\ frequency w = g_frequency data
    /\ confidence w = Qmin (inject_Z (Z.of_nat (g_frequency data)) / 10) 1.
Proof.
  intros Hlen. unfold mkWorkflow.
  set (sorted := sort _ (g_occurrences data)).
  assert (Hs : length sorted = length (g_occurrences data))
    by apply sort_length.
  destruct (last sorted) as [final|] eqn:El.
  - eexists. split; [reflexivity|]. done.
  - apply last_None in El. rewrite El in Hs. simpl in Hs. lia.
Qed.

Lemma mkWorkflow_fields data w :
  mkWorkflow data = Some w ->
  pattern w = g_pattern data
  /\ frequency w = g_frequency data
  /\ confidence w = Qmin (inject_Z (Z.of_nat (g_frequency data)) / 10) 1.
Proof.
  unfold mkWorkflow. destruct (last _); [|done]. by intros [= <-].
Qed.

Lemma materialize_elem ids n entries found w :
  materialize ids n entries = Some found ->
  w ∈ found.*2 <->
  exists key data, (key, data) ∈ entries
    /\ (3 <= g_frequency data)%nat /\ mkWorkflow data = Some w.
Proof.
  revert n found. induction entries as [|[key data] rest IH];
    intros n found; cbn [materialize].
  - intros [= <-]. simpl. split.
    + by intros ?%elem_of_nil.
    + intros (? & ? & ?%elem_of_nil & _). done.
  - destruct (3 <=? g_frequency data)%nat eqn:E.
    + apply Nat.leb_le in E.
      destruct (mkWorkflow data) as [w0|] eqn:Ew; [|done].
      destruct (materialize ids (S n) rest) as [ws|] eqn:Er; [|done].
      intros [= <-]. simpl. rewrite elem_of_cons, (IH _ _ Er). split.
      * intros [->|(k & d & Hin & Hd)].
        -- exists key, data. split_and!; [left|done|done].
        -- exists k, d. split; [by right|done].
      * intros (k & d & [[= -> ->]|Hin]%elem_of_cons & Hf & Hw).
        -- left. congruence.
        -- right. by exists k, d.
    + apply Nat.leb_gt in E. intros Hm. rewrite (IH _ _ Hm). split.
      * intros (k & d & Hin & Hd). exists k, d. split; [by right|done].
      * intros (k & d & [[= -> ->]|Hin]%elem_of_cons & Hf & Hw).
        -- lia.
        -- by exists k, d.
Qed.

Lemma materialize_Some ids n entries :
  (forall key data, (key, data) ∈ entries ->
     (3 <= g_frequency data)%nat -> (0 < length (g_occurrences data))%nat) ->
  exists found, materialize ids n entries = Some found.
Proof.
  revert n. induction entries as [|[key data] rest IH]; intros n Hocc;
    cbn [materialize].
  - eauto.
  - assert (Hrest : forall key data, (key, data) ∈ rest ->
       (3 <= g_frequency data)%nat -> (0 < length (g_occurrences data))%nat).
    { intros k d Hin. apply (Hocc k). by right. }
    destruct (3 <=? g_frequency data)%nat eqn:E.
    + apply Nat.leb_le in E.
      destruct (mkWorkflow_Some data) as (w & -> & _).
      { apply (Hocc key); [left|done]. }
      destruct (IH (S n) Hrest) as [ws ->]. eauto.
    + apply IH. exact Hrest.
Qed.

(** The groups of a log always materialize. *)
Lemma materialize_groups ids sequences :
  exists found, materialize ids 0 (groupSequences sequences) = Some found.
Proof.
  apply materialize_Some. intros key data Hin Hf.
  destruct (groupSequences_elem _ _ _ Hin) as (_ & _ & Hlen & _). lia.
Qed.

(** The returned workflows are the materialized groups of frequency at
    least 3. *)
Lemma detectWorkflows_found now ids st w :
  w ∈ (detectWorkflows now ids st).1.*2 <->
  exists key data,
    (key, data) ∈ groupSequences (extractSequences now 2 5 st)
    /\ (3 <= g_frequency data)%nat /\ mkWorkflow data = Some w.
Proof.
  unfold detectWorkflows.
  destruct (extractSequences now 2 5 st) as [|s0 sequences] eqn:Es.
  - simpl. split.
    + by intros ?%elem_of_nil.
    + intros (? & ? & ?%elem_of_nil & _). done.
  - cbn [length Nat.eqb].
    destruct (materialize_groups ids (s0 :: sequences)) as [found Hf].
    rewrite Hf. cbn [fst].
    rewrite <- (materialize_elem _ _ _ _ w Hf).
    by rewrite sort_Permutation.
Qed.

(** C6. For every navigation log, with the candidate sequences grouped
    by their URL chain: a chain with exactly 2 candidate sequences is the
    pattern of no returned workflow, a chain with exactly 3 is the pattern
    of a returned workflow of frequency 3, and every returned workflow has
    confidence [min(frequency/10, 1)], where its frequency is the number of
    candidate sequences of its chain and is at least 3. *)
Theorem detectWorkflows_threshold now ids st key :
  let sequences := extractSequences now 2 5 st in
  let found := (detectWorkflows now ids st).1 in
  (occurrenceCount key sequences = 2%nat ->
     forall w, w ∈ found.*2 -> chainKey (pattern w) <> key)
  /\ (occurrenceCount key sequences = 3%nat ->
     exists w, w ∈ found.*2 /\ chainKey (pattern w) = key
               /\ frequency w = 3%nat)
  /\ (forall w, w ∈ found.*2 ->
        confidence w = Qmin (inject_Z (Z.of_nat (frequency w)) / 10) 1
        /\ frequency w = occurrenceCount (chainKey (pattern w)) sequences
        /\ (3 <= frequency w)%nat).
Proof.
  intros sequences found.
  assert (Hchar : forall w, w ∈ found.*2 ->
            exists data, (chainKey (pattern w), data) ∈ groupSequences sequences
              /\ (3 <= g_frequency data)%nat /\ mkWorkflow data = Some w).
  { intros w (k & d & Hin & Hf & Hw)%detectWorkflows_found.
    destruct (mkWorkflow_fields _ _ Hw) as (Hp & _).
    destruct (groupSequences_elem _ _ _ Hin) as (_ & _ & _ & Hk).
    exists d. rewrite Hp, Hk. done. }
  split; [|split].
  - intros Hcount w Hw Hkey.
    destruct (Hchar w Hw) as (d & Hin & Hf & _).
    destruct (groupSequences_elem _ _ _ Hin) as (Hfreq & _).
    rewrite Hkey in Hfreq. fold sequences in Hfreq. lia.
  - intros Hcount.
    pose proof (groupSequences_get key sequences) as Hg.
    destruct (mapGet key (groupSequences sequences)) as [g|] eqn:Eg;
      simpl in Hg; [|lia].
    destruct Hg as (Hfreq & Hpos & Hlen & Hkey).
    destruct (mkWorkflow_Some g) as (w & Hw & Hp & Hfw & _); [lia|].
    exists w. split_and!.
    + apply detectWorkflows_found. exists key, g.
      split_and!; [by apply mapGet_elem|lia|done].
    + by rewrite Hp.
    + lia.
  - intros w Hw. destruct (Hchar w Hw) as (d & Hin & Hf & Hmk).
    destruct (mkWorkflow_fields _ _ Hmk) as (Hp & Hfw & Hc).
    destruct (groupSequences_elem _ _ _ Hin) as (Hfreq & _).
    rewrite Hfw. split_and!; [done| |done].
    by rewrite Hfreq.
Qed.

(** On the log of [walks]: the chain A, B has three candidate sequences and
    is returned, the chain C, D has two and is not. *)
Lemma detectWorkflows_threshold_witness :
  (exists w, w ∈ (detectWorkflows minedAt (idsOfPass "1_") walks).1.*2
     /\ chainKey (pattern w) = "A->B" /\ frequency w = 3%nat)
  /\ (forall w, w ∈ (detectWorkflows minedAt (idsOfPass "1_") walks).1.*2 ->
        chainKey (pattern w) <> "C->D").
Proof.
  split.
  - apply (detectWorkflows_threshold minedAt (idsOfPass "1_") walks "A->B").
    vm_compute. reflexivity.
  - apply (detectWorkflows_threshold minedAt (idsOfPass "1_") walks "C->D").
    vm_compute. reflexivity.
Defined.

(** *** Ordering and storage *)

(** The returned list is sorted by frequency, highest first. *)
Lemma detectWorkflows_sorted now ids st :
  StronglySorted (fun a b => (frequency b.2 <= frequency a.2)%nat)
    (detectWorkflows now ids st).1.
Proof.
  unfold detectWorkflows.
  destruct (length _ =? 0)%nat; [constructor|].
  destruct (materialize _ _ _) as [found|]; [|constructor].
  cbn [fst].
  eapply StronglySorted_weaken;
    [|apply (sort_sorted
        (fun a b : string * Workflow =>
           inject_Z (Z.of_nat (frequency b.2) - Z.of_nat (frequency a.2))))].
  - intros a b. unfold notAfter, Qle. simpl. lia.
  - intros a b. unfold notAfter, Qle. simpl. lia.
  - intros a b c. unfold notAfter, Qle. simpl. lia.
Qed.

Lemma upsert_all_lookup found st k :
  workflows (foldl (fun acc workflow => upsertWorkflow workflow acc) st found) !! k
  = match (list_to_map (reverse found) : gmap string Workflow) !! k with
    | Some w => Some w
    | None => workflows st !! k
    end.
Proof.
  revert st. induction found as [|[id w] found IH]; intros st.
  - simpl. by rewrite lookup_empty.
  - simpl. rewrite IH. rewrite reverse_cons.
    rewrite list_to_map_app.
    destruct (list_to_map (reverse found) !! k) as [w'|] eqn:E.
    + by rewrite (lookup_union_Some_l _ _ _ _ E).
    + rewrite lookup_union_r by done. simpl.
      destruct (decide (id = k)) as [->|Hne].
      * by rewrite !lookup_insert_eq.
      * rewrite !lookup_insert_ne by done. by rewrite lookup_empty.
Qed.

(** A pass writes under the ids it generates and nowhere else: a pattern
    stored by an earlier pass under another id stays as it is. *)
Lemma detectWorkflows_keeps_stored now ids st k :
  k ∉ (detectWorkflows now ids st).1.*1 ->
  workflows (detectWorkflows now ids st).2 !! k = workflows st !! k.
Proof.
  unfold detectWorkflows.
  destruct (length _ =? 0)%nat; [done|].
  destruct (materialize _ _ _) as [found|]; [|done].
  cbn [fst snd]. intros Hk. rewrite upsert_all_lookup.
  rewrite (proj1 (not_elem_of_list_to_map _ _)); [done|].
  by rewrite fmap_reverse, elem_of_reverse.
Qed.

(** C7, at the input where the claim fails: mining the log of [walks] twice
    stores the pattern of the chain A, B a second time, under the id the
    second pass generated, instead of replacing the stored one. *)
Theorem detectWorkflows_twice_stores_chain_twice :
  exists w,
    pattern w = ["A"; "B"]
    /\ workflows afterOnePass = {[ "workflow_1_a" := w ]}
    /\ workflows afterTwoPasses
       = {[ "workflow_1_a" := w; "workflow_2_a" := w ]}
    /\ size (workflows afterTwoPasses) = 2%nat.
Proof.
  eexists. split_and!.
  2: { vm_compute. reflexivity. }
  - reflexivity.
  - apply map_eq. intros k. vm_compute. reflexivity.
  - vm_compute. reflexivity.
Qed.

End WorkflowsFacts.

(** ** The final ordering of the suggestions *)

Module ScoringFacts.
Import Js JsFacts Scoring ScoringSpec.
Local Open Scope Q_scope.

Lemma inject_Z_nonpos z : inject_Z z <= 0 <-> (z <= 0)%Z.
Proof. unfold Qle. simpl. lia. Qed.

Lemma compareScored_ranks a b : compareScored a b <= 0 <-> ranksBefore a b.
Proof.
  unfold compareScored, ranksBefore.
  destruct (Qeq_bool (score b - score a) 0) eqn:E; simpl.
  - apply Qeq_bool_iff in E.
    assert (Heq : score a == score b) by Lqa.lra.
    rewrite inject_Z_nonpos. split.
    + intros H. right. split; [done|lia].
    + intros [H|[_ H]]; [Lqa.lra|lia].
  - apply Qeq_bool_neq in E. split.
    + intros H. left. apply Qle_lteq in H as [H|H]; [Lqa.lra|done].
    + intros [H|[H _]]; [Lqa.lra|]. exfalso. apply E. Lqa.lra.
Qed.

Lemma ranksBefore_total a b : ranksBefore a b \/ ranksBefore b a.
Proof.
  unfold ranksBefore.
  destruct (Q_dec (score a) (score b)) as [[H|H]|H].
  - right. by left.
  - left. by left.
  - destruct (Z.le_ge_cases (id (candidate a)) (id (candidate b))).
    + left. right. done.
    + right. right. split; [by symmetry|done].
Qed.

Lemma ranksBefore_trans a b c :
  ranksBefore a b -> ranksBefore b c -> ranksBefore a c.
Proof.
  unfold ranksBefore. intros [H1|[H1 H1']] [H2|[H2 H2']].
  - left. Lqa.lra.
  - left. Lqa.lra.
  - left. Lqa.lra.
  - right. split; [Lqa.lra|lia].
Qed.

Lemma StronglySorted_app_inv {A} (R : A -> A -> Prop) l1 l2 :
  StronglySorted R (l1 ++ l2) ->
  StronglySorted R l1 /\ Forall (fun a => Forall (R a) l2) l1.
Proof.
  induction l1 as [|a l1 IH]; simpl; intros Hs.
  - split; constructor.
  - apply StronglySorted_inv in Hs as [Hs Hall].
    apply Forall_app in Hall as [H1 H2].
    destruct (IH Hs) as [IH1 IH2]. split; by constructor.
Qed.

Lemma sort_compareScored_sorted scored :
  StronglySorted ranksBefore (sort compareScored scored).
Proof.
  eapply StronglySorted_weaken; [|apply (sort_sorted compareScored)].
  - intros a b. apply compareScored_ranks.
  - intros a b. unfold notAfter. rewrite !compareScored_ranks.
    apply ranksBefore_total.
  - intros a b c. unfold notAfter. rewrite !compareScored_ranks.
    apply ranksBefore_trans.
Qed.

Lemma topSuggestions_topTenOf scored : topTenOf scored (topSuggestions scored).
Proof.
  unfold topSuggestions, topTenOf.
  pose proof (sort_compareScored_sorted scored) as Hs.
  rewrite <- (take_drop 10 (sort compareScored scored)) in Hs.
  apply StronglySorted_app_inv in Hs as [Hs Hrest].
  split_and!.
  - done.
  - rewrite length_take, sort_length. lia.
  - exists (drop 10 (sort compareScored scored)). split; [|done].
    rewrite take_drop. apply sort_Permutation.
Qed.


(** *** The order does not depend on the order of arrival *)

Lemma sorted_Permutation_eq {A} (R : A -> A -> Prop) (l1 l2 : list A) :
  (forall a b, a ∈ l1 -> b ∈ l1 -> R a b -> R b a -> a = b) ->
  StronglySorted R l1 -> StronglySorted R l2 -> l1 ≡ₚ l2 -> l1 = l2.
Proof.
  revert l2. induction l1 as [|a l1 IH]; intros l2 Hanti Hs1 Hs2 Hp.
  - by apply Permutation_nil_l in Hp.
  - destruct l2 as [|b l2]; [by apply Permutation_nil_r in Hp|].
    apply StronglySorted_inv in Hs1 as [Hs1 Ha].
    apply StronglySorted_inv in Hs2 as [Hs2 Hb].
    assert (Hab : a = b).
    { assert (Hain : a ∈ b :: l2) by (rewrite <- Hp; left).
      assert (Hbin : b ∈ a :: l1) by (rewrite Hp; left).
      apply elem_of_cons in Hain as [?|Hain]; [done|].
      apply elem_of_cons in Hbin as [?|Hbin]; [done|].
      rewrite Forall_forall in Ha, Hb.
      apply Hanti; [left|by right|by apply Ha|by apply Hb]. }
    subst b. f_equal. apply IH; [|done|done|].
    + intros x y Hx Hy. apply Hanti; by right.
    + by apply Permutation_cons_inv in Hp.
Qed.

Lemma NoDup_fmap_elem_eq {A B} (f : A -> B) (l : list A) a b :
  NoDup (f <$> l) -> a ∈ l -> b ∈ l -> f a = f b -> a = b.
Proof.
  induction l as [|x l IH]; simpl; intros Hnd Ha Hb Hf.
  - by apply elem_of_nil in Ha.
  - apply NoDup_cons in Hnd as [Hx Hnd].
    apply elem_of_cons in Ha as [->|Ha]; apply elem_of_cons in Hb as [->|Hb].
    + done.
    + exfalso. apply Hx. rewrite Hf. by apply list_elem_of_fmap_2.
    + exfalso. apply Hx. rewrite <- Hf. by apply list_elem_of_fmap_2.
    + by apply IH.
Qed.

(** With pairwise distinct tab ids, two arrangements of the same scored
    candidates yield the same list of suggestions. *)
Lemma topSuggestions_order_independent scored1 scored2 :
  NoDup ((fun s => id (candidate s)) <$> scored1) ->
  scored1 ≡ₚ scored2 ->
  topSuggestions scored1 = topSuggestions scored2.
Proof.
  intros Hnd Hp. unfold topSuggestions. f_equal.
  apply (sorted_Permutation_eq ranksBefore);
    [|apply sort_compareScored_sorted|apply sort_compareScored_sorted|].
  - intros a b Ha%sort_elem Hb%sort_elem Hab Hba.
    apply (NoDup_fmap_elem_eq _ _ _ _ Hnd Ha Hb). simpl.
    destruct Hab as [Hab|[Hab Hab']], Hba as [Hba|[Hba Hba']]; try Lqa.lra.
    lia.
  - by rewrite !sort_Permutation.
Qed.

End ScoringFacts.

(** ** Further properties of the workflow miner *)

Module SequenceFacts.
Import Js JsFacts Workflows WorkflowPrediction WorkflowsSpec SequenceSpec
  WorkflowExamples PredictionExamples WorkflowsFacts.

Lemma StronglySorted_take {A} (R : A -> A -> Prop) n l :
  StronglySorted R l -> StronglySorted R (take n l).
Proof.
  intros Hs. revert n. induction Hs as [|a l Hs IH Hall]; intros [|n]; simpl;
    try constructor.
  - apply IH.
  - by apply Forall_take.
Qed.

Lemma StronglySorted_drop {A} (R : A -> A -> Prop) n l :
  StronglySorted R l -> StronglySorted R (drop n l).
Proof.
  intros Hs. revert n. induction Hs as [|a l Hs IH Hall]; intros [|n]; simpl;
    [constructor|constructor|by constructor|apply IH].
Qed.

Lemma sort_by_timestamp_sorted (navs : list Navigation) :
  StronglySorted (fun a b => (timestamp a <= timestamp b)%Z)
    (sort (fun a b => inject_Z (timestamp a - timestamp b)) navs).
Proof.
  eapply StronglySorted_weaken;
    [|apply (sort_sorted
        (fun a b : Navigation => inject_Z (timestamp a - timestamp b)))].
  - intros a b. unfold notAfter, Qle. simpl. lia.
  - intros a b. unfold notAfter, Qle. simpl. lia.
  - intros a b c. unfold notAfter, Qle. simpl. lia.
Qed.

Lemma contiguous_steps (sequence : list Navigation) :
  StronglySorted (fun a b => (timestamp a <= timestamp b)%Z) sequence ->
  isContiguous sequence = true ->
  stepsWithin tenMinutes (timestamp <$> sequence).
Proof.
  induction sequence as [|prev rest IH]; intros Hs Hc i a b; [done|].
  apply StronglySorted_inv in Hs as [Hs Hall].
  destruct rest as [|next rest']; [by destruct i|].
  cbn [isContiguous] in Hc.
  destruct (tenMinutes <? timestamp next - timestamp prev)%Z eqn:Egap; [done|].
  apply Z.ltb_ge in Egap. apply Forall_cons in Hall as [Hpn _].
  destruct i as [|i].
  - simpl. intros [= <-] [= <-]. lia.
  - intros Ha Hb. by apply (IH Hs Hc i).
Qed.

Lemma pushed_sequence now minLength maxLength st s :
  s ∈ extractSequences now minLength maxLength st ->
  exists len i sequence,
    (minLength <= len <= maxLength)%nat
    /\ sequence
       = take len (drop i
           (sort (fun a b => inject_Z (timestamp a - timestamp b))
              (getRecentNavigations (now - thirtyDays) st)))
    /\ length sequence = len
    /\ isContiguous sequence = true
    /\ mkSequence len sequence = Some s.
Proof.
  unfold extractSequences.
  destruct (length _ <? minLength)%nat; [by intros ?%elem_of_nil|].
  set (sorted := sort _ _).
  destruct (mapM _ _) as [sequences|] eqn:Em; [|by intros ?%elem_of_nil].
  intros Hs. apply mapM_Some in Em.
  assert (Hp : exists p, p ∈ flat_map (fun len =>
      flat_map (fun i =>
        if isContiguous (take len (drop i sorted))
        then [mkSequence len (take len (drop i sorted))] else [])
        (seq 0 (length sorted + 1 - len)))
      (seq minLength (maxLength + 1 - minLength)) /\ p = Some s).
  { revert Hs. clear -Em. induction Em as [|p s' ps ss Hps _ IH].
    - by intros ?%elem_of_nil.
    - intros [->|Hs]%elem_of_cons.
      + exists p. split; [left|done].
      + destruct (IH Hs) as (p' & Hin & Hp'). exists p'. split; [by right|done]. }
  destruct Hp as (p & Hin & ->).
  apply list_elem_of_In, in_flat_map in Hin as (len & Hlen & Hin).
  apply in_flat_map in Hin as (i & Hi & Hin).
  apply in_seq in Hlen. apply in_seq in Hi.
  destruct (isContiguous (take len (drop i sorted))) eqn:Ec; [|done].
  destruct Hin as [Hin|[]].
  exists len, i, (take len (drop i sorted)). split_and!; try done; try lia.
  rewrite length_take, length_drop. lia.
Qed.

(** X14. Every sequence that [extractSequences] returns has between
    [minLength] and [maxLength] steps, as many tab entries as its length
    says, step times that do not decrease and are at most ten minutes
    apart, none of them older than thirty days, and its start and end
    times are the times of its first and last step, the start not after
    the end. *)
Theorem extractSequences_wellFormed (now : Z) (minLength maxLength : nat)
    (st : NavState) (s : Sequence) :
  s ∈ extractSequences now minLength maxLength st ->
  (minLength <= seq_length s <= maxLength)%nat
  /\ length (seq_tabs s) = seq_length s
  /\ stepsWithin tenMinutes (st_timestamp <$> seq_tabs s)
  /\ Forall (fun t => (now - thirtyDays <= st_timestamp t)%Z) (seq_tabs s)
  /\ head (st_timestamp <$> seq_tabs s) = Some (startTime s)
  /\ last (st_timestamp <$> seq_tabs s) = Some (endTime s)
  /\ (startTime s <= endTime s)%Z.
Proof.
  intros Hs.
  destruct (pushed_sequence _ _ _ _ _ Hs)
    as (len & i & sequence & Hlen & Hseq & Hl & Hc & Hmk).
  assert (Hsorted : StronglySorted (fun a b => (timestamp a <= timestamp b)%Z)
                      sequence).
  { rewrite Hseq. apply StronglySorted_take, StronglySorted_drop,
      sort_by_timestamp_sorted. }
  assert (Hrecent : Forall (fun nav => (now - thirtyDays <= timestamp nav)%Z)
                      sequence).
  { rewrite Hseq. apply Forall_take, Forall_drop, Forall_forall.
    intros nav Hnav%sort_elem.
    unfold getRecentNavigations in Hnav.
    by apply list_elem_of_filter in Hnav as [Hnav _]. }
  unfold mkSequence in Hmk.
  destruct (head sequence) as [first|] eqn:Eh; [|done].
  destruct (last sequence) as [final|] eqn:El; [|done].
  injection Hmk as <-.
  cbn [seq_tabs seq_length startTime endTime].
  assert (Htimes : st_timestamp <$>
            map (fun nav => {| st_tabId := ref_tabId (toTab nav);
                               st_url := ref_url (toTab nav);
                               st_timestamp := timestamp nav |}) sequence
          = timestamp <$> sequence).
  { change (map ?f ?l) with (f <$> l). rewrite <- list_fmap_compose.
    by apply list_fmap_ext. }
  rewrite Htimes. split_and!.
  - lia.
  - lia.
  - by rewrite length_map.
  - by apply contiguous_steps.
  - change (map ?f ?l) with (f <$> l). by apply Forall_fmap.
  - destruct sequence; [done|]. simpl in *. congruence.
  - by rewrite fmap_last, El.
  - destruct sequence as [|a rest]; [done|]. simpl in Eh. injection Eh as ->.
    apply StronglySorted_inv in Hsorted as [_ Hall].
    assert (Hin : final ∈ first :: rest).
    { apply last_Some in El as [l' ->]. apply elem_of_app. right. left. }
    apply elem_of_cons in Hin as [->|Hin]; [lia|].
    by apply (proj1 (Forall_forall _ _) Hall).
Qed.

Lemma extractSequences_wellFormed_witness :
  exists s, s ∈ extractSequences minedAt 2 5 walks
    /\ (2 <= seq_length s <= 5)%nat
    /\ (startTime s <= endTime s)%Z.
Proof.
  destruct (extractSequences minedAt 2 5 walks) as [|s rest] eqn:E.
  - vm_compute in E. discriminate E.
  - exists s. assert (Hs : s ∈ extractSequences minedAt 2 5 walks)
      by (rewrite E; left).
    rewrite <- E.
    destruct (extractSequences_wellFormed minedAt 2 5 walks s Hs)
      as (H1 & _ & _ & _ & _ & _ & H7).
    done.
Defined.

(** *** What a mining pass returns and stores *)

Lemma groupSequences_pattern sequences key data :
  mapGet key (groupSequences sequences) = Some data ->
  exists s, s ∈ sequences /\ g_pattern data = urlsOf s.
Proof.
  unfold groupSequences. revert data.
  induction sequences as [|s sequences IH] using rev_ind; intros data; [done|].
  rewrite foldl_app. simpl. rewrite addSequence_get.
  case_decide as Hk.
  - intros [= <-]. unfold bump.
    destruct (mapGet key (foldl addSequence [] sequences)) as [e|] eqn:E.
    + destruct (IH e eq_refl) as (s' & Hs' & Hp). exists s'.
      split; [apply elem_of_app; by left|done].
    + exists s. split; [apply elem_of_app; right; left|done].
  - intros Hd. destruct (IH data Hd) as (s' & Hs' & Hp). exists s'.
    split; [apply elem_of_app; by left|done].
Qed.

Lemma materialize_ids ids n entries found :
  materialize ids n entries = Some found ->
  found.*1 = ids <$> seq n (length found).
Proof.
  revert n found. induction entries as [|[key data] rest IH];
    intros n found; cbn [materialize].
  - by intros [= <-].
  - destruct (3 <=? g_frequency data)%nat; [|apply IH].
    destruct (mkWorkflow data) as [w|]; [|done].
    destruct (materialize ids (S n) rest) as [ws|] eqn:E; [|done].
    intros [= <-]. simpl. f_equal. by apply IH.
Qed.

Lemma upsert_all_history found st :
  navigation_history (foldl (fun acc workflow => upsertWorkflow workflow acc) st found)
  = navigation_history st.
Proof.
  revert st. induction found as [|w found IH]; intros st; [done|].
  simpl. by rewrite IH.
Qed.

(** X15. The workflows that a pass of [detectWorkflows] returns come in
    order of decreasing frequency; each has a pattern of 2 to 5 URLs, a
    frequency of at least 3 and the confidence [min(frequency / 10, 1)],
    which lies between 0.3 and 1. The pass leaves the navigation history
    alone, stores every returned workflow under its id when the generated
    ids are pairwise distinct, and changes no entry under another id. *)
Theorem detectWorkflows_result (now : Z) (ids : nat -> string) (st : NavState) :
  let found := (detectWorkflows now ids st).1 in
  let st' := (detectWorkflows now ids st).2 in
  (forall id w, (id, w) ∈ found ->
     (2 <= length (pattern w) <= 5)%nat
     /\ (3 <= frequency w)%nat
     /\ confidence w = Qmin (inject_Z (Z.of_nat (frequency w)) / 10) 1
     /\ (0.3 <= confidence w <= 1)%Q)
  /\ StronglySorted (fun a b => (frequency b.2 <= frequency a.2)%nat) found
  /\ navigation_history st' = navigation_history st
  /\ ((forall n m, ids n = ids m -> n = m) ->
      forall id w, (id, w) ∈ found -> workflows st' !! id = Some w)
  /\ (forall k, k ∉ found.*1 -> workflows st' !! k = workflows st !! k).
Proof.
  intros found st'. split_and!.
  - intros id w Hin.
    assert (Hw : w ∈ found.*2).
    { apply list_elem_of_fmap. by exists (id, w). }
    apply detectWorkflows_found in Hw as (key & data & Hdata & Hf & Hmk).
    apply mkWorkflow_fields in Hmk as (Hp & Hfreq & Hconf).
    pose proof (elem_mapGet_NoDup _ _ _ (groupSequences_keys _) Hdata) as Hget.
    apply groupSequences_pattern in Hget as (s & Hs & Hpat).
    destruct (pushed_sequence _ _ _ _ _ Hs)
      as (len & i & sequence & Hlen & _ & Hl & _ & Hmks).
    unfold mkSequence in Hmks.
    destruct (head sequence); [|done]. destruct (last sequence); [|done].
    injection Hmks as <-.
    rewrite Hp, Hpat, Hfreq, Hconf. unfold urlsOf. cbn [seq_tabs].
    rewrite !length_map. split_and!; try lia; try done.
    + apply Q.min_glb; [|done]. apply Qle_shift_div_l; [done|].
      unfold Qle. simpl. lia.
    + apply Q.le_min_r.
  - apply detectWorkflows_sorted.
  - subst st'. unfold detectWorkflows.
    destruct (length _ =? 0)%nat; [done|].
    destruct (materialize _ _ _) as [ws|]; [|done].
    cbn [snd]. apply upsert_all_history.
  - intros Hinj id w. subst found st'. unfold detectWorkflows.
    destruct (length _ =? 0)%nat; [by intros ?%elem_of_nil|].
    destruct (materialize _ _ _) as [ws|] eqn:Em; [|by intros ?%elem_of_nil].
    cbn [fst snd]. intros Hin. rewrite upsert_all_lookup.
    set (sorted := sort _ ws) in *.
    assert (Hnd : NoDup (reverse sorted).*1).
    { rewrite fmap_reverse, reverse_Permutation.
      subst sorted. rewrite sort_Permutation.
      rewrite (materialize_ids _ _ _ _ Em).
      apply NoDup_fmap_2; [|apply NoDup_seq]. intros n m. apply Hinj. }
    erewrite elem_of_list_to_map_1; [done|done|].
    by apply elem_of_reverse.
  - apply detectWorkflows_keeps_stored.
Qed.

(** *** Prediction *)

Lemma matchWorkflow_Some url workflow m :
  matchWorkflow url workflow = Some m <->
  exists i nextUrl,
    firstPosition url (pattern workflow.2) i
    /\ pattern workflow.2 !! S i = Some nextUrl
    /\ m = {| m_workflow := workflow; m_nextUrl := nextUrl;
              m_confidence := confidence workflow.2; m_position := i |}.
Proof.
  unfold matchWorkflow, firstPosition. split.
  - destruct (list_find _ _) as [[i u]|] eqn:Ef; [|done].
    apply list_find_Some in Ef as (Hi & -> & Hfirst).
    destruct (i <? _)%nat; [|done]. rewrite Nat.add_1_r.
    destruct (pattern workflow.2 !! S i) as [nextUrl|] eqn:En; [|done].
    intros [= <-]. exists i, nextUrl. split_and!; try done.
    intros j Hj Hu. by apply (Hfirst j url).
  - intros (i & nextUrl & [Hi Hfirst] & Hn & ->).
    assert (Ef : list_find (fun u => u = url) (pattern workflow.2)
                 = Some (i, url)).
    { apply list_find_Some. split_and!; try done.
      intros j y Hy Hj ->. by apply (Hfirst j). }
    rewrite Ef. pose proof (lookup_lt_Some _ _ _ Hn) as Hlt.
    rewrite (proj2 (Nat.ltb_lt _ _)) by lia.
    by rewrite Nat.add_1_r, Hn.
Qed.

Lemma sort_head_first {A} (cmp : A -> A -> Q) (l : list A) x :
  (forall a b, notAfter cmp a b \/ notAfter cmp b a) ->
  (forall a b c, notAfter cmp a b -> notAfter cmp b c -> notAfter cmp a c) ->
  head (sort cmp l) = Some x ->
  x ∈ l /\ forall y, y ∈ l -> notAfter cmp x y.
Proof.
  intros Htot Htrans Hh.
  pose proof (sort_sorted cmp Htot Htrans l) as Hs.
  destruct (sort cmp l) as [|x' rest] eqn:E; [done|].
  injection Hh as ->. split.
  - apply (sort_elem cmp). rewrite E. left.
  - intros y Hy. apply (sort_elem cmp) in Hy. rewrite E in Hy.
    apply StronglySorted_inv in Hs as [_ Hall].
    apply elem_of_cons in Hy as [->|Hy].
    + destruct (Htot x x); done.
    + by apply (proj1 (Forall_forall _ _) Hall).
Qed.

(** X16. When [predictNextTab] predicts a tab, the tab is stored and
    active, and its URL is the one that follows the first occurrence of
    the current tab's URL in the pattern of the workflow it reports, a
    stored workflow whose confidence it reports; no stored workflow in
    which a URL follows the current URL has a higher confidence. *)
Theorem predictNextTab_sound (currentTabId : Z) (st : Db.State)
    (workflows : list (string * Workflow)) (p : NextTab) :
  predictNextTab currentTabId st workflows = Some p ->
  exists currentTab i,
    Db.getTabByTabId currentTabId st = Some currentTab
    /\ n_workflow p ∈ workflows
    /\ firstPosition (Db.tab_url currentTab) (pattern (n_workflow p).2) i
    /\ pattern (n_workflow p).2 !! S i = Some (Db.tab_url (n_tab p))
    /\ n_tab p ∈ Db.tabs st
    /\ Db.isActive (Db.tab_flags (n_tab p)) = true
    /\ n_confidence p = confidence (n_workflow p).2
    /\ forall w j,
         w ∈ workflows ->
         firstPosition (Db.tab_url currentTab) (pattern w.2) j ->
         (S j < length (pattern w.2))%nat ->
         (confidence w.2 <= n_confidence p)%Q.
Proof.
  unfold predictNextTab.
  destruct (Db.getTabByTabId currentTabId st) as [currentTab|]; [|done].
  destruct (length workflows =? 0)%nat; [done|].
  set (matching := omap _ workflows).
  destruct (length matching =? 0)%nat; [done|].
  destruct (head _) as [prediction|] eqn:Eh; [|done].
  destruct (find _ (Db.tabs st)) as [nextTab|] eqn:Et; [|done].
  intros [= <-]. cbn [n_tab n_confidence n_workflow].
  apply sort_head_first in Eh as [Hin Hmax].
  2: { intros a b. unfold notAfter.
       destruct (Qlt_le_dec (m_confidence a) (m_confidence b)); [right|left];
         Lqa.lra. }
  2: { intros a b c. unfold notAfter. intros; Lqa.lra. }
  apply find_some in Et as [Htab Hcond]. apply andb_true_iff in Hcond as [Hu Ha].
  apply bool_decide_eq_true in Hu.
  apply list_elem_of_omap in Hin as (w & Hw & Hm).
  apply matchWorkflow_Some in Hm as (i & nextUrl & Hpos & Hn & ->).
  cbn [m_workflow m_nextUrl m_confidence] in *.
  exists currentTab, i. split_and!; try done.
  - by rewrite Hu.
  - by apply list_elem_of_In.
  - intros w' j Hw' Hpos' Hlen.
    destruct (pattern w'.2 !! S j) as [next'|] eqn:En.
    2: { apply lookup_ge_None in En. lia. }
    assert (Hm' : matchWorkflow (Db.tab_url currentTab) w'
                  = Some {| m_workflow := w'; m_nextUrl := next';
                            m_confidence := confidence w'.2;
                            m_position := j |}).
    { apply matchWorkflow_Some. by exists j, next'. }
    assert (Hin' : {| m_workflow := w'; m_nextUrl := next';
                      m_confidence := confidence w'.2; m_position := j |}
                   ∈ matching).
    { apply list_elem_of_omap. by exists w'. }
    specialize (Hmax _ Hin'). unfold notAfter in Hmax. simpl in Hmax.
    Lqa.lra.
Qed.

(** From tab A the stored workflow predicts tab B. *)
Lemma predictNextTab_sound_witness :
  exists p,
    predictNextTab 1 Examples.twoTabs storedWorkflows = Some p
    /\ n_workflow p ∈ storedWorkflows
    /\ Db.isActive (Db.tab_flags (n_tab p)) = true.
Proof.
  destruct (predictNextTab 1 Examples.twoTabs storedWorkflows) as [p|] eqn:E.
  - exists p. split; [done|].
    destruct (predictNextTab_sound 1 Examples.twoTabs storedWorkflows p E)
      as (currentTab & i & _ & Hw & _ & _ & _ & Ha & _).
    by split.
  - vm_compute in E. discriminate E.
Defined.

(** *** Statistics *)

(** X17. In the statistics of [getWorkflowStats] the three confidence
    classes add up to the number of workflows, the most frequent workflow
    is a stored one that no other exceeds in frequency (and is missing
    only when nothing is stored), and the average frequency times the
    number of workflows is the sum of the frequencies. *)
Theorem getWorkflowStats_consistent (workflows : list (string * Workflow)) :
  let stats := getWorkflowStats workflows in
  (highConfidence stats + mediumConfidence stats + lowConfidence stats
   = totalWorkflows stats)%nat
  /\ match mostFrequent stats with
     | Some top =>
         top ∈ workflows
         /\ forall w, w ∈ workflows -> (frequency w.2 <= frequency top.2)%nat
     | None => workflows = []
     end
  /\ (avgFrequency stats * inject_Z (Z.of_nat (length workflows))
      == inject_Z (Z.of_nat (sum_list ((fun w => frequency w.2) <$> workflows))))%Q.
Proof.
  cbv zeta. unfold getWorkflowStats.
  cbn [highConfidence mediumConfidence lowConfidence totalWorkflows
       mostFrequent avgFrequency].
  split_and!.
  - induction workflows as [|w l IH]; [done|].
    rewrite !filter_cons. cbn [length]. rewrite <- IH.
    unfold Qltb.
    destruct (Qle_bool 0.7 (confidence w.2)) eqn:E7;
      destruct (Qle_bool 0.4 (confidence w.2)) eqn:E4;
      repeat (case_decide; try done); cbn [length]; try lia.
    all: exfalso.
    all: try (apply Qle_bool_iff in E7).
    all: try (apply Qle_bool_iff in E4).
    all: try (apply not_true_iff_false in E4; apply E4, Qle_bool_iff; Lqa.lra).
    all: simpl in *; done.
  - destruct workflows as [|w0 l] eqn:E; [done|]. rewrite <- E.
    replace (0 <? length workflows)%nat with true by (by rewrite E).
    destruct (head _) as [top|] eqn:Eh.
    + apply sort_head_first in Eh as [Hin Hmax].
      * split; [done|]. intros w Hw. specialize (Hmax w Hw).
        unfold notAfter, Qle in Hmax. simpl in Hmax. lia.
      * intros a b. unfold notAfter, Qle. simpl. lia.
      * intros a b c. unfold notAfter, Qle. simpl. lia.
    + exfalso. pose proof (sort_length (fun a b : string * Workflow =>
        inject_Z (Z.of_nat (frequency b.2) - Z.of_nat (frequency a.2)))
        workflows) as Hl.
      destruct (sort _ workflows); [|done]. rewrite E in Hl. done.
  - assert (Hsum : forall acc l,
      foldl (fun sum (w : string * Workflow) => (sum + frequency w.2)%nat) acc l
      = (acc + sum_list ((fun w => frequency w.2) <$> l))%nat).
    { intros acc l. revert acc. induction l as [|w l IH]; intros acc.
      - simpl. lia.
      - cbn [foldl]. rewrite IH, fmap_cons. cbn [sum_list sum_list_with]. unfold Datatypes.id. lia. }
    rewrite Hsum. simpl (0 + _)%nat.
    destruct workflows as [|w0 l] eqn:E; [done|]. rewrite <- E.
    replace (0 <? length workflows)%nat with true by (by rewrite E).
    rewrite Qmult_comm, Qmult_div_r; [done|].
    rewrite E. unfold Qeq. simpl. lia.
Qed.

End SequenceFacts.

(** ** Further properties of the scorers *)

Module SignalFacts.
Import Js JsFacts Db Relationships Scoring ScoringSpec SignalSpec HybridOverlap
  ScoringExamples RelationshipsFacts ScoringFacts.
Local Open Scope Q_scope.

Lemma shared_comm_length s1 s2 :
  NoDup s1 -> NoDup s2 -> length (shared s1 s2) = length (shared s2 s1).
Proof.
  intros H1 H2. apply Permutation_length, NoDup_Permutation.
  - by apply NoDup_filter.
  - by apply NoDup_filter.
  - intros e. unfold shared, has. rewrite !list_elem_of_filter.
    rewrite !bool_decide_eq_true. tauto.
Qed.

Lemma newSet_app_comm_length s1 s2 :
  length (newSet (s1 ++ s2)) = length (newSet (s2 ++ s1)).
Proof.
  apply Permutation_length, NoDup_Permutation; try apply newSet_NoDup.
  intros e. rewrite !newSet_elem, !elem_of_app. tauto.
Qed.

Lemma overlapOf_range proj perCommon maxBonus a b st :
  0 < perCommon -> 0 <= maxBonus ->
  0 <= overlapOf proj perCommon maxBonus a b st <= 1.
Proof.
  intros Hp Hm. unfold overlapOf. cbv zeta.
  destruct (negb _ && negb _); [done|].
  destruct (_ || _)%bool eqn:Elen; [done|].
  apply orb_false_iff in Elen as [E1 E2]. apply Nat.eqb_neq in E1, E2.
  set (current := loweredSet proj (getTabByTabId a st)) in *.
  set (candidate := loweredSet proj (getTabByTabId b st)) in *.
  assert (Hu : (0 < length (newSet (current ++ candidate)))%nat).
  { destruct current as [|e l]; [done|].
    assert (He : e ∈ newSet ((e :: l) ++ candidate)).
    { apply newSet_elem. left. }
    destruct (newSet ((e :: l) ++ candidate)); [by apply elem_of_nil in He|].
    simpl. lia. }
  split; [|apply Q.le_min_r].
  apply Q.min_glb; [|done].
  assert (0 <= inject_Z (Z.of_nat (length (shared current candidate)))
               / inject_Z (Z.of_nat (length (newSet (current ++ candidate))))).
  { apply Qle_shift_div_l.
    - unfold Qlt. simpl. lia.
    - rewrite Qmult_0_l. unfold Qle. simpl. lia. }
  assert (0 <= Qmin (inject_Z (Z.of_nat (length (shared current candidate)))
                     / perCommon) maxBonus).
  { apply Q.min_glb; [|done]. apply Qle_shift_div_l; [done|].
    rewrite Qmult_0_l. unfold Qle. simpl. lia. }
  Lqa.lra.
Qed.

Lemma overlapOf_sym proj perCommon maxBonus a b st :
  overlapOf proj perCommon maxBonus a b st
  = overlapOf proj perCommon maxBonus b a st.
Proof.
  unfold overlapOf. cbv zeta.
  rewrite (andb_comm (negb (tabIndexed (getTabByTabId a st)))).
  destruct (negb _ && negb _); [done|].
  rewrite (orb_comm (length (loweredSet proj (getTabByTabId a st)) =? 0)%nat).
  destruct (_ || _)%bool; [done|].
  rewrite (shared_comm_length (loweredSet proj (getTabByTabId a st)))
    by apply newSet_NoDup.
  by rewrite (newSet_app_comm_length (loweredSet proj (getTabByTabId a st))).
Qed.

(** X18. The entity overlap and the topic overlap of two tabs lie between
    0 and 1, do not depend on which of the two tabs is the current one,
    and are 0 when neither tab is indexed. *)
Theorem overlap_signals_range_and_symmetry (a b : Z) (st : State) :
  0 <= calculateEntityOverlap a b st <= 1
  /\ 0 <= calculateTopicOverlap a b st <= 1
  /\ calculateEntityOverlap a b st = calculateEntityOverlap b a st
  /\ calculateTopicOverlap a b st = calculateTopicOverlap b a st
  /\ (tabIndexed (getTabByTabId a st) = false ->
      tabIndexed (getTabByTabId b st) = false ->
      calculateEntityOverlap a b st = 0 /\ calculateTopicOverlap a b st = 0).
Proof.
  unfold calculateEntityOverlap, calculateTopicOverlap. split_and!.
  - by apply overlapOf_range.
  - by apply overlapOf_range.
  - by apply overlapOf_range.
  - by apply overlapOf_range.
  - apply overlapOf_sym.
  - apply overlapOf_sym.
  - intros Ha Hb. unfold overlapOf. cbv zeta. by rewrite Ha, Hb.
Qed.

(** *** The range of the scores *)

Lemma calculateHybridScore_bounds sig c :
  hybridSignalsInRange sig c -> 0 <= calculateHybridScore sig c <= 1.
Proof.
  unfold hybridSignalsInRange, calculateHybridScore.
  intros (H1 & H2 & H3 & H4 & H5 & H6). split; Lqa.lra.
Qed.

Lemma hybridScored_elem sig cur allTabs wp s :
  s ∈ hybridScored sig cur allTabs wp ->
  candidate s ∈ allTabs /\ id (candidate s) <> id cur
  /\ (score s = calculateHybridScore sig (candidate s)
      \/ exists p, wp = Some p
           /\ score s = calculateHybridScore sig (candidate s)
                        + 0.3 * predictionConfidence p).
Proof.
  unfold hybridScored. intros Hs.
  apply list_elem_of_In, in_map_iff in Hs as (c & <- & Hc).
  apply list_elem_of_In, list_elem_of_filter in Hc as [Hne Hc].
  cbn [candidate score]. split_and!; try done.
  destruct wp as [p|]; [|by left].
  case_bool_decide; [right; by exists p|by left].
Qed.

(** X19. The weights of the hybrid score add up to 1: with the six
    signals of every open tab between 0 and 1, every suggestion of
    [getHybridSuggestions] is an open tab other than the current one with a
    score between 0 and 1.3, and at most 1 when no workflow prediction is
    passed; a candidate whose six signals are all 1 has the weighted sum
    1. *)
Theorem getHybridSuggestions_score_range (sig : HybridSignals)
    (currentTab : BrowserTab) (allTabs : list BrowserTab)
    (workflowPrediction : option Prediction) :
  (forall c, c ∈ allTabs -> hybridSignalsInRange sig c) ->
  (forall p, workflowPrediction = Some p -> 0 <= predictionConfidence p <= 1) ->
  (forall s, s ∈ getHybridSuggestions sig currentTab allTabs workflowPrediction ->
     candidate s ∈ allTabs /\ id (candidate s) <> id currentTab
     /\ 0 <= score s <= 1.3
     /\ (workflowPrediction = None -> score s <= 1))
  /\ (forall c,
        h_tfidf sig c == 1 -> h_cosine sig c == 1 -> h_entities sig c == 1 ->
        h_topics sig c == 1 -> h_relationship sig c == 1 ->
        h_behavioral sig c == 1 ->
        calculateHybridScore sig c == 1).
Proof.
  intros Hsig Hconf. split.
  - intros s Hs. unfold getHybridSuggestions, topSuggestions in Hs.
    apply elem_of_take in Hs as (i & Hs & _).
    apply list_elem_of_lookup_2, sort_elem in Hs.
    apply hybridScored_elem in Hs as (Hin & Hne & Hscore).
    pose proof (calculateHybridScore_bounds sig _ (Hsig _ Hin)) as Hb.
    split_and!; try done.
    + destruct Hscore as [->|(p & Hp & ->)]; [apply Hb|].
      specialize (Hconf p Hp). Lqa.lra.
    + destruct Hscore as [->|(p & Hp & ->)]; [Lqa.lra|].
      specialize (Hconf p Hp). Lqa.lra.
    + intros Hnone. destruct Hscore as [->|(p & Hp & ->)]; [apply Hb|].
      congruence.
  - intros c H1 H2 H3 H4 H5 H6. unfold calculateHybridScore.
    rewrite H1, H2, H3, H4, H5, H6. reflexivity.
Qed.

Lemma getHybridSuggestions_score_range_witness :
  exists s,
    s ∈ getHybridSuggestions halfHybrid (openTab 1 600000) openTabs None
    /\ 0 <= score s <= 1.3.
Proof.
  destruct (getHybridSuggestions halfHybrid (openTab 1 600000) openTabs None)
    as [|s rest] eqn:E.
  - vm_compute in E. discriminate E.
  - exists s. split; [left|].
    assert (Hs : s ∈ getHybridSuggestions halfHybrid (openTab 1 600000)
                       openTabs None) by (rewrite E; left).
    destruct (getHybridSuggestions_score_range halfHybrid (openTab 1 600000)
                openTabs None) as [Hall _].
    + intros c _. unfold hybridSignalsInRange. simpl. repeat split; done.
    + intros p Hp. discriminate Hp.
    + by destruct (Hall s Hs) as (_ & _ & Hr & _).
Defined.

Lemma floorMinute_mono a b : (a <= b)%Z -> (floorMinute a <= floorMinute b)%Z.
Proof.
  intros H. unfold floorMinute, oneMinute.
  apply Z.mul_le_mono_nonneg_r; [lia|]. apply Z.div_le_mono; lia.
Qed.

Lemma calculateTemporalProximity_range now cur c :
  0 <= calculateTemporalProximity now cur c <= 1.
Proof.
  unfold calculateTemporalProximity. cbv zeta.
  set (d := Z.abs _).
  assert (Hd : 0 <= inject_Z d / inject_Z (30 * 60 * 1000)).
  { apply Qle_shift_div_l; [done|]. rewrite Qmult_0_l.
    replace 0 with (inject_Z 0) by done. rewrite <- Zle_Qle. lia. }
  set (x := inject_Z d / inject_Z (30 * 60 * 1000)) in *.
  pose proof (Q.le_max_l 0 (1 - x)) as Hl.
  assert (Hu : Qmax 0 (1 - x) <= 1) by (apply Q.max_lub; [done|Lqa.lra]).
  split; Lqa.nra.
Qed.

Lemma calculateAccessFrequency_range c :
  (forall n, accessCount c = Some n -> (0 <= n)%Z) ->
  0 <= calculateAccessFrequency c <= 1.
Proof.
  intros Hn. unfold calculateAccessFrequency. cbv zeta.
  split; [|apply Q.le_min_r]. apply Q.min_glb; [|done].
  apply Qle_shift_div_l; [done|]. rewrite Qmult_0_l.
  replace 0 with (inject_Z 0) by done. rewrite <- Zle_Qle.
  unfold orElse. destruct (accessCount c) as [v|]; [|done].
  destruct (v =? 0)%Z; [done|]. by apply Hn.
Qed.

Lemma calculateRecencyScore_range now c :
  (0 <= now)%Z ->
  (forall t, lastAccessed c = Some t -> (t <= now)%Z) ->
  0 <= calculateRecencyScore now c <= 1.
Proof.
  intros Hnow Ht. unfold calculateRecencyScore. cbv zeta.
  split; [apply Q.le_max_l|]. apply Q.max_lub; [done|].
  assert (Hle : (floorMinute (orElse (lastAccessed c) 0) <= floorMinute now)%Z).
  { apply floorMinute_mono. unfold orElse.
    destruct (lastAccessed c) as [v|]; [|done].
    destruct (v =? 0)%Z; [done|]. by apply Ht. }
  assert (0 <= inject_Z (floorMinute now - floorMinute (orElse (lastAccessed c) 0))
               / inject_Z (1000 * 60 * 60)).
  { apply Qle_shift_div_l; [done|]. rewrite Qmult_0_l.
    replace 0 with (inject_Z 0) by done. rewrite <- Zle_Qle. lia. }
  set (h := inject_Z _ / inject_Z (1000 * 60 * 60)) in *.
  assert (0 <= h / 24).
  { apply Qle_shift_div_l; [done|]. Lqa.lra. }
  Lqa.lra.
Qed.

(** X20. The temporal proximity of two tabs always lies between 0 and 1.
    For a candidate accessed no later than now, with an access count that
    is not negative, and signals from the index and the stores in their
    ranges, the lite score lies between 0 and 0.95, and between 0 and 0.75
    as long as the cold start is not done. *)
Theorem liteScore_range (sig : LiteSignals) (now : Z)
    (currentTab candidateTab : BrowserTab) :
  liteSignalsInRange sig candidateTab ->
  plausibleTimes now candidateTab ->
  0 <= calculateTemporalProximity now currentTab candidateTab <= 1
  /\ 0 <= calculateAccessFrequency candidateTab <= 1
  /\ 0 <= calculateRecencyScore now candidateTab <= 1
  /\ 0 <= liteScore sig now currentTab candidateTab <= 0.95
  /\ (l_coldStartDone sig = false ->
      liteScore sig now currentTab candidateTab <= 0.75).
Proof.
  intros (Hb & Hc & Ha & Hh) (Hnow & Ht & Hn).
  pose proof (calculateTemporalProximity_range now currentTab candidateTab) as H1.
  pose proof (calculateAccessFrequency_range candidateTab Hn) as H2.
  pose proof (calculateRecencyScore_range now candidateTab Hnow Ht) as H3.
  split_and!; try apply H1; try apply H2; try apply H3.
  all: unfold liteScore; cbv zeta.
  all: assert (Hq : 0 <= Qmin (l_bm25 sig candidateTab / 10) 1 <= 1)
    by (split; [apply Q.min_glb; [apply Qle_shift_div_l; [done|Lqa.lra]|done]
               |apply Q.le_min_r]).
  - destruct (l_coldStartDone sig); Lqa.lra.
  - destruct (l_coldStartDone sig); Lqa.lra.
  - intros ->. Lqa.lra.
Qed.

Lemma liteScore_range_witness :
  0 <= liteScore halfLite 600000 (openTab 1 600000) (openTab 2 540000) <= 0.95.
Proof.
  destruct (liteScore_range halfLite 600000 (openTab 1 600000)
              (openTab 2 540000)) as (_ & _ & _ & H & _).
  - unfold liteSignalsInRange. simpl. repeat split; done.
  - unfold plausibleTimes. simpl. split; [done|].
    split; intros ? [= <-]; done.
  - exact H.
Defined.

(** *** The order of the open tabs *)

Lemma scored_ids (f : BrowserTab -> Q) (P : BrowserTab -> Prop)
    `{!forall t, Decision (P t)} (allTabs : list BrowserTab) :
  NoDup (id <$> allTabs) ->
  NoDup ((fun s => id (candidate s)) <$>
           map (fun c => {| candidate := c; score := f c |}) (filter P allTabs)).
Proof.
  intros Hnd. change (map ?g ?l) with (g <$> l).
  rewrite <- list_fmap_compose.
  eapply sublist_NoDup; [exact Hnd|].
  apply fmap_sublist, sublist_filter.
Qed.



End SignalFacts.

(** ** The text index *)

Module TfidfFacts.
Import Js JsFacts Tfidf TfidfSpec TfidfExamples.

(** *** Serialization *)

Lemma newMap_lookup entries (acc : gmap string nat) k :
  NoDup entries.*1 ->
  foldl (fun m entry => <[entry.1 := entry.2]> m) acc entries !! k
  = match (list_to_map entries : gmap string nat) !! k with
    | Some v => Some v
    | None => acc !! k
    end.
Proof.
  revert acc. induction entries as [|[k' v] entries IH]; intros acc Hnd.
  - simpl. by rewrite lookup_empty.
  - apply NoDup_cons in Hnd as [Hk' Hnd]. simpl. rewrite IH by done.
    destruct (decide (k' = k)) as [->|Hne].
    + rewrite (proj1 (not_elem_of_list_to_map _ _) Hk').
      by rewrite !lookup_insert_eq.
    + rewrite (lookup_insert_ne (list_to_map entries)) by done.
      destruct (list_to_map entries !! k); [done|].
      by rewrite lookup_insert_ne.
Qed.

(** Listing a map and building a map from the listing gives the map back. *)
Lemma newMap_arrayFrom m : newMap (arrayFrom m) = m.
Proof.
  apply map_eq. intros k. unfold newMap, arrayFrom.
  rewrite newMap_lookup by apply NoDup_fst_map_to_list.
  rewrite list_to_map_to_list, lookup_empty. by destruct (m !! k).
Qed.

Lemma deserialize_serialize x : deserialize (serialize x) = x.
Proof.
  destruct x as [docs df tfs gtf total].
  unfold deserialize, serialize. simpl. rewrite !newMap_arrayFrom.
  f_equal. rewrite map_map. simpl.
  induction tfs as [|[i tf ts u t md] tfs IH]; simpl; [done|].
  by rewrite IH, newMap_arrayFrom.
Qed.

(** C4. For every index [x], the index read back from its serialized form
    has the same documents, document-frequency map, global term-frequency
    map, total term count and per-document records as [x], so [bm25] and
    [cosineSimilarity] return on it what they return on [x], for every
    query, document ids and parameters. *)
Theorem serialize_round_trip (x : TFIDF) :
  let y := deserialize (serialize x) in
  documents y = documents x
  /\ documentFreq y = documentFreq x
  /\ globalTermFreq y = globalTermFreq x
  /\ totalTermCount y = totalTermCount x
  /\ termFreqs y = termFreqs x
  /\ (forall queryText documentId k1 b,
        bm25 y queryText documentId k1 b = bm25 x queryText documentId k1 b)
  /\ (forall doc1Id doc2Id,
        cosineSimilarity y doc1Id doc2Id = cosineSimilarity x doc1Id doc2Id).
Proof.
  intros y. subst y. rewrite deserialize_serialize. by split_and!.
Qed.

(** *** Removing an unknown document *)

(** C10. For every index and every id that no stored document has,
    [removeDocument] returns the index as it is: the document list, the
    per-document records, the document-frequency map, the global
    term-frequency map and the total term count are unchanged, and so are
    the results of [bm25] and [cosineSimilarity]. *)
Theorem removeDocument_unknown_id (id : Z) (x : TFIDF) :
  id ∉ doc_id <$> documents x ->
  removeDocument id x = Some x
  /\ forall x', removeDocument id x = Some x' ->
       documents x' = documents x
       /\ termFreqs x' = termFreqs x
       /\ documentFreq x' = documentFreq x
       /\ globalTermFreq x' = globalTermFreq x
       /\ totalTermCount x' = totalTermCount x
       /\ (forall queryText documentId k1 b,
             bm25 x' queryText documentId k1 b
             = bm25 x queryText documentId k1 b)
       /\ (forall doc1Id doc2Id,
             cosineSimilarity x' doc1Id doc2Id
             = cosineSimilarity x doc1Id doc2Id).
Proof.
  intros Hid.
  assert (Hrm : removeDocument id x = Some x).
  { unfold removeDocument.
    rewrite (proj2 (list_find_None _ _)); [done|].
    apply Forall_forall. intros d Hd Heq. apply Hid.
    rewrite <- Heq. by apply list_elem_of_fmap_2. }
  split; [done|]. intros x'. rewrite Hrm. intros [= <-]. by split_and!.
Qed.

(** On the index holding the one document 1, removing document 2. *)
Lemma removeDocument_unknown_id_witness :
  removeDocument 2 fruitIndex = Some fruitIndex.
Proof.
  apply (removeDocument_unknown_id 2 fruitIndex).
  apply (bool_decide_unpack _). vm_compute. exact I.
Defined.

(** *** The invariant of the index *)

Lemma getOr0_countOpt m t n : m !! t = countOpt n -> getOr0 m t = n.
Proof. unfold getOr0. intros ->. by destruct n. Qed.

Lemma bumpDocumentFreq_lookup m term t :
  bumpDocumentFreq m term !! t
  = if decide (t = term) then Some (getOr0 m term + 1) else m !! t.
Proof.
  unfold bumpDocumentFreq. case_bool_decide as Hs.
  - case_decide as Ht; [subst; by rewrite lookup_insert_eq|].
    by rewrite lookup_insert_ne.
  - assert (Hn : m !! term = None).
    { destruct (m !! term) eqn:E; [|done]. exfalso. apply Hs. eauto. }
    unfold getOr0. rewrite lookup_insert_eq, Hn. simpl.
    case_decide as Ht; [subst; by rewrite lookup_insert_eq|].
    by rewrite !lookup_insert_ne.
Qed.

Lemma foldl_bump_lookup ts m t :
  NoDup ts ->
  foldl bumpDocumentFreq m ts !! t
  = if decide (t ∈ ts) then Some (getOr0 m t + 1) else m !! t.
Proof.
  revert m. induction ts as [|a ts IH]; intros m Hnd; cbn [foldl].
  - by rewrite decide_False by apply not_elem_of_nil.
  - apply NoDup_cons in Hnd as [Ha Hnd]. rewrite IH by done.
    unfold getOr0 at 1. rewrite bumpDocumentFreq_lookup.
    destruct (decide (t ∈ ts)) as [Hin|Hin];
      destruct (decide (t = a)) as [Heq|Hne];
      destruct (decide (_ ∈ a :: ts)) as [Hcons|Hcons]; simpl.
    + exfalso. by subst t.
    + exfalso. by subst t.
    + done.
    + exfalso. apply Hcons. by right.
    + by subst t.
    + exfalso. apply Hcons. subst t. left.
    + exfalso. apply elem_of_cons in Hcons. by destruct Hcons.
    + done.
Qed.

Lemma foldl_drop_lookup ts m :
  NoDup ts ->
  (forall t, t ∈ ts -> is_Some (m !! t)) ->
  exists m', foldl dropDocumentFreq (Some m) ts = Some m'
    /\ forall t, m' !! t
         = if decide (t ∈ ts) then droppedCount (m !! t) else m !! t.
Proof.
  revert m. induction ts as [|a ts IH]; intros m Hnd Hsome; cbn [foldl].
  - exists m. split; [done|]. intros t.
    by rewrite decide_False by apply not_elem_of_nil.
  - apply NoDup_cons in Hnd as [Ha Hnd].
    destruct (Hsome a) as [freq Hfreq]; [left|].
    cbn [dropDocumentFreq]. rewrite Hfreq.
    set (m1 := if (freq <=? 1)%nat then delete a m
               else <[a := (freq - 1)%nat]> m).
    assert (Hm1 : forall t, m1 !! t
              = if decide (t = a) then droppedCount (m !! t) else m !! t).
    { intros t. subst m1. case_decide as Ht.
      - subst t. rewrite Hfreq. simpl.
        destruct (freq <=? 1)%nat;
          [by rewrite lookup_delete_eq|by rewrite lookup_insert_eq].
      - destruct (freq <=? 1)%nat;
          [by rewrite lookup_delete_ne|by rewrite lookup_insert_ne]. }
    destruct (IH m1 Hnd) as (m' & Hfold & Hm').
    { intros t Ht. rewrite Hm1, decide_False by (by intros ->).
      apply Hsome. by right. }
    exists m'. split.
    { subst m1. by destruct (freq <=? 1)%nat. }
    intros t. rewrite Hm', Hm1.
    destruct (decide (t ∈ ts)) as [Hin|Hin];
      destruct (decide (t = a)) as [Heq|Hne];
      destruct (decide (_ ∈ a :: ts)) as [Hcons|Hcons]; simpl.
    + exfalso. by subst t.
    + exfalso. by subst t.
    + done.
    + exfalso. apply Hcons. by right.
    + by subst t.
    + exfalso. apply Hcons. subst t. left.
    + exfalso. apply elem_of_cons in Hcons. by destruct Hcons.
    + done.
Qed.

Lemma docCount_snoc t recs d :
  docCount t (recs ++ [d])
  = (docCount t recs + if decide (t ∈ terms d) then 1 else 0)%nat.
Proof.
  unfold docCount. rewrite filter_app, length_app. f_equal.
  rewrite filter_cons, filter_nil. by case_decide.
Qed.

Lemma docCount_delete t recs i d :
  recs !! i = Some d ->
  docCount t recs
  = (docCount t (delete i recs) + if decide (t ∈ terms d) then 1 else 0)%nat.
Proof.
  intros Hi. rewrite <- (take_drop_middle recs i d Hi) at 1.
  assert (Hdel : delete i recs = take i recs ++ drop (S i) recs).
  { rewrite <- (take_drop_middle recs i d Hi) at 1.
    assert (Hlen : length (take i recs) = i).
    { apply length_take_le. apply lookup_lt_Some in Hi. lia. }
    rewrite <- Hlen at 1. apply delete_middle. }
  rewrite Hdel. unfold docCount.
  rewrite !filter_app, filter_cons, !length_app.
  case_decide; simpl; lia.
Qed.

Lemma docCount_le t recs : (docCount t recs <= length recs)%nat.
Proof. unfold docCount. apply length_filter. Qed.

Lemma wf_empty : wf_index empty.
Proof. split; [done|constructor|done]. Qed.

Lemma wf_addDocument text id metadata x :
  wf_index x -> wf_index (addDocument text id metadata x).
Proof.
  intros [Hids Hrecs Hdf]. unfold addDocument.
  set (allTerms := _ ++ _ ++ _).
  split; simpl.
  - rewrite !fmap_app. simpl. by rewrite Hids.
  - apply Forall_app. split; [done|]. by repeat constructor.
  - intros t. rewrite foldl_bump_lookup by apply newSet_NoDup.
    rewrite docCount_snoc. simpl.
    rewrite (getOr0_countOpt _ _ _ (Hdf t)).
    destruct (decide (t ∈ newSet allTerms)) as [Hin|Hin].
    + rewrite decide_True by (by apply (proj1 (newSet_elem _ _))).
      by rewrite Nat.add_1_r.
    + rewrite decide_False by (intros Hin'; by apply Hin, (proj2 (newSet_elem _ _))).
      by rewrite Nat.add_0_r.
Qed.

(** On a well-formed index [removeDocument] stays within the model, and
    what it returns is well formed. *)
Lemma wf_removeDocument id x :
  wf_index x ->
  exists x', removeDocument id x = Some x' /\ wf_index x'.
Proof.
  intros [Hids Hrecs Hdf]. unfold removeDocument.
  destruct (list_find _ (documents x)) as [[index d0]|] eqn:Ef.
  2: { exists x. by split. }
  apply list_find_Some in Ef as (Hd0 & _ & _).
  assert (Hlen : length (documents x) = length (termFreqs x)).
  { by rewrite <- (length_fmap doc_id), Hids, length_fmap. }
  destruct (termFreqs x !! index) as [doc|] eqn:Edoc.
  2: { apply lookup_ge_None in Edoc. apply lookup_lt_Some in Hd0. lia. }
  destruct (foldl_drop_lookup (newSet (terms doc)) (documentFreq x))
    as (m' & -> & Hm').
  { apply newSet_NoDup. }
  { intros t Ht. apply (proj1 (newSet_elem _ _)) in Ht. rewrite Hdf.
    rewrite (docCount_delete t _ _ _ Edoc), decide_True by done.
    rewrite Nat.add_1_r. simpl. eauto. }
  eexists. split; [reflexivity|]. split; simpl.
  - by rewrite !list_fmap_delete, Hids.
  - by apply Forall_delete.
  - intros t. rewrite Hm', Hdf, (docCount_delete t _ _ _ Edoc).
    destruct (decide (t ∈ newSet (terms doc))) as [Hin|Hin].
    + rewrite decide_True by (by apply (proj1 (newSet_elem _ _))).
      rewrite Nat.add_1_r. simpl.
      by destruct (docCount t (delete index (termFreqs x))) as [|n].
    + rewrite decide_False by (intros Hin'; by apply Hin, (proj2 (newSet_elem _ _))).
      by rewrite Nat.add_0_r.
Qed.

Lemma reachable_wf x : reachable x -> wf_index x.
Proof.
  induction 1 as [|text id md x _ IH|id x x' _ IH Hrm|x _ IH].
  - apply wf_empty.
  - by apply wf_addDocument.
  - destruct (wf_removeDocument id x IH) as (x'' & Hrm' & Hwf). congruence.
  - by rewrite deserialize_serialize.
Qed.

(** *** Adding a document and removing it again *)

Lemma foldl_countTerm_getOr0 tokens m t :
  getOr0 (foldl countTerm m tokens) t = (getOr0 m t + occurrences t tokens)%nat.
Proof.
  revert m. induction tokens as [|a tokens IH]; intros m; cbn [foldl].
  - unfold occurrences. simpl. lia.
  - rewrite IH. unfold occurrences. rewrite filter_cons.
    unfold countTerm, getOr0 at 1.
    destruct (decide (a = t)) as [->|Hne].
    + rewrite lookup_insert_eq. simpl. unfold getOr0. lia.
    + rewrite lookup_insert_ne by done. unfold getOr0. lia.
Qed.

Lemma delete_snoc {A} (l : list A) a : delete (length l) (l ++ [a]) = l.
Proof. by rewrite delete_middle, app_nil_r. Qed.

(** C3, as the code has it. For every well-formed index [x] (every index
    built by the operations of the class is) and every document whose id no
    stored document has, [addDocument] followed by [removeDocument] of that
    id stays within the model and restores the document list, the records
    and the whole document-frequency map, a term whose count returns to
    zero having no entry; the global term-frequency map and the total term
    count keep the increments of the add. *)
Theorem add_then_remove_restores_documentFreq
    (text : string) (id : Z) (metadata : Metadata) (x : TFIDF) :
  wf_index x ->
  id ∉ doc_id <$> documents x ->
  exists x',
    removeDocument id (addDocument text id metadata x) = Some x'
    /\ documentFreq x' = documentFreq x
    /\ (forall t, documentFreq x' !! t <> Some 0%nat)
    /\ documents x' = documents x
    /\ termFreqs x' = termFreqs x
    /\ globalTermFreq x' = globalTermFreq (addDocument text id metadata x)
    /\ (forall t, getOr0 (globalTermFreq x') t
                  = (getOr0 (globalTermFreq x) t
                     + occurrences t (tokenize text))%nat)
    /\ totalTermCount x'
       = (totalTermCount x + length (tokenize text))%nat.
Proof.
  intros [Hids Hrecs Hdf] Hid.
  assert (Hlen : length (documents x) = length (termFreqs x)).
  { by rewrite <- (length_fmap doc_id), Hids, length_fmap. }
  unfold removeDocument, addDocument.
  set (allTerms := _ ++ _ ++ _). cbn [documents termFreqs documentFreq].
  set (newDoc := {| doc_id := id; doc_text := text; doc_metadata := metadata |}).
  assert (Hfind : list_find (fun d => doc_id d = id) (documents x ++ [newDoc])
                  = Some (length (documents x), newDoc)).
  { rewrite list_find_app_r.
    - simpl. rewrite decide_True by done. simpl. done.
    - apply list_find_None, Forall_forall. intros d Hd Heq. apply Hid.
      rewrite <- Heq. by apply list_elem_of_fmap_2. }
  rewrite Hfind, Hlen, list_lookup_middle by done.
  cbn [terms].
  destruct (foldl_drop_lookup (newSet allTerms)
              (foldl bumpDocumentFreq (documentFreq x) (newSet allTerms)))
    as (m' & -> & Hm').
  { apply newSet_NoDup. }
  { intros t Ht. rewrite foldl_bump_lookup by apply newSet_NoDup.
    rewrite decide_True by done. eauto. }
  assert (Hrestored : m' = documentFreq x).
  { apply map_eq. intros t. rewrite Hm'.
    rewrite foldl_bump_lookup by apply newSet_NoDup.
    destruct (decide (t ∈ newSet allTerms)); [|done].
    rewrite (getOr0_countOpt _ _ _ (Hdf t)), Hdf.
    destruct (docCount t (termFreqs x)) as [|n]; [done|]. simpl.
    by rewrite Nat.add_1_r. }
  eexists. split; [reflexivity|]. cbn. split_and!.
  - done.
  - intros t. rewrite Hrestored, Hdf.
    by destruct (docCount t (termFreqs x)).
  - rewrite <- Hlen. apply delete_snoc.
  - apply delete_snoc.
  - done.
  - intros t. apply foldl_countTerm_getOr0.
  - done.
Qed.

(** The theorem at the one-document index and a document with a new id. *)
Lemma add_then_remove_restores_documentFreq_witness :
  exists x',
    removeDocument 2 (addDocument "banana cherry date" 2 [] fruitIndex) = Some x'
    /\ documentFreq x' = documentFreq fruitIndex.
Proof.
  destruct (add_then_remove_restores_documentFreq
              "banana cherry date" 2 [] fruitIndex) as (x' & Hrm & Hdf & _).
  - apply reachable_wf. apply reach_add, reach_empty.
  - apply (bool_decide_unpack _). vm_compute. exact I.
  - exists x'. by split.
Defined.

(** Without the condition on the id the restoration fails: the index
    already holds a document with id 1; after adding another document under
    id 1 and removing id 1, the document that is gone is the older one, and
    the term [delta] of the added document, which had no document frequency
    before the add, has document frequency 1. *)
Lemma add_then_remove_same_id_keeps_added_terms :
  exists x',
    removeDocument 1 (addDocument "delta epsilon zeta" 1 [] fruitIndex) = Some x'
    /\ documentFreq fruitIndex !! "delta" = None
    /\ documentFreq x' !! "delta" = Some 1%nat
    /\ documentFreq fruitIndex !! "apple" = Some 1%nat
    /\ documentFreq x' !! "apple" = None
    /\ doc_text <$> documents x' = ["delta epsilon zeta"].
Proof.
  eexists. split; [vm_compute; reflexivity|].
  split_and!; vm_compute; reflexivity.
Qed.

(** *** BM25 *)

Section bm25_facts.
Local Open Scope R_scope.

Lemma ln_nonneg r : 1 <= r -> 0 <= ln r.
Proof.
  intros [Hlt|<-]; [|rewrite ln_1; lra].
  left. rewrite <- ln_1. apply ln_increasing; lra.
Qed.

Lemma foldl_sum_totalTerms recs acc :
  foldl (fun sum d => (sum + totalTerms d)%nat) acc recs
  = (acc + sum_list (totalTerms <$> recs))%nat.
Proof.
  revert acc. induction recs as [|d recs IH]; intros acc; csimpl; [lia|].
  rewrite IH. lia.
Qed.

Lemma avgDocLength_averageLength x : avgDocLength x = averageLength x.
Proof.
  unfold avgDocLength, averageLength. by rewrite foldl_sum_totalTerms.
Qed.

Lemma sum_list_elem (recs : list TermFreqRecord) d :
  d ∈ recs -> (totalTerms d <= sum_list (totalTerms <$> recs))%nat.
Proof.
  induction recs as [|d' recs IH]; csimpl.
  - by intros ?%elem_of_nil.
  - intros [->|Hin]%elem_of_cons; [lia|]. specialize (IH Hin). lia.
Qed.

Lemma docCount_pos t recs d :
  d ∈ recs -> t ∈ terms d -> (0 < docCount t recs)%nat.
Proof.
  intros Hd Ht. unfold docCount.
  assert (Hin : d ∈ filter (fun d => t ∈ terms d) recs)
    by (by apply list_elem_of_filter).
  destruct (filter _ recs); [by apply elem_of_nil in Hin|simpl; lia].
Qed.

Lemma occurrences_pos t tokens :
  (0 < occurrences t tokens)%nat -> t ∈ tokens.
Proof.
  unfold occurrences. intros Hpos.
  destruct (filter (fun token => token = t) tokens) as [|a l] eqn:E;
    [simpl in Hpos; lia|].
  assert (Ha : a ∈ filter (fun token => token = t) tokens)
    by (rewrite E; left).
  apply list_elem_of_filter in Ha as [-> Ha]. done.
Qed.

Lemma findRecord_elem x documentId doc :
  findRecord x documentId = Some doc -> doc ∈ termFreqs x.
Proof.
  unfold findRecord. intros [Hin _]%find_some. by apply list_elem_of_In.
Qed.

Lemma findRecord_None x documentId :
  documentId ∉ tf_id <$> termFreqs x -> findRecord x documentId = None.
Proof.
  intros Hid. unfold findRecord.
  destruct (find _ (termFreqs x)) as [doc|] eqn:E; [|done].
  apply find_some in E as [Hin Hd]. apply bool_decide_eq_true in Hd.
  exfalso. apply Hid. rewrite <- Hd.
  apply list_elem_of_fmap_2. by apply list_elem_of_In.
Qed.

(** What well-formedness gives for a term that a stored record has. *)
Lemma wf_term_of_record x doc term n :
  wf_index x -> doc ∈ termFreqs x -> termFreq doc !! term = Some (S n) ->
  exists df,
    documentFreq x !! term = Some (S df)
    /\ (S df <= length (documents x))%nat
    /\ (0 < totalTerms doc)%nat
    /\ 0 < averageLength x.
Proof.
  intros [Hids Hrecs Hdf] Hdoc Htf.
  rewrite Forall_forall in Hrecs. destruct (Hrecs doc Hdoc) as [Hcount Htotal].
  assert (Hterm : term ∈ terms doc).
  { apply occurrences_pos.
    pose proof (foldl_countTerm_getOr0 (terms doc) ∅ term) as Hocc.
    rewrite <- Hcount in Hocc. unfold getOr0 in Hocc.
    rewrite Htf, lookup_empty in Hocc. simpl in Hocc. lia. }
  assert (Hlen : length (documents x) = length (termFreqs x)).
  { by rewrite <- (length_fmap doc_id), Hids, length_fmap. }
  pose proof (docCount_pos term _ _ Hdoc Hterm) as Hpos.
  pose proof (docCount_le term (termFreqs x)) as Hle.
  assert (Htot : (0 < totalTerms doc)%nat).
  { rewrite Htotal. destruct (terms doc); [by apply elem_of_nil in Hterm|].
    simpl. lia. }
  destruct (docCount term (termFreqs x)) as [|df] eqn:Edf; [lia|].
  exists df. split_and!.
  - by rewrite Hdf, Edf.
  - lia.
  - done.
  - unfold averageLength. apply Rdiv_lt_0_compat.
    + apply lt_0_INR. pose proof (sum_list_elem _ _ Hdoc). lia.
    + apply lt_0_INR. lia.
Qed.

(** On a well-formed index a step of the loop adds the contribution of
    its term. *)
Lemma bm25Step_contribution x doc k1 b score term :
  wf_index x -> doc ∈ termFreqs x ->
  bm25Step x doc k1 b score term = score + contribution x doc k1 b term.
Proof.
  intros Hwf Hdoc. unfold bm25Step, contribution, getOr1, getOr0.
  destruct (termFreq doc !! term) as [[|n]|] eqn:Etf;
    [simpl; lra| |simpl; lra].
  change (default 0%nat (Some (S n))) with (S n). cbn [Nat.eqb].
  destruct (wf_term_of_record x doc term n Hwf Hdoc Etf)
    as (df & Hdf & _).
  rewrite Hdf. change (default 0%nat (Some (S df))) with (S df).
  rewrite avgDocLength_averageLength.
  unfold bm25TermSpec, idfSpec. unfold Rdiv. ring.
Qed.

Lemma foldl_bm25Step x doc k1 b acc query :
  wf_index x -> doc ∈ termFreqs x ->
  foldl (bm25Step x doc k1 b) acc query
  = acc + Rsum (contribution x doc k1 b <$> query).
Proof.
  intros Hwf Hdoc. revert acc.
  induction query as [|term query IH]; intros acc.
  - unfold Rsum. simpl. lra.
  - cbn [foldl]. rewrite IH, bm25Step_contribution by done.
    rewrite fmap_cons. unfold Rsum. cbn [foldr]. lra.
Qed.

Lemma contribution_nonneg x doc term :
  wf_index x -> doc ∈ termFreqs x ->
  0 <= contribution x doc k1_default b_default term.
Proof.
  intros Hwf Hdoc. unfold contribution.
  destruct (termFreq doc !! term) as [[|n]|] eqn:Etf; [lra| |lra].
  destruct (wf_term_of_record x doc term n Hwf Hdoc Etf)
    as (df & Hdf & HdfN & Htot & Havg).
  unfold getOr0. rewrite Hdf. cbn [default].
  unfold bm25TermSpec, idfSpec, k1_default, b_default.
  assert (Htf : 0 < INR (S n)) by (apply lt_0_INR; lia).
  assert (HN : INR (S df) <= INR (length (documents x))) by (by apply le_INR).
  assert (Hdfpos : 0 < INR (S df)) by (apply lt_0_INR; lia).
  assert (Hratio : 0 < (INR (length (documents x)) - INR (S df) + 0.5)
                       / (INR (S df) + 0.5))
    by (apply Rdiv_lt_0_compat; lra).
  assert (Hidf : 0 <= ln ((INR (length (documents x)) - INR (S df) + 0.5)
                          / (INR (S df) + 0.5) + 1))
    by (apply ln_nonneg; lra).
  assert (Hlen : 0 < INR (totalTerms doc) / averageLength x)
    by (apply Rdiv_lt_0_compat; [by apply lt_0_INR|done]).
  unfold Rdiv at 1. apply Rmult_le_pos.
  - apply Rmult_le_pos; [done|]. apply Rmult_le_pos; lra.
  - left. apply Rinv_0_lt_compat. lra.
Qed.

Lemma Rsum_nonneg l : Forall (fun r => 0 <= r) l -> 0 <= Rsum l.
Proof.
  induction 1 as [|r l Hr _ IH]; simpl; [lra|]. lra.
Qed.

Lemma Rsum_zero l : Forall (fun r => r = 0) l -> Rsum l = 0.
Proof.
  induction 1 as [|r l Hr _ IH]; simpl; [done|]. lra.
Qed.



End bm25_facts.

End TfidfFacts.

(** ** Further properties of the text index *)

Module TokenFacts.
Import Js JsFacts Tfidf TfidfSpec TokenSpec TfidfExamples TfidfFacts.

(** *** Tokenization *)

Lemma normalized_char_class c :
  let c' := blankOther (lowerChar (stripDiacritic c)) in
  isSpace c' || isTokenChar c' = true.
Proof.
  destruct c as [[] [] [] [] [] [] [] []]; vm_compute; reflexivity.
Qed.

Lemma splitSpaces_chars cs cur inRun piece c :
  piece ∈ splitSpaces cs cur inRun -> c ∈ piece ->
  c ∈ cur \/ (c ∈ cs /\ isSpace c = false).
Proof.
  revert cur inRun. induction cs as [|a cs IH]; intros cur inRun; simpl.
  - intros ->%list_elem_of_singleton Hc. left.
    by apply list_elem_of_In, in_rev, list_elem_of_In.
  - destruct (isSpace a) eqn:Ea.
    + destruct inRun.
      * intros Hp Hc. destruct (IH _ _ Hp Hc) as [H|[H1 H2]].
        -- by apply elem_of_nil in H.
        -- right. split; [by right|done].
      * intros [->|Hp]%elem_of_cons Hc.
        -- left. by apply list_elem_of_In, in_rev, list_elem_of_In.
        -- destruct (IH _ _ Hp Hc) as [H|[H1 H2]].
           ++ by apply elem_of_nil in H.
           ++ right. split; [by right|done].
    + intros Hp Hc. destruct (IH _ _ Hp Hc) as [H|[H1 H2]].
      * apply elem_of_cons in H as [->|H]; [|by left].
        right. split; [left|done].
      * right. split; [by right|done].
Qed.

Lemma dropLeading_elem cs c : c ∈ dropLeading cs -> c ∈ cs.
Proof.
  induction cs as [|a cs IH]; simpl; [done|].
  destruct (isHyphenOrApostrophe a); [|done]. intros H. right. by apply IH.
Qed.

Lemma dropLeading_head cs c :
  head (dropLeading cs) = Some c -> isHyphenOrApostrophe c = false.
Proof.
  induction cs as [|a cs IH]; simpl; [done|].
  destruct (isHyphenOrApostrophe a) eqn:E; [done|].
  simpl. by intros [= <-].
Qed.

(** Dropping from the front of a list that ends well leaves a list that
    ends well. *)
Lemma dropLeading_last cs c :
  (forall c', last cs = Some c' -> isHyphenOrApostrophe c' = false) ->
  last (dropLeading cs) = Some c -> isHyphenOrApostrophe c = false.
Proof.
  induction cs as [|a cs IH]; simpl; [done|].
  intros Hlast. destruct (isHyphenOrApostrophe a) eqn:E.
  - destruct cs as [|b cs]; [done|]. apply IH. intros c' Hc'.
    apply Hlast. by rewrite last_cons, Hc'.
  - intros Hc. by apply Hlast.
Qed.

Lemma head_rev {A} (l : list A) : head (rev l) = last l.
Proof.
  induction l as [|a l IH] using rev_ind; [done|].
  by rewrite rev_unit, last_snoc.
Qed.

Lemma last_rev {A} (l : list A) : last (rev l) = head l.
Proof. by rewrite <- head_rev, rev_involutive. Qed.

Lemma trimWord_elem cs c : c ∈ trimWord cs -> c ∈ cs.
Proof.
  unfold trimWord. intros H.
  apply list_elem_of_In, in_rev, list_elem_of_In, dropLeading_elem in H.
  apply list_elem_of_In, in_rev, list_elem_of_In in H.
  by apply dropLeading_elem.
Qed.

Lemma trimWord_ends cs :
  (forall c, head (trimWord cs) = Some c -> isHyphenOrApostrophe c = false)
  /\ (forall c, last (trimWord cs) = Some c -> isHyphenOrApostrophe c = false).
Proof.
  unfold trimWord. split; intros c.
  - rewrite head_rev. apply dropLeading_last. intros c'.
    rewrite last_rev. apply dropLeading_head.
  - rewrite last_rev. apply dropLeading_head.
Qed.

(** X1. Every token that [tokenize] returns has more than two code units,
    is not made of digits only, consists of lower-case letters, digits,
    underscores, apostrophes and hyphens, and neither starts nor ends with
    a hyphen or an apostrophe. *)
Theorem tokenize_wellFormed (text token : string) :
  token ∈ tokenize text -> wellFormedToken token.
Proof.
  unfold tokenize. intros Htoken.
  apply list_elem_of_fmap in Htoken as (word & -> & Hword).
  apply list_elem_of_filter in Hword as [Hkeep Hword].
  apply list_elem_of_fmap in Hword as (piece & -> & Hpiece).
  apply andb_true_iff in Hkeep as [Hlen Hdigits].
  unfold wellFormedToken. rewrite list_ascii_of_string_of_list_ascii.
  split_and!.
  - by apply Nat.ltb_lt in Hlen.
  - by apply negb_true_iff in Hdigits.
  - apply forallb_forall. intros c Hc%list_elem_of_In%trimWord_elem.
    destruct (splitSpaces_chars _ _ _ _ _ Hpiece Hc) as [H|[Hin Hspace]];
      [by apply elem_of_nil in H|].
    apply list_elem_of_fmap in Hin as (c2 & -> & Hin).
    apply list_elem_of_fmap in Hin as (c1 & -> & Hin).
    apply list_elem_of_fmap in Hin as (c0 & -> & Hin).
    pose proof (normalized_char_class c0) as Hclass. simpl in Hclass.
    rewrite Hspace in Hclass. exact Hclass.
  - apply trimWord_ends.
  - apply trimWord_ends.
Qed.

(** The tokens of a short text. *)
Lemma tokenize_wellFormed_witness : wellFormedToken "re-test".
Proof.
  apply (tokenize_wellFormed "A re-test, of 12345 it").
  apply (bool_decide_unpack _). vm_compute. exact I.
Defined.

(** *** Term filtering *)

(** X2. [filterTerms] keeps the terms in their order and keeps exactly
    those of 3 to 30 code units that, once the index holds three
    documents, are in at most 40 percent of the documents (five times the
    document frequency is at most twice the number of documents) and, once
    it holds more than ten, are not in exactly one document. *)
Theorem filterTerms_characterization (x : TFIDF) (terms : list string) :
  sublist (filterTerms x terms) terms
  /\ forall t, t ∈ filterTerms x terms <->
       t ∈ terms
       /\ (3 <= String.length t <= 30)%nat
       /\ ((length (documents x) < 3)%nat
           \/ (5 * getOr0 (documentFreq x) t <= 2 * length (documents x))%nat
              /\ ((length (documents x) <= 10)%nat
                  \/ getOr0 (documentFreq x) t <> 1%nat)).
Proof.
  split; [apply sublist_filter|].
  intros t. unfold filterTerms. rewrite list_elem_of_filter.
  unfold keepTerm, isStopWord.
  set (N := length (documents x)). set (df := getOr0 (documentFreq x) t).
  assert (Hstop : (3 <= N)%nat ->
    Qltb 0.4 (inject_Z (Z.of_nat df) / inject_Z (Z.of_nat N)) = true
    <-> (2 * N < 5 * df)%nat).
  { intros HN. rewrite Qltb_lt. destruct N as [|n]; [lia|].
    change (Z.of_nat (S n)) with (Z.pos (Pos.of_succ_nat n)).
    unfold Qlt, Qdiv, Qmult, Qinv, inject_Z. cbn [Qnum Qden].
    rewrite Z.mul_1_r, Pos.mul_1_l. lia. }
  destruct (Nat.ltb_spec (String.length t) 3) as [Hl|Hl]; simpl.
  { split; [by intros [? _]|]. intros (_ & ? & _). lia. }
  destruct (Nat.ltb_spec 30 (String.length t)) as [Hu|Hu]; simpl.
  { split; [by intros [? _]|]. intros (_ & ? & _). lia. }
  destruct (Nat.ltb_spec N 3) as [HN|HN].
  { destruct (Nat.ltb_spec 10 N) as [?|?]; [lia|]. simpl.
    split; [intros [_ Ht]|intros (Ht & _)]; split_and?; auto; lia. }
  specialize (Hstop HN).
  destruct (Qltb 0.4 _) eqn:Es.
  { apply proj1 in Hstop. specialize (Hstop eq_refl).
    split; [by intros [? _]|]. intros (_ & _ & [?|[? _]]); lia. }
  assert (Hns : (5 * df <= 2 * N)%nat).
  { destruct (le_lt_dec (5 * df) (2 * N)) as [?|Hlt]; [done|].
    apply Hstop in Hlt. done. }
  destruct (Nat.ltb_spec 10 N) as [H10|H10]; simpl.
  - destruct (Nat.eqb_spec df 1) as [Hd|Hd].
    + split; [by intros [? _]|]. intros (_ & _ & [?|[_ [?|?]]]); lia.
    + split; [intros [_ Ht]|intros [Ht _]]; split_and?; auto.
  - split; [intros [_ Ht]|intros [Ht _]]; split_and?; auto.
Qed.

End TokenFacts.

(** ** Building and updating the stored index *)

Module IndexingFacts.
Import Js JsFacts Tfidf TfidfSpec TfidfExamples TfidfFacts Indexing IndexingSpec.

Lemma filter_all {A} (P : A -> Prop) `{!forall a, Decision (P a)} (l : list A) :
  Forall P l -> filter P l = l.
Proof.
  induction 1 as [|a l Ha _ IH]; [done|].
  by rewrite filter_cons_True, IH.
Qed.

Lemma list_find_delete_filter (docs : list Document) id i d :
  NoDup (doc_id <$> docs) ->
  list_find (fun d => doc_id d = id) docs = Some (i, d) ->
  delete i docs = filter (fun d => doc_id d <> id) docs.
Proof.
  revert i. induction docs as [|a docs IH]; intros i Hnd Hf; [done|].
  rewrite fmap_cons in Hnd. apply NoDup_cons in Hnd as [Ha Hnd].
  simpl in Hf. case_decide as Hid.
  - injection Hf as <- <-. rewrite filter_cons_False by (intros H; by apply H).
    simpl. symmetry. apply filter_all, Forall_forall. intros d' Hd' E.
    apply Ha. rewrite Hid, <- E. by apply list_elem_of_fmap_2.
  - destruct (list_find _ docs) as [[j d']|] eqn:Ej; [|done].
    injection Hf as <- <-. rewrite filter_cons_True by done.
    simpl. f_equal. by apply IH.
Qed.

Lemma removeDocument_documents id x x' :
  NoDup (doc_id <$> documents x) ->
  removeDocument id x = Some x' ->
  documents x' = filter (fun d => doc_id d <> id) (documents x).
Proof.
  intros Hnd. unfold removeDocument.
  destruct (list_find _ (documents x)) as [[index d0]|] eqn:Ef.
  - destruct (termFreqs x !! index) as [doc|]; [|done].
    destruct (foldl dropDocumentFreq _ _) as [df'|]; [|done].
    intros [= <-]. simpl. by eapply list_find_delete_filter.
  - intros [= <-]. symmetry. apply filter_all.
    apply list_find_None in Ef. eapply Forall_impl; [exact Ef|]. done.
Qed.

(** X3. On a stored index that is well formed and has pairwise distinct
    document ids, [updateTFIDFIndex] (and [updateTFIDFWithAIData]) saves an
    index that is again well formed with pairwise distinct ids, and whose
    documents are the former ones without the document of the tab,
    followed by one new document of the tab that holds the enriched
    text. *)
Theorem updateTFIDFIndex_replaces_document
    (tabId : Z) (summary : string) (keywords : list string) (title : string)
    (indexData : Serialized) :
  wf_index (deserialize indexData) ->
  NoDup (documentIds (deserialize indexData)) ->
  exists saved,
    updateTFIDFIndex tabId summary keywords title (Some indexData)
    = Some (Some saved)
    /\ wf_index (deserialize saved)
    /\ NoDup (documentIds (deserialize saved))
    /\ documents (deserialize saved)
       = filter (fun d => doc_id d <> tabId) (documents (deserialize indexData))
         ++ [{| doc_id := tabId;
                doc_text := enrichedText title summary keywords;
                doc_metadata := [] |}].
Proof.
  intros Hwf Hnd. unfold updateTFIDFIndex.
  destruct (wf_removeDocument tabId _ Hwf) as (x' & Hrem & Hwf').
  rewrite Hrem. eexists. split; [reflexivity|].
  rewrite deserialize_serialize.
  pose proof (removeDocument_documents _ _ _ Hnd Hrem) as Hdocs.
  split_and!.
  - by apply wf_addDocument.
  - unfold documentIds, addDocument. cbn [documents].
    rewrite fmap_app, Hdocs. apply NoDup_app. split_and!.
    + apply (NoDup_fmap_2_strong doc_id).
      * intros d1 d2 [_ H1]%list_elem_of_filter [_ H2]%list_elem_of_filter E.
        unfold documentIds in Hnd.
        apply list_elem_of_lookup in H1 as [i1 H1].
        apply list_elem_of_lookup in H2 as [i2 H2].
        assert (i1 = i2) as ->.
        { eapply NoDup_lookup; [exact Hnd| |];
            rewrite list_lookup_fmap; [rewrite H1|rewrite H2]; simpl;
            [reflexivity|by rewrite E]. }
        congruence.
      * apply NoDup_filter. by eapply NoDup_fmap_1.
    + intros i Hi ->%list_elem_of_singleton.
      apply list_elem_of_fmap in Hi as (d & Hd & [Hne _]%list_elem_of_filter).
      by apply Hne.
    + apply NoDup_singleton.
  - unfold addDocument. cbn [documents]. by rewrite Hdocs.
Qed.

Lemma updateTFIDFIndex_replaces_document_witness :
  exists saved,
    updateTFIDFIndex 2 "dates" ["fig"] "Fruit" (Some (serialize corpus))
    = Some (Some saved)
    /\ wf_index (deserialize saved)
    /\ NoDup (documentIds (deserialize saved))
    /\ documents (deserialize saved)
       = filter (fun d => doc_id d <> 2%Z) (documents (deserialize (serialize corpus)))
         ++ [{| doc_id := 2;
                doc_text := enrichedText "Fruit" "dates" ["fig"];
                doc_metadata := [] |}].
Proof.
  apply (updateTFIDFIndex_replaces_document 2 "dates" ["fig"] "Fruit"
           (serialize corpus)).
  - rewrite deserialize_serialize. unfold corpus, fruitIndex.
    repeat apply wf_addDocument. apply wf_empty.
  - rewrite deserialize_serialize. apply (bool_decide_unpack _).
    vm_compute. exact I.
Defined.

Lemma indexTab_reachable env x tab :
  reachable x -> reachable (indexTab env x tab).
Proof.
  intros Hx. unfold indexTab.
  destruct (urlHostname env _); [|done].
  destruct (isAccessibleUrl _); by apply reach_add.
Qed.

Lemma indexTab_ids env x tab :
  documentIds (indexTab env x tab)
  = documentIds x
    ++ (Scoring.id <$> filter (fun tab => is_Some (urlHostname env (Scoring.url tab))) [tab]).
Proof.
  unfold indexTab, documentIds.
  destruct (urlHostname env (Scoring.url tab)) as [domain|] eqn:E.
  - rewrite filter_cons_True by (by rewrite E).
    destruct (isAccessibleUrl _); unfold addDocument; cbn [documents];
      by rewrite fmap_app.
  - rewrite filter_cons_False by (rewrite E; by intros [? ?]).
    by rewrite filter_nil, app_nil_r.
Qed.

Lemma foldl_indexTab env tabs x :
  reachable x ->
  reachable (foldl (indexTab env) x tabs)
  /\ documentIds (foldl (indexTab env) x tabs)
     = documentIds x
       ++ (Scoring.id <$> filter (fun tab => is_Some (urlHostname env (Scoring.url tab))) tabs).
Proof.
  revert x. induction tabs as [|tab tabs IH]; intros x Hx; cbn [foldl].
  - split; [done|]. by rewrite filter_nil, fmap_nil, app_nil_r.
  - destruct (IH _ (indexTab_reachable env x tab Hx)) as [Hr Hids].
    split; [done|]. rewrite Hids, indexTab_ids, <- app_assoc. f_equal.
    rewrite <- fmap_app. f_equal.
    change (tab :: tabs) with ([tab] ++ tabs). by rewrite filter_app.
Qed.

(** X4. [buildTFIDFIndex] returns a well-formed index that holds one
    document for every tab whose URL parses, in the order of the tabs and
    under the id of the tab; the text it saves reads back to this index;
    tabs with pairwise distinct ids give pairwise distinct document ids. *)
Theorem buildTFIDFIndex_documents (env : PageEnv)
    (tabs : list Scoring.BrowserTab) :
  let built := buildTFIDFIndex env tabs in
  wf_index built.1
  /\ documentIds built.1
     = Scoring.id <$> filter (fun tab => is_Some (urlHostname env (Scoring.url tab))) tabs
  /\ deserialize built.2 = built.1
  /\ (NoDup (Scoring.id <$> tabs) -> NoDup (documentIds built.1)).
Proof.
  unfold buildTFIDFIndex. cbn [fst snd].
  destruct (foldl_indexTab env tabs empty reach_empty) as [Hr Hids].
  change (documentIds empty) with (@nil Z) in Hids. rewrite app_nil_l in Hids.
  split_and!.
  - by apply reachable_wf.
  - done.
  - apply deserialize_serialize.
  - intros Hnd. rewrite Hids. eapply sublist_NoDup; [exact Hnd|]. apply fmap_sublist, sublist_filter.
Qed.

End IndexingFacts.

(** ** The invariant of the text index *)

Module IndexInvariantFacts.
Import Js JsFacts Tfidf TfidfSpec TokenSpec TfidfExamples TfidfFacts.

(** *** The invariant of the index *)

(** X5. In every index built from the empty one by [addDocument],
    [removeDocument] and a save and load, the documents and the term
    records run in parallel under the same ids, and the document frequency
    of a term is the number of records whose term list has it, which is at
    most the number of documents. *)
Theorem reachable_index_counts (x : TFIDF) :
  reachable x ->
  doc_id <$> documents x = tf_id <$> termFreqs x
  /\ forall t,
       getOr0 (documentFreq x) t = docCount t (termFreqs x)
       /\ (getOr0 (documentFreq x) t <= length (documents x))%nat.
Proof.
  intros [Hids _ Hdf]%reachable_wf. split; [done|]. intros t.
  assert (Hc : getOr0 (documentFreq x) t = docCount t (termFreqs x)).
  { apply getOr0_countOpt, Hdf. }
  split; [done|]. rewrite Hc.
  rewrite <- (length_fmap doc_id), Hids, length_fmap. apply docCount_le.
Qed.

Lemma reachable_index_counts_witness :
  doc_id <$> documents corpus = tf_id <$> termFreqs corpus
  /\ forall t,
       getOr0 (documentFreq corpus) t = docCount t (termFreqs corpus)
       /\ (getOr0 (documentFreq corpus) t <= length (documents corpus))%nat.
Proof.
  apply (reachable_index_counts corpus).
  unfold corpus, fruitIndex. repeat apply reach_add. apply reach_empty.
Defined.

(** X6. On such an index [removeDocument] stays within the model: it
    neither reads a missing record nor stores a count that is no number.
    It removes the first document that has the id together with the
    record at the same position, or changes nothing when no document has
    the id. *)
Theorem removeDocument_reachable (id : Z) (x : TFIDF) :
  reachable x ->
  exists x',
    removeDocument id x = Some x'
    /\ reachable x'
    /\ match list_find (fun d => doc_id d = id) (documents x) with
       | Some (index, _) =>
           documents x' = delete index (documents x)
           /\ termFreqs x' = delete index (termFreqs x)
       | None => x' = x
       end.
Proof.
  intros Hx. destruct (wf_removeDocument id x (reachable_wf x Hx))
    as (x' & Hrem & _).
  exists x'. split; [done|]. split; [by eapply reach_remove|].
  unfold removeDocument in Hrem.
  destruct (list_find _ (documents x)) as [[index d0]|]; [|congruence].
  destruct (termFreqs x !! index); [|done].
  destruct (foldl dropDocumentFreq _ _); [|done].
  by injection Hrem as <-.
Qed.

Lemma removeDocument_reachable_witness :
  exists x',
    removeDocument 2 corpus = Some x'
    /\ reachable x'
    /\ match list_find (fun d => doc_id d = 2%Z) (documents corpus) with
       | Some (index, _) =>
           documents x' = delete index (documents corpus)
           /\ termFreqs x' = delete index (termFreqs corpus)
       | None => x' = corpus
       end.
Proof.
  apply (removeDocument_reachable 2 corpus).
  unfold corpus, fruitIndex. repeat apply reach_add. apply reach_empty.
Defined.

(** *** Lookup after an addition *)

(** X7. [addDocument] does not replace: after adding a document under an
    id, the record that the scores read for this id is the older record
    when the index already had one, and the new record otherwise. The
    records read for the other ids are unchanged. *)
Theorem addDocument_findRecord (text : string) (id : Z) (metadata : Metadata)
    (x : TFIDF) :
  let x' := addDocument text id metadata x in
  (forall old, findRecord x id = Some old -> findRecord x' id = Some old)
  /\ (findRecord x id = None ->
      exists new, findRecord x' id = Some new
        /\ last (termFreqs x') = Some new
        /\ tf_id new = id
        /\ terms new
           = (let kept := filterTerms x (tokenize text) in
              kept ++ extractNGrams kept 2 ++ extractNGrams kept 3))
  /\ (forall other, other <> id -> findRecord x' other = findRecord x other).
Proof.
  unfold findRecord, addDocument. cbn [termFreqs].
  set (new := {| tf_id := id |}).
  assert (Happ : forall i,
    find (fun d => bool_decide (tf_id d = i)) (termFreqs x ++ [new])
    = match find (fun d => bool_decide (tf_id d = i)) (termFreqs x) with
      | Some d => Some d
      | None => if bool_decide (id = i) then Some new else None
      end).
  { intros i. induction (termFreqs x) as [|d l IH]; simpl; [done|].
    destruct (bool_decide (tf_id d = i)); [done|]. exact IH. }
  split_and!.
  - intros old Hold. by rewrite Happ, Hold.
  - intros Hnone. exists new. rewrite Happ, Hnone, bool_decide_eq_true_2 by done.
    split_and!; [done|by rewrite last_snoc|done|done].
  - intros other Hother. rewrite Happ.
    destruct (find _ (termFreqs x)); [done|].
    by rewrite bool_decide_eq_false_2 by done.
Qed.

(** *** The global counter *)

(** X8. The global term counter [globalTermFreq] and [totalTermCount] is
    written but never read: two indexes that differ in it only filter
    terms alike, score alike, and are changed alike by [addDocument] and
    [removeDocument] in their documents, records and document
    frequencies. *)
Theorem global_counter_never_read (x : TFIDF) (g : gmap string nat) (n : nat) :
  let y := {| documents := documents x; documentFreq := documentFreq x;
              termFreqs := termFreqs x;
              globalTermFreq := g; totalTermCount := n |} in
  (forall terms, filterTerms y terms = filterTerms x terms)
  /\ (forall q d k1 b, bm25 y q d k1 b = bm25 x q d k1 b)
  /\ (forall d1 d2, cosineSimilarity y d1 d2 = cosineSimilarity x d1 d2)
  /\ (forall text id metadata,
        let x' := addDocument text id metadata x in
        let y' := addDocument text id metadata y in
        documents y' = documents x' /\ documentFreq y' = documentFreq x'
        /\ termFreqs y' = termFreqs x')
  /\ (forall id,
        match removeDocument id x, removeDocument id y with
        | Some x', Some y' =>
            documents y' = documents x' /\ documentFreq y' = documentFreq x'
            /\ termFreqs y' = termFreqs x'
            /\ globalTermFreq x' = globalTermFreq x
            /\ totalTermCount x' = totalTermCount x
        | None, None => True
        | _, _ => False
        end).
Proof.
  split_and!; try done.
  intros id. unfold removeDocument. cbn [documents termFreqs documentFreq].
  destruct (list_find _ (documents x)) as [[index d0]|]; [|done].
  destruct (termFreqs x !! index); [|done].
  destruct (foldl dropDocumentFreq _ _); done.
Qed.

End IndexInvariantFacts.

(** ** Cosine similarity *)

Module CosineFacts.
Import Js JsFacts Tfidf TfidfSpec TfidfExamples TfidfFacts.

Section cosine_facts.
Local Open Scope R_scope.

Lemma cauchy_step d m1 m2 u v :
  0 <= d -> 0 <= m1 -> 0 <= m2 -> d * d <= m1 * m2 -> 0 <= u * v ->
  (d + u * v) * (d + u * v) <= (m1 + u * u) * (m2 + v * v).
Proof.
  intros Hd Hm1 Hm2 Hcs Huv.
  assert (H : 2 * d * (u * v) <= m1 * (v * v) + m2 * (u * u)).
  { apply Rsqr_incr_0_var; [|nra]. unfold Rsqr.
    assert (Hp : 0 <= (u * v) * (u * v)) by nra.
    pose proof (Rmult_le_compat_r _ _ _ Hp Hcs) as H1.
    pose proof (Rle_0_sqr (m1 * (v * v) - m2 * (u * u))) as H2.
    unfold Rsqr in H2. nra. }
  nra.
Qed.

Lemma cosineStep_fold x doc1 doc2 allTerms acc :
  (0 < totalTerms doc1)%nat -> (0 < totalTerms doc2)%nat ->
  0 <= acc.1.1 /\ 0 <= acc.1.2 /\ 0 <= acc.2
  /\ acc.1.1 * acc.1.1 <= acc.1.2 * acc.2 ->
  let r := foldl (cosineStep x doc1 doc2) acc allTerms in
  0 <= r.1.1 /\ 0 <= r.1.2 /\ 0 <= r.2 /\ r.1.1 * r.1.1 <= r.1.2 * r.2.
Proof.
  intros Ht1 Ht2. revert acc.
  induction allTerms as [|term l IH]; intros acc Hacc; [exact Hacc|].
  cbn [foldl]. apply IH. destruct acc as [[d m1] m2].
  cbn [fst snd] in Hacc. destruct Hacc as (Hd & Hm1 & Hm2 & Hcs).
  unfold cosineStep. cbn [fst snd].
  set (idf := ln _).
  set (tf1 := INR _ / INR (totalTerms doc1)).
  set (tf2 := INR _ / INR (totalTerms doc2)).
  assert (H1 : 0 <= tf1).
  { apply Rmult_le_pos; [apply pos_INR|].
    left. apply Rinv_0_lt_compat, lt_0_INR. lia. }
  assert (H2 : 0 <= tf2).
  { apply Rmult_le_pos; [apply pos_INR|].
    left. apply Rinv_0_lt_compat, lt_0_INR. lia. }
  assert (Huv : 0 <= tf1 * idf * (tf2 * idf)).
  { replace (tf1 * idf * (tf2 * idf)) with ((tf1 * tf2) * (idf * idf)) by ring.
    apply Rmult_le_pos; [by apply Rmult_le_pos|]. apply Rle_0_sqr. }
  split_and!.
  - lra.
  - pose proof (Rle_0_sqr (tf1 * idf)) as H. unfold Rsqr in H. lra.
  - pose proof (Rle_0_sqr (tf2 * idf)) as H. unfold Rsqr in H. lra.
  - by apply cauchy_step.
Qed.

Lemma cosineStep_fold_same x doc allTerms acc :
  acc.1.1 = acc.1.2 /\ acc.1.2 = acc.2 ->
  let r := foldl (cosineStep x doc doc) acc allTerms in
  r.1.1 = r.1.2 /\ r.1.2 = r.2.
Proof.
  revert acc. induction allTerms as [|term l IH]; intros acc Hacc; [exact Hacc|].
  cbn [foldl]. apply IH. destruct acc as [[d m1] m2].
  cbn [fst snd] in Hacc. destruct Hacc as [-> ->].
  unfold cosineStep. by cbn [fst snd].
Qed.



End cosine_facts.

End CosineFacts.

(** ** Fuzzy search *)

Module FuzzyFacts.
Import Js JsFacts FuzzySearch SearchSpec ScoringFacts.
Local Open Scope Q_scope.

Lemma string_length_list (s : string) :
  String.length s = length (list_ascii_of_string s).
Proof. induction s as [|c s IH]; simpl; [done|]. by rewrite IH. Qed.

Lemma fillRow_length bc a diag above left :
  length above = length a -> length (fillRow bc a diag above left) = length a.
Proof.
  revert diag above left. induction a as [|ac a IH]; intros diag above left Hl.
  - done.
  - destruct above as [|up above]; [done|]. simpl. f_equal. apply IH.
    simpl in Hl. lia.
Qed.

(** A cell of row [S i] and column [j] is at most [max (S i) j]. *)
Lemma fillRow_bound i bc a j0 diag above left :
  (diag <= Nat.max i j0)%nat ->
  (left <= Nat.max (S i) j0)%nat ->
  (forall k v, above !! k = Some v -> (v <= Nat.max i (j0 + 1 + k))%nat) ->
  forall k v, fillRow bc a diag above left !! k = Some v ->
    (v <= Nat.max (S i) (j0 + 1 + k))%nat.
Proof.
  revert j0 diag above left.
  induction a as [|ac a IH]; intros j0 diag above left Hd Hl Ha k v; [done|].
  destruct above as [|up above]; [done|]. cbn [fillRow].
  set (cell := if Ascii.eqb bc ac then diag else _).
  assert (Hcell : (cell <= Nat.max (S i) (j0 + 1))%nat).
  { subst cell. destruct (Ascii.eqb bc ac); lia. }
  destruct k as [|k].
  - simpl. intros [= <-]. replace (j0 + 1 + 0)%nat with (j0 + 1)%nat by lia.
    done.
  - simpl. intros Hv.
    replace (j0 + 1 + S k)%nat with ((j0 + 1) + 1 + k)%nat by lia.
    apply (IH (j0 + 1)%nat up above cell); try done.
    + specialize (Ha 0%nat up eq_refl). lia.
    + intros k' v' Hk'. specialize (Ha (S k') v' Hk'). lia.
Qed.

(** Where the two code units agree the cell is the one on the diagonal. *)
Lemma fillRow_diag bc a diag above left k :
  a !! k = Some bc -> length above = length a ->
  fillRow bc a diag above left !! k = (diag :: above) !! k.
Proof.
  revert diag above left k.
  induction a as [|ac a IH]; intros diag above left k Hk Hl; [done|].
  destruct above as [|up above]; [done|]. cbn [fillRow].
  destruct k as [|k].
  - simpl in Hk. injection Hk as ->. by rewrite Ascii.eqb_refl.
  - simpl in Hk. simpl. apply IH; [done|]. simpl in Hl. lia.
Qed.

Lemma lastRow_snoc a b bc :
  lastRow a (b ++ [bc])
  = (S (lastRow a b).1, nextRow (S (lastRow a b).1) bc a (lastRow a b).2).
Proof. unfold lastRow. by rewrite foldl_app. Qed.

Lemma lastRow_inv a b :
  (lastRow a b).1 = length b
  /\ length (lastRow a b).2 = (length a + 1)%nat
  /\ forall j v, (lastRow a b).2 !! j = Some v ->
       (v <= Nat.max (length b) j)%nat.
Proof.
  induction b as [|bc b IH] using rev_ind.
  - unfold lastRow. simpl. split_and!; [done|by rewrite length_seq|].
    intros j v Hj. apply lookup_seq in Hj as [-> _]. lia.
  - destruct IH as (Hi & Hlen & Hb). rewrite lastRow_snoc, length_app.
    cbn [fst snd length]. rewrite Hi.
    destruct (lastRow a b).2 as [|diag above] eqn:Erow.
    { simpl in Hlen. lia. }
    cbn [nextRow]. simpl in Hlen.
    assert (Habove : length above = length a) by lia.
    split_and!.
    + lia.
    + simpl. rewrite fillRow_length by done. lia.
    + intros [|k] v.
      * simpl. intros [= <-]. lia.
      * simpl. intros Hv.
        replace (length b + 1)%nat with (S (length b)) by lia.
        apply (fillRow_bound (length b) bc a 0 diag above (S (length b)))
          with (k := k).
        -- specialize (Hb 0%nat diag eq_refl). lia.
        -- lia.
        -- intros k' v' Hk'. specialize (Hb (S k') v' Hk'). lia.
        -- exact Hv.
Qed.

Lemma levenshteinDistance_le a b :
  (levenshteinDistance a b <= Nat.max (String.length a) (String.length b))%nat.
Proof.
  unfold levenshteinDistance. rewrite !string_length_list.
  destruct (lastRow_inv (list_ascii_of_string a) (list_ascii_of_string b))
    as (_ & Hlen & Hb).
  rewrite last_lookup, Hlen.
  destruct (_ !! _) as [v|] eqn:E; simpl; [|lia].
  apply Hb in E. lia.
Qed.

Lemma lastRow_diag p rest :
  (lastRow (p ++ rest) p).2 !! length p = Some 0%nat.
Proof.
  revert rest. induction p as [|c p IH] using rev_ind; intros rest.
  - unfold lastRow. cbn [foldl snd app length]. by rewrite Nat.add_1_r.
  - rewrite <- app_assoc. cbn [app]. rewrite lastRow_snoc. cbn [snd].
    specialize (IH (c :: rest)).
    destruct (lastRow_inv (p ++ c :: rest) p) as (Hi & Hlen & _).
    rewrite Hi. destruct (lastRow _ p).2 as [|diag above] eqn:Erow.
    { simpl in Hlen. lia. }
    cbn [nextRow]. rewrite length_app. simpl length.
    replace (length p + 1)%nat with (S (length p)) by lia.
    simpl in Hlen. cbn [lookup list_lookup].
    change ((S (length p) :: fillRow c (p ++ c :: rest) diag above (S (length p)))
              !! S (length p))
      with (fillRow c (p ++ c :: rest) diag above (S (length p)) !! length p).
    rewrite fillRow_diag; [done| |lia].
    by rewrite list_lookup_middle.
Qed.

Lemma levenshteinDistance_same s : levenshteinDistance s s = 0%nat.
Proof.
  unfold levenshteinDistance.
  pose proof (lastRow_diag (list_ascii_of_string s) []) as Hd.
  rewrite app_nil_r in Hd.
  destruct (lastRow_inv (list_ascii_of_string s) (list_ascii_of_string s))
    as (_ & Hlen & _).
  rewrite last_lookup, Hlen.
  replace (Init.Nat.pred (length (list_ascii_of_string s) + 1))
    with (length (list_ascii_of_string s)) by lia.
  by rewrite Hd.
Qed.

(** X22. The similarity of two strings lies between 0 and 1, and the
    similarity of a string with itself is 1; the distance it is computed
    from is at most the length of the longer string and is 0 between a
    string and itself. *)
Theorem stringSimilarity_range (str1 str2 : string) :
  0 <= stringSimilarity str1 str2 <= 1
  /\ stringSimilarity str1 str1 == 1
  /\ (levenshteinDistance str1 str2
      <= Nat.max (String.length str1) (String.length str2))%nat
  /\ levenshteinDistance str1 str1 = 0%nat.
Proof.
  split_and!.
  - unfold stringSimilarity. cbv zeta.
    set (longer := if (_ <? _)%nat then str1 else str2).
    set (shorter := if (_ <? _)%nat then str2 else str1).
    destruct (Nat.eqb_spec (String.length longer) 0) as [|Hne]; [done|].
    pose proof (levenshteinDistance_le shorter longer) as Hd.
    assert (Hls : (String.length shorter <= String.length longer)%nat).
    { subst longer shorter.
      destruct (Nat.ltb_spec (String.length str2) (String.length str1)); lia. }
    assert (HL : 0 < inject_Z (Z.of_nat (String.length longer))).
    { unfold Qlt. simpl. lia. }
    apply Qle_shift_div_l; [done|]. rewrite Qmult_0_l.
    unfold Qle. simpl. lia.
  - unfold stringSimilarity. cbv zeta.
    set (longer := if (_ <? _)%nat then str1 else str2).
    set (shorter := if (_ <? _)%nat then str2 else str1).
    destruct (Nat.eqb_spec (String.length longer) 0) as [|Hne]; [done|].
    pose proof (levenshteinDistance_le shorter longer) as Hd.
    assert (HL : 0 < inject_Z (Z.of_nat (String.length longer))).
    { unfold Qlt. simpl. lia. }
    apply Qle_shift_div_r; [done|]. rewrite Qmult_1_l.
    rewrite <- Zle_Qle. lia.
  - unfold stringSimilarity. cbv zeta.
    rewrite Nat.ltb_irrefl.
    destruct (Nat.eqb_spec (String.length str1) 0) as [|Hne]; [done|].
    rewrite levenshteinDistance_same. rewrite Z.sub_0_r.
    apply Qmult_inv_r. unfold Qeq. simpl. lia.
  - apply levenshteinDistance_le.
  - apply levenshteinDistance_same.
Qed.

(** *** Search *)

Lemma sort_by_score_sorted (scored : list (IndexedTab * Q)) :
  StronglySorted (fun a b => b.2 <= a.2) (sort (fun a b => b.2 - a.2) scored).
Proof.
  eapply StronglySorted_weaken;
    [|apply (sort_sorted (fun a b : IndexedTab * Q => b.2 - a.2))].
  - intros a b. unfold notAfter. intros; Lqa.lra.
  - intros a b. unfold notAfter.
    destruct (Qlt_le_dec a.2 b.2); [right|left]; Lqa.lra.
  - intros a b c. unfold notAfter. intros; Lqa.lra.
Qed.

(** X23. [search] returns at most [limit] entries. For a blank query they
    are the first entries of the index, without a score. Otherwise every
    result is an entry of the index with its score, which is positive; the
    results come in order of decreasing score; and an entry with a
    positive score that is left out scores no higher than any result. *)
Theorem search_results (scoreTab : IndexedTab -> string -> Q)
    (index : list IndexedTab) (query : string) (limit : nat) :
  let results := search scoreTab index query limit in
  (length results <= limit)%nat
  /\ (isBlank query = true ->
      results = map (fun tab => (tab, None)) (take limit index))
  /\ (isBlank query = false ->
      (forall r, r ∈ results ->
         r.1 ∈ index /\ r.2 = Some (scoreTab r.1 query)
         /\ 0 < scoreTab r.1 query)
      /\ StronglySorted (fun a b => scoreOf b <= scoreOf a) results
      /\ (forall tab, tab ∈ index -> 0 < scoreTab tab query ->
            (tab, Some (scoreTab tab query)) ∈ results
            \/ forall r, r ∈ results -> scoreTab tab query <= scoreOf r)).
Proof.
  cbv zeta. unfold search. destruct (isBlank query) eqn:Eb.
  { split_and!; [|done|done]. rewrite length_map, length_take. lia. }
  set (kept := filter _ _). set (sorted := sort _ kept).
  assert (Hkept : forall e, e ∈ kept <->
            e.1 ∈ index /\ e.2 = scoreTab e.1 query /\ 0 < e.2).
  { intros [tab sc]. subst kept. rewrite list_elem_of_filter, Qltb_lt.
    change (map ?f ?l) with (f <$> l). rewrite list_elem_of_fmap. simpl.
    split.
    - intros (Hpos & tab' & [= -> ->] & Hin). done.
    - intros (Hin & -> & Hpos). split; [done|]. by exists tab. }
  pose proof (sort_by_score_sorted kept) as Hs. fold sorted in Hs.
  rewrite <- (take_drop limit sorted) in Hs.
  apply StronglySorted_app_inv in Hs as [Hs Hrest].
  split_and!.
  - rewrite length_map, length_take. lia.
  - done.
  - intros _. split_and!.
    + intros r Hr. change (map ?f ?l) with (f <$> l) in Hr.
      apply list_elem_of_fmap in Hr as (e & -> & He).
      apply elem_of_take in He as (i & He & _).
      apply list_elem_of_lookup_2 in He.
      apply (sort_elem _ kept), Hkept in He as (Hin & Hsc & Hpos).
      simpl. rewrite <- Hsc. done.
    + change (map ?f ?l) with (f <$> l).
      clear -Hs. induction Hs as [|e l Hs IH Hall]; [constructor|].
      rewrite fmap_cons. constructor; [done|].
      apply Forall_fmap. eapply Forall_impl; [exact Hall|]. done.
    + intros tab Hin Hpos.
      assert (He : (tab, scoreTab tab query) ∈ sorted).
      { apply (sort_elem _ kept), Hkept. done. }
      rewrite <- (take_drop limit sorted) in He.
      apply elem_of_app in He as [He|He].
      * left. change (map ?f ?l) with (f <$> l).
        apply list_elem_of_fmap. by exists (tab, scoreTab tab query).
      * right. intros r Hr. change (map ?f ?l) with (f <$> l) in Hr.
        apply list_elem_of_fmap in Hr as (e & -> & Hr).
        pose proof (proj1 (Forall_forall _ _) Hrest e Hr) as Hall.
        by apply (proj1 (Forall_forall _ _) Hall) in He.
Qed.

End FuzzyFacts.

(** ** The keyword fallback *)

Module ManualFacts.
Import Js JsFacts Tfidf TfidfSpec ManualMetadata ScoringFacts.

Lemma countWord_get wordFreq word w :
  default 0%nat (mapGet w (countWord wordFreq word))
  = (default 0%nat (mapGet w wordFreq)
     + if decide (isCounted word = true /\ word = w) then 1 else 0)%nat.
Proof.
  unfold countWord. destruct (isCounted word) eqn:E.
  - destruct (decide (word = w)) as [->|Hne].
    + rewrite mapGet_mapSet_eq, decide_True by done. done.
    + rewrite mapGet_mapSet_ne by done.
      rewrite decide_False by (by intros [_ ?]). lia.
  - rewrite decide_False by (by intros [? _]). lia.
Qed.

Lemma foldl_countWord_get words wordFreq w :
  default 0%nat (mapGet w (foldl countWord wordFreq words))
  = (default 0%nat (mapGet w wordFreq)
     + if isCounted w then occurrences w words else 0)%nat.
Proof.
  revert wordFreq. induction words as [|word words IH]; intros wordFreq.
  - simpl. destruct (isCounted w); unfold occurrences; simpl; lia.
  - cbn [foldl]. rewrite IH, countWord_get. unfold occurrences.
    rewrite filter_cons.
    destruct (decide (word = w)) as [->|Hne].
    + destruct (isCounted w) eqn:E.
      * rewrite decide_True by done. simpl. lia.
      * rewrite decide_False by (by intros [? _]). lia.
    + rewrite decide_False by (by intros [_ ?]). lia.
Qed.

Lemma foldl_countWord_keys words wordFreq :
  NoDup wordFreq.*1 ->
  (forall k v, (k, v) ∈ wordFreq -> (0 < v)%nat) ->
  NoDup (foldl countWord wordFreq words).*1
  /\ (forall k v, (k, v) ∈ foldl countWord wordFreq words -> (0 < v)%nat)
  /\ (forall k, k ∈ (foldl countWord wordFreq words).*1 ->
        k ∈ wordFreq.*1 \/ (isCounted k = true /\ k ∈ words)).
Proof.
  revert wordFreq. induction words as [|word words IH]; intros wordFreq Hnd Hpos.
  - simpl. split_and!; [done|done|]. intros k Hk. by left.
  - cbn [foldl].
    assert (Hnd' : NoDup (countWord wordFreq word).*1).
    { unfold countWord. destruct (isCounted word); [|done].
      by apply mapSet_keys. }
    assert (Hpos' : forall k v, (k, v) ∈ countWord wordFreq word -> (0 < v)%nat).
    { intros k v Hin.
      pose proof (elem_mapGet_NoDup _ _ _ Hnd' Hin) as Hget.
      pose proof (countWord_get wordFreq word k) as Hc.
      rewrite Hget in Hc. simpl in Hc.
      destruct (decide (isCounted word = true /\ word = k)); [lia|].
      destruct (mapGet k wordFreq) as [v0|] eqn:E0.
      - apply mapGet_elem in E0. apply Hpos in E0. simpl in Hc. lia.
      - unfold countWord in Hin. destruct (isCounted word) eqn:Ec.
        + assert (Hk : k ∈ (mapSet word
                     (default 0%nat (mapGet word wordFreq) + 1)%nat wordFreq).*1).
          { apply list_elem_of_fmap. by exists (k, v). }
          apply mapSet_keys_elem in Hk as [->|Hk]; [exfalso; auto|].
          apply list_elem_of_fmap in Hk as ([k' v'] & -> & Hk).
          apply elem_mapGet in Hk as [v'' Hk]. simpl in E0. congruence.
        + apply elem_mapGet in Hin as [v'' Hin]. congruence. }
    destruct (IH _ Hnd' Hpos') as (H1 & H2 & H3).
    split_and!; [done|done|].
    intros k Hk. destruct (H3 k Hk) as [Hk'|[Hc Hw]].
    + unfold countWord in Hk'. destruct (isCounted word) eqn:Ec.
      * apply mapSet_keys_elem in Hk' as [->|Hk']; [|by left].
        right. split; [done|left].
      * by left.
    + right. split; [done|by right].
Qed.

(** X24. The fallback [extractManualMetadata] returns at most ten
    keywords, pairwise distinct, each a word of the lower-cased text that
    has more than three code units and is not made of digits only, in
    order of decreasing number of occurrences in the text; a word of that
    kind that is left out occurs no more often than any keyword. It
    returns no entities and no topics. *)
Theorem extractManualMetadata_keywords (text : string) :
  let extracted := extractManualMetadata text in
  let words := wordsOf text in
  (length (x_keywords extracted) <= 10)%nat
  /\ NoDup (x_keywords extracted)
  /\ (forall kw, kw ∈ x_keywords extracted ->
        kw ∈ words /\ (3 < String.length kw)%nat
        /\ forallb isDigit (list_ascii_of_string kw) = false)
  /\ StronglySorted
       (fun a b => (occurrences b words <= occurrences a words)%nat)
       (x_keywords extracted)
  /\ (forall w, w ∈ words -> isCounted w = true ->
        w ∈ x_keywords extracted
        \/ forall kw, kw ∈ x_keywords extracted ->
             (occurrences w words <= occurrences kw words)%nat)
  /\ x_entities extracted = [] /\ x_topics extracted = [].
Proof.
  cbv zeta. unfold extractManualMetadata. cbv zeta.
  cbn [x_keywords x_entities x_topics].
  set (words := wordsOf text).
  set (wordFreq := foldl countWord [] words).
  set (sorted := sort _ wordFreq).
  destruct (foldl_countWord_keys words []) as (Hnd & Hpos & Hkeys);
    [constructor|by intros k v ?%elem_of_nil|].
  fold wordFreq in Hnd, Hpos, Hkeys.
  assert (Hval : forall k v, (k, v) ∈ wordFreq ->
            isCounted k = true /\ k ∈ words /\ v = occurrences k words).
  { intros k v Hin.
    destruct (Hkeys k) as [Hk|[Hc Hw]].
    { apply list_elem_of_fmap. by exists (k, v). }
    { by apply elem_of_nil in Hk. }
    split_and!; [done|done|].
    pose proof (foldl_countWord_get words [] k) as Hg. fold wordFreq in Hg.
    rewrite (elem_mapGet_NoDup _ _ _ Hnd Hin), Hc in Hg. simpl in Hg. done. }
  assert (Hsorted : StronglySorted (fun a b : string * nat => (b.2 <= a.2)%nat)
                      sorted).
  { eapply StronglySorted_weaken;
      [|apply (sort_sorted (fun a b : string * nat =>
                 inject_Z (Z.of_nat b.2 - Z.of_nat a.2)))].
    - intros a b. unfold notAfter, Qle. simpl. lia.
    - intros a b. unfold notAfter, Qle. simpl. lia.
    - intros a b c. unfold notAfter, Qle. simpl. lia. }
  assert (Hsub : forall e, e ∈ take 10 sorted -> e ∈ wordFreq).
  { intros e He. apply elem_of_take in He as (i & He & _).
    apply list_elem_of_lookup_2 in He. by apply (sort_elem _ wordFreq) in He. }
  rewrite <- (take_drop 10 sorted) in Hsorted.
  apply StronglySorted_app_inv in Hsorted as [Hs Hrest].
  change (map ?f ?l) with (f <$> l).
  split_and!; try done.
  - rewrite length_fmap, length_take. lia.
  - eapply sublist_NoDup; [|apply fmap_sublist, sublist_take].
    subst sorted. by rewrite sort_Permutation.
  - intros kw Hkw. apply list_elem_of_fmap in Hkw as ([k v] & -> & He).
    apply Hsub, Hval in He as (Hc & Hw & _). simpl.
    unfold isCounted in Hc. apply andb_true_iff in Hc as [Hl Hd].
    apply Nat.ltb_lt in Hl. apply negb_true_iff in Hd. done.
  - assert (Hall : Forall (fun e => e ∈ wordFreq) (take 10 sorted))
      by (by apply Forall_forall).
    revert Hall. clear -Hs Hval.
    induction Hs as [|e l Hs IH Hfa]; intros Hall; [constructor|].
    apply Forall_cons in Hall as [He Hall].
    rewrite fmap_cons. constructor; [by apply IH|].
    apply Forall_fmap, Forall_forall. intros e' He'.
    pose proof (proj1 (Forall_forall _ _) Hfa e' He') as Hle.
    pose proof (proj1 (Forall_forall _ _) Hall e' He') as Hin'.
    destruct e as [k v], e' as [k' v'].
    apply Hval in He as (_ & _ & ->). apply Hval in Hin' as (_ & _ & ->).
    done.
  - intros w Hw Hc.
    assert (Hin : (w, occurrences w words) ∈ wordFreq).
    { pose proof (foldl_countWord_get words [] w) as Hg. fold wordFreq in Hg.
      rewrite Hc in Hg. simpl in Hg.
      destruct (mapGet w wordFreq) as [v|] eqn:E.
      - simpl in Hg. subst v. by apply mapGet_elem.
      - simpl in Hg. exfalso.
        assert (0 < occurrences w words)%nat; [|lia].
        unfold occurrences. apply list_elem_of_In in Hw.
        destruct (filter _ words) as [|x l] eqn:Ef; [|simpl; lia].
        exfalso. apply list_elem_of_In in Hw.
        assert (Hf : w ∈ filter (fun token => token = w) words)
          by (by apply list_elem_of_filter).
        rewrite Ef in Hf. by apply elem_of_nil in Hf. }
    assert (Hin' : (w, occurrences w words) ∈ sorted)
      by (subst sorted; by apply sort_elem).
    clear Hin. rename Hin' into Hin.
    rewrite <- (take_drop 10 sorted) in Hin.
    apply elem_of_app in Hin as [Hin|Hin].
    + left. apply list_elem_of_fmap. by exists (w, occurrences w words).
    + right. intros kw Hkw.
      apply list_elem_of_fmap in Hkw as ([k v] & -> & He).
      pose proof (proj1 (Forall_forall _ _) Hrest _ He) as Hall.
      apply (proj1 (Forall_forall _ _) Hall) in Hin. simpl in Hin.
      apply Hsub, Hval in He as (_ & _ & ->). done.
Qed.

End ManualFacts.
